(** * Engagement controller of the twitter-plus plugin: a shallow embedding

    The development follows the TypeScript sources of
    [packages/plugin-twitter-plus/src]:

    - [post.ts]              ([truncateToCompleteSentence] and
                              [TwitterPostClient]: the posting loop)
    - [interactions.ts]      ([TwitterInteractionClient]: rate limiter,
                              engagement scheduler, thread reconstructor)
    - [template-manager.ts]  ([TwitterTemplateManager]: template selector and
                              cooldown table; [ContentFormatter])
    - [template-enhanced-client.ts]
                             ([TemplateEnhancedTwitterClient]: the choice of
                              a template type, the cache of recent content)
    - [index.ts]             ([TwitterManager]: loading and validating the
                              special interactions)

    JavaScript effects are made explicit: [Math.random] and [Date.now] read
    from two streams carried by the state, exceptions are an outcome of the
    monad [M], and the logger appends to a console kept in the state. *)

From Stdlib Require Import QArith Qround Ascii String.
From stdpp Require Import gmap strings list fin_maps sorting pretty.

Local Open Scope Z_scope.

(* ===================================================================== *)
(** * JavaScript primitives used by the plugin *)
(* ===================================================================== *)

Module Js.

(** Exceptions that cross function boundaries in the modelled code. *)
Inductive JsError : Type :=
  | TypeError (msg : string)
  | SyntaxError (msg : string)
  | ExternalError (msg : string).

Inductive outcome (A : Type) : Type :=
  | Ok (a : A)
  | Throw (e : JsError).
Arguments Ok {A} a.
Arguments Throw {A} e.

(** A computation over a mutable state [St]; a thrown exception keeps the
    mutations made before it, as in JavaScript. *)
Definition M (St A : Type) : Type := St -> outcome A * St.

#[export] Instance M_ret {St} : MRet (M St) := fun A a s => (Ok a, s).
#[export] Instance M_bind {St} : MBind (M St) := fun A B k m s =>
  match m s with
  | (Ok a, s') => k a s'
  | (Throw e, s') => (Throw e, s')
  end.

Definition throw {St A} (e : JsError) : M St A := fun s => (Throw e, s).

(** [try { body } catch (e) { handler e }] *)
Definition try_catch {St A} (body : M St A) (handler : JsError -> M St A) : M St A :=
  fun s =>
    match body s with
    | (Ok a, s') => (Ok a, s')
    | (Throw e, s') => handler e s'
    end.

(** [preserves proj m]: running [m] leaves the part [proj] of the state as
    it was, whether [m] returns or throws. *)
Definition preserves {St A B} (proj : St -> B) (m : M St A) : Prop :=
  forall s, proj (m s).2 = proj s.

(** [returns m]: [m] never throws. *)
Definition returns {St A} (m : M St A) : Prop :=
  forall s, exists a, (m s).1 = Ok a.

Definition gets {St A} (f : St -> A) : M St A := fun s => (Ok (f s), s).
Definition modify {St} (f : St -> St) : M St unit := fun s => (Ok tt, f s).

(** [await] on the answer of a collaborator: a value or a rejection. *)
Definition await {St A} (r : outcome A) : M St A := fun s => (r, s).
Definition await_unit {St} (r : option JsError) : M St unit :=
  match r with
  | None => mret tt
  | Some e => throw e
  end.

(** [for (const x of xs) { await body(x) }] *)
Fixpoint for_of {St A} (xs : list A) (body : A -> M St unit) : M St unit :=
  match xs with
  | [] => mret tt
  | x :: rest => body x ;; for_of rest body
  end.

(** [xs.filter(pred)] with an effectful predicate, left to right. *)
Fixpoint filterM {St A} (pred : A -> M St bool) (xs : list A) : M St (list A) :=
  match xs with
  | [] => mret []
  | x :: rest =>
      keep ← pred x;
      kept ← filterM pred rest;
      mret (if keep : bool then x :: kept else kept)
  end.

(** ** The ambient world: random source, wall clock, logger *)

Inductive LogLevel := LLog | LWarn | LError | LInfo | LDebug.

Record World : Type := mkWorld {
  rand_src : nat -> Q;      (* successive results of [Math.random()] *)
  rand_pos : nat;
  clock_src : nat -> Z;     (* successive results of [Date.now()] *)
  clock_pos : nat;
  console : list (LogLevel * string)
}.

Definition next_random (w : World) : Q := rand_src w (rand_pos w).
Definition next_now (w : World) : Z := clock_src w (clock_pos w).

Definition advance_random (w : World) : World :=
  mkWorld (rand_src w) (S (rand_pos w)) (clock_src w) (clock_pos w) (console w).
Definition advance_clock (w : World) : World :=
  mkWorld (rand_src w) (rand_pos w) (clock_src w) (S (clock_pos w)) (console w).
Definition append_log (lvl : LogLevel) (msg : string) (w : World) : World :=
  mkWorld (rand_src w) (rand_pos w) (clock_src w) (clock_pos w) (console w ++ [(lvl, msg)]).

(** [Math.random()] returns a number in the half-open unit interval. *)
Definition unit_random (w : World) : Prop :=
  forall i, (0 <= rand_src w i)%Q /\ (rand_src w i < 1)%Q.

(** States that embed a world. *)
Class HasWorld (St : Type) : Type := {
  world_of : St -> World;
  with_world : World -> St -> St
}.

Section WorldOps.
Context {St : Type} `{HasWorld St}.

Definition Math_random : M St Q := fun s =>
  (Ok (next_random (world_of s)), with_world (advance_random (world_of s)) s).

Definition Date_now : M St Z := fun s =>
  (Ok (next_now (world_of s)), with_world (advance_clock (world_of s)) s).

Definition elizaLogger (lvl : LogLevel) (msg : string) : M St unit :=
  modify (fun s => with_world (append_log lvl msg (world_of s)) s).
End WorldOps.

(** ** Strings

    A [string] stands for a sequence of code units below 256. *)

Definition char_is (c a : ascii) : bool := Ascii.eqb a c.

(** White space recognised by [String.prototype.trim] among the code units
    below 256: TAB, LF, VT, FF, CR, SPACE and NBSP. *)
Definition is_white_space (a : ascii) : bool :=
  let n := N_of_ascii a in
  ((9 <=? n)%N && (n <=? 13)%N) || (n =? 32)%N || (n =? 160)%N.

Fixpoint trimStart (s : string) : string :=
  match s with
  | String a rest => if is_white_space a then trimStart rest else s
  | EmptyString => EmptyString
  end.

(** Drops the white space at the end: a character is kept when it is not
    white space or when something is kept after it. *)
Fixpoint trimEnd (s : string) : string :=
  match s with
  | EmptyString => EmptyString
  | String a rest =>
      match trimEnd rest with
      | EmptyString => if is_white_space a then EmptyString else String a EmptyString
      | kept => String a kept
      end
  end.

Definition trim (s : string) : string := trimEnd (trimStart s).

Definition js_length (s : string) : Z := Z.of_nat (String.length s).

(** [s.slice(0, e)]: a negative end counts from the end of the string. *)
Definition slice0 (s : string) (e : Z) : string :=
  let len := js_length s in
  let to := if e <? 0 then Z.max (len + e) 0 else Z.min e len in
  String.substring 0 (Z.to_nat to) s.

(** Scan for [s.lastIndexOf(c, pos)], [c] a single character: the greatest
    index [i <= pos] holding [c], or [-1]. [i] is the index of the head of
    the remaining string and [best] the last hit so far. *)
Fixpoint lastIndexOf_scan (c : ascii) (pos : Z) (s : string) (i best : Z) : Z :=
  match s with
  | EmptyString => best
  | String a rest =>
      if i <=? pos
      then lastIndexOf_scan c pos rest (i + 1) (if char_is c a then i else best)
      else best
  end.

Definition lastIndexOf (s : string) (c : ascii) (pos : Z) : Z :=
  lastIndexOf_scan c pos s 0 (-1).

Fixpoint repeat_char (a : ascii) (n : nat) : string :=
  match n with
  | O => EmptyString
  | S k => String a (repeat_char a k)
  end.

End Js.

Import Js.

(* ===================================================================== *)
(** * post.ts *)
(* ===================================================================== *)

Module Post.

Definition MAX_TWEET_LENGTH : Z := 280.

Definition truncateToCompleteSentence (text : string) : string :=
  if js_length text <=? MAX_TWEET_LENGTH then text
  else
    let truncatedAtPeriod :=
      slice0 text (lastIndexOf text "."%char MAX_TWEET_LENGTH + 1) in
    if 0 <? js_length (trim truncatedAtPeriod) then trim truncatedAtPeriod
    else
      let truncatedAtSpace :=
        slice0 text (lastIndexOf text " "%char MAX_TWEET_LENGTH) in
      if 0 <? js_length (trim truncatedAtSpace) then trim truncatedAtSpace +:+ "..."
      else trim (slice0 text (MAX_TWEET_LENGTH - 3)) +:+ "...".

End Post.

(* ===================================================================== *)
(** * More primitives: numbers, BigInt, sorting, insertion-ordered maps *)
(* ===================================================================== *)

Module JsData.

Definition Qltb (x y : Q) : bool := negb (Qle_bool y x).

(** ** [BigInt(string)]

    Surrounding white space is dropped; the empty string is [0n]; a decimal
    literal may carry a sign; [0x], [0o] and [0b] literals may not. Anything
    else raises a [SyntaxError]. *)

Definition digit_value (a : ascii) : option Z :=
  let n := Z.of_N (N_of_ascii a) in
  if (48 <=? n) && (n <=? 57) then Some (n - 48)
  else if (97 <=? n) && (n <=? 102) then Some (n - 87)
  else if (65 <=? n) && (n <=? 70) then Some (n - 55)
  else None.

Fixpoint parse_digits (radix : Z) (s : string) (acc : Z) : option Z :=
  match s with
  | EmptyString => Some acc
  | String a rest =>
      match digit_value a with
      | Some d => if d <? radix then parse_digits radix rest (acc * radix + d) else None
      | None => None
      end
  end.

Definition parse_nonempty_digits (radix : Z) (s : string) : option Z :=
  match s with
  | EmptyString => None
  | _ => parse_digits radix s 0
  end.

Definition StringToBigInt (s : string) : option Z :=
  match trim s with
  | EmptyString => Some 0
  | String "0" (String "x" rest) | String "0" (String "X" rest) => parse_nonempty_digits 16 rest
  | String "0" (String "o" rest) | String "0" (String "O" rest) => parse_nonempty_digits 8 rest
  | String "0" (String "b" rest) | String "0" (String "B" rest) => parse_nonempty_digits 2 rest
  | String "-" rest => Z.opp <$> parse_nonempty_digits 10 rest
  | String "+" rest => parse_nonempty_digits 10 rest
  | t => parse_nonempty_digits 10 t
  end.

Definition BigInt {St} (s : string) : M St Z :=
  match StringToBigInt s with
  | Some n => mret n
  | None => throw (SyntaxError ("Cannot convert " +:+ s +:+ " to a BigInt"))
  end.

(** ** [Array.prototype.sort]

    With a consistent comparator the result is the stable sort, whatever the
    engine; it is computed here by insertion. [cmp x y <= 0] keeps [x]
    before [y]. *)

Section Sort.
Context {A : Type} (cmp : A -> A -> Z).

Fixpoint sort_insert (x : A) (l : list A) : list A :=
  match l with
  | [] => [x]
  | y :: rest => if cmp x y <=? 0 then x :: l else y :: sort_insert x rest
  end.

Fixpoint Array_sort (l : list A) : list A :=
  match l with
  | [] => []
  | x :: rest => sort_insert x (Array_sort rest)
  end.
End Sort.

(** A comparator that [Array.prototype.sort] can rely on: any two elements
    are ordered one way or the other, and the order is transitive. *)
Definition consistent_comparator {A} (cmp : A -> A -> Z) : Prop :=
  (forall x y, cmp x y <= 0 \/ cmp y x <= 0)
  /\ (forall x y z, cmp x y <= 0 -> cmp y z <= 0 -> cmp x z <= 0).

(** The same insertion scheme with a comparator that has effects. With an
    inconsistent comparator the order of the result is left to the engine:
    which pairs are compared, and which element of a pair is handed over
    first. Whatever the engine, the result is a permutation of the array,
    and that is all the general proofs below rely on. Here [cmp x y] gets
    the earlier element first, and an answer of at most 0 leaves it first. *)

Section SortM.
Context {St A : Type} (cmp : A -> A -> M St Q).

Fixpoint sort_insertM (x : A) (l : list A) : M St (list A) :=
  match l with
  | [] => mret [x]
  | y :: rest =>
      v ← cmp x y;
      if Qle_bool v 0 then mret (x :: l)
      else (tail ← sort_insertM x rest; mret (y :: tail))
  end.

Fixpoint Array_sortM (l : list A) : M St (list A) :=
  match l with
  | [] => mret []
  | x :: rest => sorted ← Array_sortM rest; sort_insertM x sorted
  end.
End SortM.

(** ** [new Set(array)] spread back into an array: first occurrences, in
    order of appearance. *)

Fixpoint Set_of_array {A} `{EqDecision A} (seen : list A) (l : list A) : list A :=
  match l with
  | [] => []
  | x :: rest =>
      if bool_decide (x ∈ seen) then Set_of_array seen rest
      else x :: Set_of_array (x :: seen) rest
  end.

(** ** [Map]: entries in insertion order, one per key. *)

Abbreviation JsMap V := (list (string * V)) (only parsing).

Section JsMap.
Context {V : Type}.

Fixpoint Map_get (k : string) (m : JsMap V) : option V :=
  match m with
  | [] => None
  | (k', v) :: rest => if bool_decide (k' = k) then Some v else Map_get k rest
  end.

(** [set] on a present key overwrites the value where it stands; a new
    key goes last. *)
Fixpoint Map_set (k : string) (v : V) (m : JsMap V) : JsMap V :=
  match m with
  | [] => [(k, v)]
  | (k', v') :: rest =>
      if bool_decide (k' = k) then (k, v) :: rest else (k', v') :: Map_set k v rest
  end.

Fixpoint Map_delete (k : string) (m : JsMap V) : JsMap V :=
  match m with
  | [] => []
  | (k', v') :: rest =>
      if bool_decide (k' = k) then rest else (k', v') :: Map_delete k rest
  end.

Definition Map_size (m : JsMap V) : Z := Z.of_nat (length m).

Definition Map_keys (m : JsMap V) : list string := m.*1.
End JsMap.

End JsData.

Import JsData.

(* ===================================================================== *)
(** * interactions.ts: [TwitterInteractionClient] *)
(* ===================================================================== *)

Module Interactions.

Record Tweet : Type := mkTweet {
  tweet_id : string;
  userId : string;
  conversationId : string;
  tweet_text : string;
  inReplyToStatusId : option string;
  permanentUrl : string
}.

Record InteractionLimits : Type := mkLimits {
  maxRepliesPerThread : Z;
  maxRepliesPerUser : Z;
  minTimeBetweenReplies : Z;
  checkIntervalMinutes : Z;
  replyProbability : Q
}.

(** Collaborators outside the plugin sources. Each is a function of its
    arguments; [Some e] / [Throw e] is a rejected promise. *)
Record Externals : Type := mkExternals {
  (* client.fetchSearchTweets: the objects returned by successive calls *)
  fetchSearchTweets : nat -> outcome (list nat);
  (* the tweet object behind a reference *)
  deref : nat -> Tweet;
  (* runtime.ensureConnection *)
  ensureConnection : Tweet -> option JsError;
  (* buildConversationThread imported from utils.ts *)
  utils_buildConversationThread : Tweet -> outcome (list Tweet);
  (* TemplateEnhancedTwitterClient.generateTweetContent *)
  generateTweetContent : Tweet -> list Tweet -> outcome string;
  (* runtime.cacheManager.set *)
  cacheSet : string -> option JsError;
  (* client.cacheLatestCheckedTweetId *)
  cacheLatestCheckedTweetId : option Z -> option JsError;
  (* client.getTweet *)
  getTweet : string -> outcome (option Tweet);
  (* failures of messageManager.getMemoryById / createMemory, by memory id *)
  getMemoryById_error : string -> option JsError;
  createMemory_error : string -> option JsError
}.

Record Client : Type := mkClient {
  ext : Externals;
  limits : InteractionLimits;
  profile_id : string;                 (* client.profile.id *)
  agentId : string;                    (* runtime.agentId *)
  world : World;
  recentReplies : gmap string Z;
  threadReplies : gmap string Z;
  lastReplyTime : gmap string Z;
  lastCheckedTweetId : option Z;       (* client.lastCheckedTweetId *)
  fetch_count : nat;                   (* calls to fetchSearchTweets so far *)
  memories : gset string;              (* ids held by runtime.messageManager *)
  timers : list Z                      (* delays of pending setTimeout calls *)
}.

Definition set_world (w : World) (c : Client) : Client :=
  mkClient (ext c) (limits c) (profile_id c) (agentId c) w (recentReplies c)
    (threadReplies c) (lastReplyTime c) (lastCheckedTweetId c) (fetch_count c)
    (memories c) (timers c).
Definition set_recentReplies (m : gmap string Z) (c : Client) : Client :=
  mkClient (ext c) (limits c) (profile_id c) (agentId c) (world c) m
    (threadReplies c) (lastReplyTime c) (lastCheckedTweetId c) (fetch_count c)
    (memories c) (timers c).
Definition set_threadReplies (m : gmap string Z) (c : Client) : Client :=
  mkClient (ext c) (limits c) (profile_id c) (agentId c) (world c) (recentReplies c)
    m (lastReplyTime c) (lastCheckedTweetId c) (fetch_count c)
    (memories c) (timers c).
Definition set_lastReplyTime (m : gmap string Z) (c : Client) : Client :=
  mkClient (ext c) (limits c) (profile_id c) (agentId c) (world c) (recentReplies c)
    (threadReplies c) m (lastCheckedTweetId c) (fetch_count c)
    (memories c) (timers c).
Definition set_lastCheckedTweetId (v : option Z) (c : Client) : Client :=
  mkClient (ext c) (limits c) (profile_id c) (agentId c) (world c) (recentReplies c)
    (threadReplies c) (lastReplyTime c) v (fetch_count c)
    (memories c) (timers c).
Definition set_fetch_count (n : nat) (c : Client) : Client :=
  mkClient (ext c) (limits c) (profile_id c) (agentId c) (world c) (recentReplies c)
    (threadReplies c) (lastReplyTime c) (lastCheckedTweetId c) n
    (memories c) (timers c).
Definition set_memories (ms : gset string) (c : Client) : Client :=
  mkClient (ext c) (limits c) (profile_id c) (agentId c) (world c) (recentReplies c)
    (threadReplies c) (lastReplyTime c) (lastCheckedTweetId c) (fetch_count c)
    ms (timers c).
Definition set_timers (ts : list Z) (c : Client) : Client :=
  mkClient (ext c) (limits c) (profile_id c) (agentId c) (world c) (recentReplies c)
    (threadReplies c) (lastReplyTime c) (lastCheckedTweetId c) (fetch_count c)
    (memories c) ts.

#[export] Instance Client_world : HasWorld Client :=
  {| world_of := world; with_world := set_world |}.

(** [stringToUuid(x + "-" + agentId)]: the key itself stands for its UUID. *)
Definition memory_key (x agent : string) : string := x +:+ "-" +:+ agent.

(** ** Rate limiter *)

Definition canReplyToUser (userId : string) : M Client bool :=
  replyCount ← gets (fun c => default 0 (recentReplies c !! userId));
  lastReply ← gets (fun c => default 0 (lastReplyTime c !! userId));
  now ← Date_now;
  let timeSinceLastReply := now - lastReply in
  lim ← gets limits;
  mret ((replyCount <? maxRepliesPerUser lim)
        && (minTimeBetweenReplies lim <=? timeSinceLastReply)).

Definition canReplyInThread (conversationId : string) : M Client bool :=
  threadReplyCount ← gets (fun c => default 0 (threadReplies c !! conversationId));
  lim ← gets limits;
  mret (threadReplyCount <? maxRepliesPerThread lim).

Definition updateInteractionTracking (userId conversationId : string) : M Client unit :=
  currentReplies ← gets (fun c => default 0 (recentReplies c !! userId));
  modify (fun c => set_recentReplies (<[userId := currentReplies + 1]> (recentReplies c)) c);;
  currentThreadReplies ← gets (fun c => default 0 (threadReplies c !! conversationId));
  modify (fun c => set_threadReplies
                     (<[conversationId := currentThreadReplies + 1]> (threadReplies c)) c);;
  now ← Date_now;
  modify (fun c => set_lastReplyTime (<[userId := now]> (lastReplyTime c)) c).

(** ** Engagement scheduler *)

Definition fetchAndFilter (localeCompare : string -> string -> Z)
    (selfId : string) (heap : nat -> Tweet) (tweetCandidates : list nat) : list nat :=
  filter (fun r => userId (heap r) ≠ selfId)
    (Array_sort (fun a b => localeCompare (tweet_id (heap a)) (tweet_id (heap b)))
       (Set_of_array [] tweetCandidates)).

Definition fetchAndFilterTweets (localeCompare : string -> string -> Z) : M Client (list nat) :=
  n ← gets fetch_count;
  modify (set_fetch_count (S n));;
  answer ← gets (fun c => fetchSearchTweets (ext c) n);
  tweetCandidates ← await answer;
  c ← gets (fun c => c);
  mret (fetchAndFilter localeCompare (profile_id c) (deref (ext c)) tweetCandidates).

Definition shouldProcessTweet (tweet : Tweet) : M Client bool :=
  user_ok ← canReplyToUser (userId tweet);
  thread_ok ← (if user_ok then canReplyInThread (conversationId tweet) else mret false);
  if negb user_ok || negb thread_ok then
    elizaLogger LLog ("Skipping tweet due to rate limits " +:+ permanentUrl tweet);;
    mret false
  else
    r ← Math_random;
    lim ← gets limits;
    if Qltb (replyProbability lim) r then
      elizaLogger LLog ("Skipping tweet due to probability check " +:+ permanentUrl tweet);;
      mret false
    else mret true.

Definition setupTweetContext (tweet : Tweet) : M Client (string * string) :=
  c ← gets (fun c => c);
  let roomId := memory_key (conversationId tweet) (agentId c) in
  let userIdUUID :=
    if bool_decide (userId tweet = profile_id c) then agentId c else userId tweet in
  await_unit (ensureConnection (ext c) tweet);;
  mret (roomId, userIdUUID).

Inductive Action := RESPOND | IGNORE | ERROR.

(** [TemplateEnhancedTwitterClient.trackInteraction]
    (template-enhanced-client.ts): the timestamp is read, then the entry
    is written to the cache. *)
Definition trackInteraction (tweet : Tweet) : M Client unit :=
  c ← gets (fun c => c);
  timestamp ← Date_now;
  await_unit (cacheSet (ext c) ("interaction:" +:+ tweet_id tweet)).

(** [TemplateEnhancedTwitterClient.handleTweet]: its own [try]/[catch]
    turns every failure of generation or of the interaction cache into the
    action [ERROR]. Generation is a collaborator here. *)
Definition handleTweet (tweet : Tweet) (thread : list Tweet) : M Client (string * Action) :=
  try_catch
    (c ← gets (fun c => c);
     content ← await (generateTweetContent (ext c) tweet thread);
     if bool_decide (content = EmptyString) then
       elizaLogger LDebug "No content generated";;
       mret (EmptyString, IGNORE)
     else
       trackInteraction tweet;;
       elizaLogger LDebug ("Generated content: " +:+ content);;
       mret (content, RESPOND))
    (fun e =>
       elizaLogger LError "Error handling tweet:";;
       mret (EmptyString, ERROR)).

Definition processSingleTweet (tweet : Tweet) : M Client unit :=
  elizaLogger LLog ("Processing new tweet: " +:+ permanentUrl tweet);;
  ctx ← setupTweetContext tweet;
  c ← gets (fun c => c);
  thread ← await (utils_buildConversationThread (ext c) tweet);
  result ← handleTweet tweet thread;
  match result.2 with
  | RESPOND => updateInteractionTracking (userId tweet) (conversationId tweet)
  | _ => mret tt
  end.

(** [!this.client.lastCheckedTweetId]: unset, or the BigInt zero. *)
Definition mark_unset (mark : option Z) : bool :=
  match mark with
  | None => true
  | Some v => v =? 0
  end.

Definition processTweetCandidate (tweet : Tweet) : M Client unit :=
  mark ← gets lastCheckedTweetId;
  newer ← (if mark_unset mark then mret true
           else (n ← BigInt (tweet_id tweet); mret (default 0 mark <? n)));
  if newer : bool then
    admitted ← shouldProcessTweet tweet;
    if negb admitted then mret tt
    else
      processSingleTweet tweet;;
      n ← BigInt (tweet_id tweet);
      modify (set_lastCheckedTweetId (Some n))
  else mret tt.

(** The [try] block of [handleTwitterInteractions]. *)
Definition checkCandidates (localeCompare : string -> string -> Z) : M Client unit :=
  tweetCandidates ← fetchAndFilterTweets localeCompare;
  heap ← gets (fun c => deref (ext c));
  for_of tweetCandidates (fun r => processTweetCandidate (heap r));;
  c ← gets (fun c => c);
  await_unit (cacheLatestCheckedTweetId (ext c) (lastCheckedTweetId c));;
  elizaLogger LLog "Finished checking Twitter interactions".

Definition handleTwitterInteractions (localeCompare : string -> string -> Z) : M Client unit :=
  elizaLogger LLog "Checking Twitter interactions";;
  try_catch (checkCandidates localeCompare)
    (fun e => elizaLogger LError "Error handling Twitter interactions:").

(** One turn of the loop set up by [start]: the check, then [setTimeout]
    for the next turn. *)
Definition handleInteractions (localeCompare : string -> string -> Z) : M Client unit :=
  handleTwitterInteractions localeCompare;;
  modify (fun c => set_timers
                     (timers c ++ [checkIntervalMinutes (limits c) * 60 * 1000]) c).

(** A pending timer fires: it leaves the queue and runs the turn. *)
Definition fire_timer (localeCompare : string -> string -> Z) : M Client bool :=
  ts ← gets timers;
  match ts with
  | [] => mret false
  | _ :: rest => modify (set_timers rest);; handleInteractions localeCompare;; mret true
  end.

(** [start] as far as [n] firings of the timer: the first turn, then one
    turn per firing. The result counts the turns set off by the timer. *)
Fixpoint fire_timers (localeCompare : string -> string -> Z) (n : nat) : M Client nat :=
  match n with
  | O => mret O
  | S k =>
      fired ← fire_timer localeCompare;
      if fired : bool then (turns ← fire_timers localeCompare k; mret (S turns))
      else mret O
  end.

Definition start (localeCompare : string -> string -> Z) (n : nat) : M Client nat :=
  handleInteractions localeCompare;;
  fire_timers localeCompare n.

(** ** Thread reconstructor

    [thread] and [visited] are objects local to one call of
    [buildConversationThread], shared by every level of the recursion. *)

Record Frame : Type := mkFrame {
  fr_client : Client;
  fr_thread : list Tweet;
  fr_visited : gset string
}.

#[export] Instance Frame_world : HasWorld Frame :=
  {| world_of := fun f => world (fr_client f);
     with_world := fun w f =>
       mkFrame (set_world w (fr_client f)) (fr_thread f) (fr_visited f) |}.

Definition in_client {A} (m : M Client A) : M Frame A := fun f =>
  let '(r, c) := m (fr_client f) in (r, mkFrame c (fr_thread f) (fr_visited f)).

Definition createMemoryForThreadTweet (tweet : Tweet) : M Client unit :=
  c ← gets (fun c => c);
  await_unit (ensureConnection (ext c) tweet);;
  let key := memory_key (tweet_id tweet) (agentId c) in
  await_unit (createMemory_error (ext c) key);;
  modify (fun c => set_memories ({[ key ]} ∪ memories c) c).

Definition processThreadTweet (tweet : Tweet) : M Frame unit :=
  c ← gets fr_client;
  let key := memory_key (tweet_id tweet) (agentId c) in
  await_unit (getMemoryById_error (ext c) key);;
  (if bool_decide (key ∈ memories c) then mret tt
   else in_client (createMemoryForThreadTweet tweet));;
  modify (fun f => mkFrame (fr_client f) (fr_thread f) ({[ tweet_id tweet ]} ∪ fr_visited f));;
  modify (fun f => mkFrame (fr_client f) (tweet :: fr_thread f) (fr_visited f)).

(** [currentTweet.inReplyToStatusId] as a condition: present and not empty. *)
Definition reply_target (tweet : Tweet) : option string :=
  match inReplyToStatusId tweet with
  | Some p => if bool_decide (p = EmptyString) then None else Some p
  | None => None
  end.

(** The recursive closure [processThread]. [maxReplies] is an integer, as
    [parseInt] leaves it. [fuel] bounds the number of nested calls; [None]
    means the bound was hit before the call returned. *)
Fixpoint processThread (fuel : nat) (maxReplies : Z) (currentTweet : Tweet) (depth : Z)
    (f : Frame) : option (outcome unit * Frame) :=
  match fuel with
  | O => None
  | S fuel' =>
      if (maxReplies <=? depth) || bool_decide (tweet_id currentTweet ∈ fr_visited f)
      then Some (Ok tt, f)
      else
        match processThreadTweet currentTweet f with
        | (Throw e, f1) => Some (Throw e, f1)
        | (Ok _, f1) =>
            match reply_target currentTweet with
            | None => Some (Ok tt, f1)
            | Some parentId =>
                (* try { ... } catch (error) { elizaLogger.error(...) } *)
                match getTweet (ext (fr_client f1)) parentId with
                | Throw e => Some (elizaLogger LError "Error fetching parent tweet:" f1)
                | Ok None => Some (Ok tt, f1)
                | Ok (Some parentTweet) =>
                    match processThread fuel' maxReplies parentTweet (depth + 1) f1 with
                    | None => None
                    | Some (Throw e, f2) =>
                        Some (elizaLogger LError "Error fetching parent tweet:" f2)
                    | Some (Ok _, f2) => Some (Ok tt, f2)
                    end
                end
            end
        end
  end.

Definition buildConversationThread (fuel : nat) (tweet : Tweet) (maxReplies : Z)
    (c : Client) : option (outcome (list Tweet) * Client) :=
  match processThread fuel maxReplies tweet 0 (mkFrame c [] ∅) with
  | None => None
  | Some (Throw e, f) => Some (Throw e, fr_client f)
  | Some (Ok _, f) => Some (Ok (fr_thread f), fr_client f)
  end.

(** The default value of the parameter [maxReplies]. *)
Definition buildConversationThread_default (fuel : nat) (tweet : Tweet) (c : Client) :=
  buildConversationThread fuel tweet (maxRepliesPerThread (limits c)) c.

(** ** What the reconstructed thread looks like *)

(** [parent] is what [getTweet] answers for the tweet [child] replies to. *)
Definition parent_link (e : Externals) (child parent : Tweet) : Prop :=
  exists parentId, reply_target child = Some parentId
    /\ getTweet e parentId = Ok (Some parent).

(** Oldest first: every tweet is the looked-up parent of the next one. *)
Fixpoint reply_chain (e : Externals) (thread : list Tweet) : Prop :=
  match thread with
  | [] => True
  | p :: rest =>
      match rest with
      | [] => True
      | child :: _ => parent_link e child p
      end /\ reply_chain e rest
  end.

(** What one call of [processThread] on [cur], with [budget] levels left,
    has put in front of the thread. *)
Definition walk_adds (cur : Tweet) (budget : Z) (f f' : Frame) (added : list Tweet) : Prop :=
  ext (fr_client f') = ext (fr_client f)
  /\ agentId (fr_client f') = agentId (fr_client f)
  /\ fr_thread f' = added ++ fr_thread f
  /\ fr_visited f' = list_to_set (tweet_id <$> added) ∪ fr_visited f
  /\ Z.of_nat (length added) <= Z.max 0 budget
  /\ reply_chain (ext (fr_client f)) added
  /\ NoDup (tweet_id <$> added)
  /\ (forall t, t ∈ added -> tweet_id t ∉ fr_visited f)
  /\ (added <> [] -> last added = Some cur).

(** The parent of [tweet] cannot be had: there is no reference, the lookup
    is rejected, or it answers nothing. *)
Definition no_parent (e : Externals) (tweet : Tweet) : Prop :=
  match reply_target tweet with
  | None => True
  | Some parentId =>
      match getTweet e parentId with
      | Ok (Some _) => False
      | _ => True
      end
  end.

(** Storing [t] is refused in the client [c]: [processThreadTweet] throws
    on it. *)
Definition store_refused (c : Client) (t : Tweet) : Prop :=
  exists e, (processThreadTweet t (mkFrame c [] ∅)).1 = Throw e.

(** The collaborators refuse nothing that storing [t] may ask of them. *)
Definition storable (c : Client) (t : Tweet) : Prop :=
  let key := memory_key (tweet_id t) (agentId c) in
  getMemoryById_error (ext c) key = None
  /\ ensureConnection (ext c) t = None
  /\ createMemory_error (ext c) key = None.

(** Why the walk went no further than [oldest], with [levels] tweets in
    the thread: the limit is reached, the parent cannot be had, the parent
    has been visited already, or the parent could not be stored. *)
Definition stops_at (maxReplies : Z) (c : Client) (visited : gset string) (levels : Z)
    (oldest : Tweet) : Prop :=
  levels = maxReplies
  \/ no_parent (ext c) oldest
  \/ exists parent, parent_link (ext c) oldest parent
       /\ (tweet_id parent ∈ visited \/ store_refused c parent).

End Interactions.

(* ===================================================================== *)
(** * template-manager.ts: [TwitterTemplateManager] *)
(* ===================================================================== *)

Module TemplateManager.

(** ** Values of the context record *)

#[local] Set Warnings "-register-all".

Inductive JsNum : Type :=
  | NaN
  | NegInfinity
  | Finite (q : Q)
  | PosInfinity.

Inductive JsValue : Type :=
  | JsUndefined
  | JsNull
  | JsBool (b : bool)
  | JsNumber (n : JsNum)
  | JsString (s : string)
  | JsArray (items : list JsValue)
  | JsObject (props : list (string * JsValue)).

(** [x < y] on numbers; any comparison with [NaN] is false. *)
Definition num_lt (x y : JsNum) : bool :=
  match x, y with
  | NaN, _ | _, NaN => false
  | _, NegInfinity => false
  | NegInfinity, _ => true
  | PosInfinity, _ => false
  | Finite _, PosInfinity => true
  | Finite a, Finite b => Qltb a b
  end.

Definition num_eq (x y : JsNum) : bool :=
  match x, y with
  | NegInfinity, NegInfinity | PosInfinity, PosInfinity => true
  | Finite a, Finite b => Qeq_bool a b
  | _, _ => false
  end.

(** The value of a condition as the catalog (a JSON document) can hold it. *)
Inductive CondValue : Type :=
  | CString (s : string)
  | CNumber (n : JsNum).

Definition cond_to_value (v : CondValue) : JsValue :=
  match v with
  | CString s => JsString s
  | CNumber n => JsNumber n
  end.

(** [value === condition.value] *)
Definition strict_equals (value : JsValue) (v : CondValue) : bool :=
  match value, v with
  | JsString a, CString b => bool_decide (a = b)
  | JsNumber a, CNumber b => num_eq a b
  | _, _ => false
  end.

(** Coercions and the regular-expression engine belong to the language
    runtime; the plugin only calls them. *)
Class Runtime : Type := {
  js_String : JsValue -> string;                       (* String(v) *)
  js_Number : JsValue -> JsNum;                        (* Number(v) *)
  RegExp_test : string -> string -> outcome bool       (* new RegExp(p).test(s) *)
}.

(** [s.includes(t)] *)
Fixpoint is_prefix (t s : string) : bool :=
  match t, s with
  | EmptyString, _ => true
  | String a t', String b s' => Ascii.eqb a b && is_prefix t' s'
  | String _ _, EmptyString => false
  end.

Fixpoint includes (s t : string) : bool :=
  is_prefix t s ||
  match s with
  | EmptyString => false
  | String _ s' => includes s' t
  end.

(** [path.split('.')] *)
Fixpoint split_dot (path : string) : list string :=
  match path with
  | EmptyString => [EmptyString]
  | String a rest =>
      if Ascii.eqb a "."%char then EmptyString :: split_dot rest
      else match split_dot rest with
           | [] => [String a EmptyString]
           | part :: parts => String a part :: parts
           end
  end.

Fixpoint assoc_get (k : string) (props : list (string * JsValue)) : JsValue :=
  match props with
  | [] => JsUndefined
  | (k', v) :: rest => if bool_decide (k' = k) then v else assoc_get k rest
  end.

(** A canonical array index: ["0"], or decimal digits not starting with 0. *)
Definition array_index (part : string) : option nat :=
  match part with
  | EmptyString => None
  | String "0" EmptyString => Some O
  | String "0" _ | String "+" _ | String "-" _ => None
  | _ => Z.to_nat <$> parse_digits 10 part 0
  end.

(** [acc?.[part]] as far as own properties go: the properties of an
    object, the elements and the length of an array, the code units and
    the length of a string. Properties inherited from a prototype are not
    modelled: for a key such as ["constructor"] or ["toString"] the code
    reads an inherited function, and goes on from it, where this
    definition answers [undefined]. *)
Definition optional_get (acc : JsValue) (part : string) : JsValue :=
  match acc with
  | JsUndefined | JsNull => JsUndefined
  | JsObject props => assoc_get part props
  | JsArray items =>
      if bool_decide (part = "length") then JsNumber (Finite (inject_Z (Z.of_nat (length items))))
      else match array_index part with
           | Some i => default JsUndefined (items !! i)
           | None => JsUndefined
           end
  | JsString s =>
      if bool_decide (part = "length") then JsNumber (Finite (inject_Z (js_length s)))
      else match array_index part with
           | Some i => match String.get i s with
                       | Some a => JsString (String a EmptyString)
                       | None => JsUndefined
                       end
           | None => JsUndefined
           end
  | JsBool _ | JsNumber _ => JsUndefined
  end.

Definition getFieldValue (obj : JsValue) (path : string) : JsValue :=
  foldl optional_get obj (split_dot path).

Record Condition : Type := mkCondition {
  field : string;
  operator : string;
  value : CondValue
}.

Record TemplateVariation : Type := mkTemplate {
  name : string;
  conditions : option (list Condition);
  probability : option Q;
  template : string
}.

Section WithRuntime.
Context `{Runtime}.

Definition evaluateCondition (condition : Condition) (context : JsValue) : outcome bool :=
  let v := getFieldValue context (field condition) in
  let op := operator condition in
  if bool_decide (op = "contains") then
    Ok (includes (js_String v) (js_String (cond_to_value (value condition))))
  else if bool_decide (op = "equals") then
    Ok (strict_equals v (value condition))
  else if bool_decide (op = "greaterThan") then
    Ok (num_lt (js_Number (cond_to_value (value condition))) (js_Number v))
  else if bool_decide (op = "lessThan") then
    Ok (num_lt (js_Number v) (js_Number (cond_to_value (value condition))))
  else if bool_decide (op = "matches") then
    RegExp_test (js_String (cond_to_value (value condition))) (js_String v)
  else Ok false.

(** [conditions.every(c => evaluateCondition(c, context))]: stops at the
    first condition that does not hold. *)
Fixpoint every_condition (conds : list Condition) (context : JsValue) : outcome bool :=
  match conds with
  | [] => Ok true
  | c :: rest =>
      match evaluateCondition c context with
      | Ok true => every_condition rest context
      | other => other
      end
  end.
End WithRuntime.

(** ** The manager *)

Record Manager : Type := mkManager {
  tm_world : World;
  templates : gmap string (list TemplateVariation);     (* config.templates *)
  lastTemplateUse : JsMap Z
}.

Definition set_tm_world (w : World) (m : Manager) : Manager :=
  mkManager w (templates m) (lastTemplateUse m).
Definition set_lastTemplateUse (t : JsMap Z) (m : Manager) : Manager :=
  mkManager (tm_world m) (templates m) t.

#[export] Instance Manager_world : HasWorld Manager :=
  {| world_of := tm_world; with_world := set_tm_world |}.

Definition isTemplateOnCooldown (templateName : string) : M Manager bool :=
  lastUse ← gets (fun m => Map_get templateName (lastTemplateUse m));
  match lastUse with
  | None => mret false
  | Some t =>
      if t =? 0 then mret false
      else (now ← Date_now; mret (now - t <? 5 * 60 * 1000))
  end.

(** The entries that [trackTemplateUse] deletes once the table has grown
    past its cap: all but the first 50 in descending order of last use. *)
Definition oldEntries (table : JsMap Z) : list (string * Z) :=
  drop 50 (Array_sort (fun a b => b.2 - a.2) table).

(** [oldEntries.forEach(([key]) => this.lastTemplateUse.delete(key))] *)
Definition evict (table : JsMap Z) : JsMap Z :=
  foldl (fun t e => Map_delete e.1 t) table (oldEntries table).

Definition trackTemplateUse (templateName : string) : M Manager unit :=
  now ← Date_now;
  modify (fun m => set_lastTemplateUse (Map_set templateName now (lastTemplateUse m)) m);;
  table ← gets lastTemplateUse;
  if 100 <? Map_size table then
    modify (fun m => set_lastTemplateUse (evict (lastTemplateUse m)) m)
  else mret tt.

(** A run of selections, seen from the cooldown table: one call of
    [trackTemplateUse] per selected name. *)
Definition trackAll (names : list string) : M Manager unit :=
  for_of names trackTemplateUse.

(** [!template.probability || Math.random() < template.probability] *)
Definition checkProbability (t : TemplateVariation) : M Manager bool :=
  match probability t with
  | None => mret true
  | Some p =>
      if Qeq_bool p 0 then mret true
      else (r ← Math_random; mret (Qltb r p))
  end.

(** [[...array].sort(() => Math.random() - 0.5)] *)
Definition shuffleArray {A} (array : list A) : M Manager (list A) :=
  Array_sortM (fun _ _ => r ← Math_random; mret (r - (1 # 2))%Q) array.

Section WithRuntime.
Context `{Runtime}.

Definition eligible (context : JsValue) (t : TemplateVariation) : M Manager bool :=
  cooling ← isTemplateOnCooldown (name t);
  if cooling : bool then mret false
  else
    match conditions t with
    | None => checkProbability t
    | Some conds =>
        holds ← await (every_condition conds context);
        if holds : bool then checkProbability t else mret false
    end.

Definition getTemplate (type : string) (context : JsValue)
    : M Manager (option TemplateVariation) :=
  group ← gets (fun m => templates m !! type);
  match group with
  | None => mret None
  | Some ts =>
      eligibleTemplates ← filterM (eligible context) ts;
      match eligibleTemplates with
      | [] => mret None
      | _ =>
          shuffled ← shuffleArray eligibleTemplates;
          match shuffled with
          | selected :: _ => trackTemplateUse (name selected);; mret (Some selected)
          | [] => throw (TypeError "Cannot read properties of undefined (reading 'name')")
          end
      end
  end.
End WithRuntime.

End TemplateManager.

(* ===================================================================== *)
(** * index.ts and environment.ts: special interactions *)
(* ===================================================================== *)

Module TwitterManager.

(** An entry of [specialinteractions.json] after [JSON.parse]: the file is
    cast, not validated, so a field may be missing. *)
Record SpecialInteraction : Type := mkSpecial {
  handle : option string;
  topics : list string;
  templates : option (list string);
  probability : option Q;
  cooldown : option Z
}.

(** [specialInteractionSchema] of environment.ts: [handle] a string,
    [templates] an array, [probability] a number between 0 and 1, both ends
    included; [cooldown] is optional. *)
Definition specialInteractionSchema (i : SpecialInteraction) : bool :=
  match handle i, templates i, probability i with
  | Some _, Some _, Some p => Qle_bool 0 p && Qle_bool p 1
  | _, _, _ => false
  end.

(** [!interaction.handle || !interaction.templates || !interaction.probability] *)
Definition handle_falsy (i : SpecialInteraction) : bool :=
  match handle i with
  | None => true
  | Some h => bool_decide (h = EmptyString)
  end.
Definition templates_falsy (i : SpecialInteraction) : bool :=
  match templates i with
  | None => true
  | Some _ => false
  end.
Definition probability_falsy (i : SpecialInteraction) : bool :=
  match probability i with
  | None => true
  | Some p => Qeq_bool p 0
  end.
Definition invalid (i : SpecialInteraction) : bool :=
  handle_falsy i || templates_falsy i || probability_falsy i.

(** What [setSpecialInteractions] leaves in a client. *)
Record Registry : Type := mkRegistry {
  specialInteractions : gmap string SpecialInteraction;
  lastSpecialInteraction : gmap string Z
}.

Definition setSpecialInteractions (interactions : gmap string SpecialInteraction)
    (r : Registry) : Registry :=
  mkRegistry interactions
    (foldl (fun last key => <[key := 0]> last) (lastSpecialInteraction r)
       (map_to_list interactions).*1).

Record Manager : Type := mkManager {
  mgr_world : World;
  post : Registry;             (* TwitterPostClient *)
  interaction : Registry       (* TwitterInteractionClient *)
}.

#[export] Instance Manager_world : HasWorld Manager :=
  {| world_of := mgr_world;
     with_world := fun w m => mkManager w (post m) (interaction m) |}.

(** The validation loop over [Object.entries(interactions)]; the object is
    edited in place while the snapshot [entries] is walked. *)
Fixpoint validate (entries : list (string * SpecialInteraction))
    (interactions : gmap string SpecialInteraction)
    : M Manager (gmap string SpecialInteraction) :=
  match entries with
  | [] => mret interactions
  | (key, i) :: rest =>
      if invalid i then
        elizaLogger LWarn ("Invalid special interaction config for " +:+ key +:+ ", skipping");;
        validate rest (delete key interactions)
      else validate rest interactions
  end.

Definition setupSpecialInteractions (interactions : gmap string SpecialInteraction)
    : M Manager unit :=
  checked ← validate (map_to_list interactions) interactions;
  modify (fun m => mkManager (mgr_world m) (setSpecialInteractions checked (post m))
                     (interaction m));;
  modify (fun m => mkManager (mgr_world m) (post m)
                     (setSpecialInteractions checked (interaction m))).

(** The entries that pass the validation. *)
Definition valid_entries (interactions : gmap string SpecialInteraction)
    : gmap string SpecialInteraction :=
  filter (fun e => invalid e.2 = false) interactions.

(** What the validation loop leaves of the object, entry by entry. *)
Definition drop_invalid (entries : list (string * SpecialInteraction))
    (interactions : gmap string SpecialInteraction) : gmap string SpecialInteraction :=
  foldl (fun acc e => if invalid e.2 then delete e.1 acc else acc) interactions entries.

(** A file with one good entry and three that the validation drops: one
    of probability 0, which the schema accepts, one without a handle, one
    without templates. *)
Definition sample_interactions : gmap string SpecialInteraction :=
  {[ "vitalik" := mkSpecial (Some "VitalikButerin") ["eth"] (Some ["prophecy"]) (Some (1 # 2)) None;
     "muted" := mkSpecial (Some "elonmusk") ["doge"] (Some ["roast"]) (Some 0%Q) None;
     "nameless" := mkSpecial None [] (Some ["roast"]) (Some (1 # 2)) None;
     "bare" := mkSpecial (Some "cz_binance") [] None (Some 1%Q) (Some 1000) ]}.

(** A file with two entries that have a handle, templates and a
    probability other than 0, or lack only the probability: one whose
    handle is the empty string, which the schema accepts, and one without a
    probability. *)
Definition loose_interactions : gmap string SpecialInteraction :=
  {[ "anon" := mkSpecial (Some EmptyString) ["eth"] (Some ["roast"]) (Some (1 # 2)) None;
     "unweighted" := mkSpecial (Some "cz_binance") [] (Some ["roast"]) None None ]}.

Definition fresh_twitter_manager : Manager :=
  mkManager (mkWorld (fun _ => 0%Q) 0 (fun _ => 0) 0 []) (mkRegistry ∅ ∅) (mkRegistry ∅ ∅).

End TwitterManager.

(* ===================================================================== *)
(** * Scenarios: concrete worlds, clients and catalogs *)
(* ===================================================================== *)

Module Scenarios.
Import Interactions.

(** A world whose random source always answers [r] and whose clock always
    reads [t]. *)
Definition steady_world (r : Q) (t : Z) : World :=
  mkWorld (fun _ => r) 0 (fun _ => t) 0 [].

(** The limits the constructor falls back to when no setting is given. *)
Definition default_limits : InteractionLimits := mkLimits 2 5 300000 3 (1 # 2).

Definition mention (id user : string) : Tweet :=
  mkTweet id user ("conv-" +:+ id) ("hello from " +:+ user) None
    ("https://twitter.com/" +:+ user +:+ "/status/" +:+ id).

Definition reply_to (parent id user : string) : Tweet :=
  mkTweet id user "conv" ("reply " +:+ id) (Some parent)
    ("https://twitter.com/" +:+ user +:+ "/status/" +:+ id).

(** Collaborators that always succeed: the search returns the references
    [batch], generation answers a fixed text, no tweet can be looked up. *)
Definition calm_externals (heap : nat -> Tweet) (batch : list nat) : Externals :=
  mkExternals (fun _ => Ok batch) heap (fun _ => None) (fun t => Ok [t])
    (fun _ _ => Ok "gm") (fun _ => None) (fun _ => None) (fun _ => Ok None)
    (fun _ => None) (fun _ => None).

Definition fresh_client (e : Externals) (w : World) : Client :=
  mkClient e default_limits "agent-profile" "agent" w ∅ ∅ ∅ None 0 ∅ [].

(** [code_unit_compare s t]: the sign of the comparison of two strings by
    code units, the order in which a collator ranks decimal ids. *)
Definition code_unit_compare (s t : string) : Z :=
  match String.compare s t with
  | Lt => -1
  | Eq => 0
  | Gt => 1
  end.

(** [recentReplies.get(u) || 0] and [lastReplyTime.get(u) || 0] *)
Definition count_of (c : Client) (u : string) : Z := default 0 (recentReplies c !! u).
Definition last_of (c : Client) (u : string) : Z := default 0 (lastReplyTime c !! u).

(** A sequence of [updateInteractionTracking] calls, one per recorded
    reply [(userId, conversationId)]. *)
Definition recordReplies (calls : list (string * string)) : M Client unit :=
  for_of calls (fun call => updateInteractionTracking call.1 call.2).

Definition replies_to (u : string) (calls : list (string * string)) : Z :=
  Z.of_nat (length (filter (fun call => call.1 = u) calls)).

Definition five_replies : list (string * string) :=
  [("alice", "c1"); ("alice", "c2"); ("bob", "c1"); ("alice", "c3");
   ("alice", "c4"); ("alice", "c5")].

(** The candidate's id [n] passes the test of [processTweetCandidate]: no
    mark is set, or the mark is below [n]. *)
Definition newer_than_mark (c : Client) (n : Z) : Prop :=
  mark_unset (lastCheckedTweetId c) = true \/ default 0 (lastCheckedTweetId c) < n.

(** The state after the logger has written one entry. *)
Definition logged (lvl : LogLevel) (msg : string) (c : Client) : Client :=
  set_world (append_log lvl msg (world c)) c.


(** Two mentions, of ids 1001 and 1002, found by one search. *)
Definition two_mentions (r : nat) : Tweet :=
  match r with
  | O => mention "1001" "bob"
  | _ => mention "1002" "carol"
  end.

(** A client with the mark at 1000 whose next random draw, 9/10, is above
    the reply probability 1/2. *)
Definition unlucky_client : Client :=
  set_lastCheckedTweetId (Some 1000)
    (fresh_client (calm_externals two_mentions [0%nat; 1%nat])
       (steady_world (9 # 10) 1000000)).

(** A client at the mark 1000 whose first two draws, 9/10, are above the
    reply probability, and whose later draws, 1/10, are below it. *)
Definition moody_client : Client :=
  set_lastCheckedTweetId (Some 1000)
    (fresh_client (calm_externals two_mentions [0%nat; 1%nat])
       (mkWorld (fun i => if (i <? 2)%nat then 9 # 10 else 1 # 10) 0
          (fun _ => 1000000) 0 [])).


(** The same collaborators, except that generation is rejected for the
    tweets of bob. *)
Definition bob_ungenerable : Externals :=
  let e := calm_externals two_mentions [0%nat; 1%nat] in
  mkExternals (fetchSearchTweets e) (deref e) (ensureConnection e)
    (utils_buildConversationThread e)
    (fun t _ => if bool_decide (userId t = "bob")
                then Throw (ExternalError "model unavailable") else Ok "gm")
    (cacheSet e) (cacheLatestCheckedTweetId e) (getTweet e) (getMemoryById_error e)
    (createMemory_error e).

(** Ascending order of the ids under the comparator of the sort. *)
Definition ascending_ids (localeCompare : string -> string -> Z) (heap : nat -> Tweet)
    (a b : nat) : Prop :=
  localeCompare (tweet_id (heap a)) (tweet_id (heap b)) <= 0.

(** [localeCompare] ranks decimal ids as their code units do: a collator
    puts the digits in their numeric order and compares two strings from
    the left. *)
Definition ranks_digits (localeCompare : string -> string -> Z) : Prop :=
  forall s t,
    is_Some (parse_nonempty_digits 10 s) -> is_Some (parse_nonempty_digits 10 t) ->
    (localeCompare s t <= 0 <-> code_unit_compare s t <= 0).

(** Ascending order of the ids as [BigInt] reads them, the values that
    [processTweetCandidate] compares with the mark. *)
Definition ascending_numbers (heap : nat -> Tweet) (a b : nat) : Prop :=
  forall m n,
    StringToBigInt (tweet_id (heap a)) = Some m ->
    StringToBigInt (tweet_id (heap b)) = Some n -> m <= n.

(** Three objects: 0 and 2 are tweets of bob and carol, 1 is a tweet of
    the agent itself. *)
Definition three_objects (r : nat) : Tweet :=
  match r with
  | O => mention "1003" "bob"
  | S O => mention "1002" "agent-profile"
  | _ => mention "1001" "carol"
  end.

(** Three objects: the tweet 999 of bob, the tweet 1000 of carol, and a
    second object for the tweet 999 of bob. *)
Definition twin_objects (r : nat) : Tweet :=
  match r with
  | O => mention "999" "bob"
  | S O => mention "1000" "carol"
  | _ => mention "999" "bob"
  end.

(** Two tweets that reply to each other, and the lookup that knows both. *)
Definition ping : Tweet := reply_to "2002" "2001" "bob".
Definition pong : Tweet := reply_to "2001" "2002" "carol".

Definition cyclic_externals : Externals :=
  let e := calm_externals (fun _ => ping) [] in
  mkExternals (fetchSearchTweets e) (deref e) (ensureConnection e)
    (utils_buildConversationThread e) (generateTweetContent e) (cacheSet e)
    (cacheLatestCheckedTweetId e)
    (fun i => if bool_decide (i = "2001") then Ok (Some ping)
              else if bool_decide (i = "2002") then Ok (Some pong)
              else Ok None)
    (getMemoryById_error e) (createMemory_error e).

Definition cyclic_client : Client := fresh_client cyclic_externals (steady_world 0 0).

End Scenarios.

(* ===================================================================== *)
(** * Catalogs: concrete templates, managers and a small runtime *)
(* ===================================================================== *)

Module Catalogs.
Import TemplateManager Scenarios.

(** A runtime for the scenarios. It agrees with JavaScript on strings,
    booleans, [null], [undefined] and integers, and on patterns without
    metacharacters, which is all the scenarios use. *)
Definition demo_String (v : JsValue) : string :=
  match v with
  | JsUndefined => "undefined"
  | JsNull => "null"
  | JsBool true => "true"
  | JsBool false => "false"
  | JsString s => s
  | JsNumber (Finite q) => pretty (Qnum q / Z.pos (Qden q))
  | JsNumber NaN => "NaN"
  | JsNumber PosInfinity => "Infinity"
  | JsNumber NegInfinity => "-Infinity"
  | JsArray _ => EmptyString
  | JsObject _ => "[object Object]"
  end.

Definition demo_Number (v : JsValue) : JsNum :=
  match v with
  | JsUndefined => NaN
  | JsNull => Finite 0%Q
  | JsBool true => Finite 1%Q
  | JsBool false => Finite 0%Q
  | JsNumber n => n
  | JsString s =>
      match StringToBigInt s with
      | Some n => Finite (inject_Z n)
      | None => NaN
      end
  | JsArray _ | JsObject _ => NaN
  end.

#[export] Instance demo_runtime : Runtime :=
  {| js_String := demo_String;
     js_Number := demo_Number;
     RegExp_test := fun pattern s => Ok (includes s pattern) |}.

Definition never_template : TemplateVariation :=
  mkTemplate "never" None (Some 0%Q) "# never".
Definition always_template : TemplateVariation :=
  mkTemplate "always" None (Some 1%Q) "# always".

(** A group of two templates without conditions: probability 0, then
    probability 1. *)
Definition two_way_catalog : gmap string (list TemplateVariation) :=
  {[ "general" := [never_template; always_template] ]}.

Definition fresh_manager (catalog : gmap string (list TemplateVariation)) (w : World)
    : Manager :=
  mkManager w catalog [].

(** A template for questions from a busy thread, and one without
    conditions. *)
Definition question_template : TemplateVariation :=
  mkTemplate "question"
    (Some [mkCondition "currentPost" "contains" (CString "?");
           mkCondition "thread.length" "greaterThan" (CNumber (Finite 1%Q))])
    None "# question".
Definition plain_template : TemplateVariation :=
  mkTemplate "plain" None None "# plain".

Definition reply_catalog : gmap string (list TemplateVariation) :=
  {[ "reply" := [question_template; plain_template] ]}.

Definition busy_context : JsValue :=
  JsObject [("currentPost", JsString "wen moon?");
            ("thread", JsArray [JsString "a"; JsString "b"; JsString "c"])].

(** A table of [n] names ["t1"] ... ["tn"], the name [ti] last used at
    time [i], in order of first use. *)
Definition numbered_table (n : nat) : list (string * Z) :=
  (fun i : nat => ("t" +:+ pretty i, Z.of_nat i)) <$> seq 1 n.

End Catalogs.

(* ===================================================================== *)
(** * interactions.ts: the tracking maps and their sweep *)
(* ===================================================================== *)

Module Tracking.
Import Interactions.

(** [threadReplies.get(cv) || 0] *)
Definition thread_count_of (c : Client) (cv : string) : Z :=
  default 0 (threadReplies c !! cv).

(** The replies of a sequence that fall in the conversation [cv]. *)
Definition replies_in (cv : string) (calls : list (string * string)) : Z :=
  Z.of_nat (length (filter (fun call => call.2 = cv) calls)).

(** [maintains I m]: running [m] from a state where [I] holds leaves a
    state where [I] holds, whether [m] returns or throws. *)
Definition maintains {St A} (I : St -> Prop) (m : M St A) : Prop :=
  forall s, I s -> I (m s).2.

(** What the filters and the bookkeeping of a check work on. *)
Definition tracked (c : Client)
    : gmap string Z * gmap string Z * gmap string Z * InteractionLimits * option Z :=
  (recentReplies c, threadReplies c, lastReplyTime c, limits c, lastCheckedTweetId c).

(** The interaction client with the registry that [setSpecialInteractions]
    fills. *)
Record Tracker : Type := mkTracker {
  tr_client : Client;
  tr_registry : TwitterManager.Registry
}.

#[export] Instance Tracker_world : HasWorld Tracker :=
  {| world_of := fun t => world (tr_client t);
     with_world := fun w t => mkTracker (set_world w (tr_client t)) (tr_registry t) |}.

(** [TwitterInteractionClient.setSpecialInteractions] *)
Definition setSpecialInteractions
    (interactions : gmap string TwitterManager.SpecialInteraction) (t : Tracker) : Tracker :=
  mkTracker (tr_client t) (TwitterManager.setSpecialInteractions interactions (tr_registry t)).

(** The body of the loop over [this.lastReplyTime]. *)
Definition sweep_user (oneDayAgo : Z) (c : Client) (entry : string * Z) : Client :=
  if entry.2 <? oneDayAgo
  then set_recentReplies (delete entry.1 (recentReplies c))
         (set_lastReplyTime (delete entry.1 (lastReplyTime c)) c)
  else c.

(** The body of the loop [for (const key in this.lastSpecialInteraction)]. *)
Definition sweep_special (oneDayAgo : Z) (last : gmap string Z) (key : string)
    : gmap string Z :=
  match last !! key with
  | Some timestamp => if timestamp <? oneDayAgo then delete key last else last
  | None => last
  end.

Definition cleanupTrackingMaps : M Tracker unit :=
  now ← Date_now;
  let oneDayAgo := now - 24 * 60 * 60 * 1000 in
  modify (fun t =>
    mkTracker (foldl (sweep_user oneDayAgo) (tr_client t)
                 (map_to_list (lastReplyTime (tr_client t))))
      (tr_registry t));;
  modify (fun t => mkTracker (set_threadReplies ∅ (tr_client t)) (tr_registry t));;
  modify (fun t =>
    let last := TwitterManager.lastSpecialInteraction (tr_registry t) in
    mkTracker (tr_client t)
      (TwitterManager.mkRegistry (TwitterManager.specialInteractions (tr_registry t))
         (foldl (sweep_special oneDayAgo) last (map_to_list last).*1))).

(** A tracker that holds replies to alice (long ago) and to bob (just
    now), one open thread, and two registered special interactions. *)
Definition day : Z := 24 * 60 * 60 * 1000.

Definition busy_tracker : Tracker :=
  let c := Scenarios.fresh_client
             (Scenarios.calm_externals (fun _ => Scenarios.mention "1" "alice") [])
             (Scenarios.steady_world 0 (3 * day)) in
  mkTracker
    (set_recentReplies {[ "alice" := 5; "bob" := 1 ]}
       (set_lastReplyTime {[ "alice" := day; "bob" := 3 * day - 1000 ]}
          (set_threadReplies {[ "conv" := 2 ]} c)))
    (TwitterManager.mkRegistry ∅ {[ "vitalik" := 0; "later" := 3 * day ]}).

(** Three replies in the conversation ["c1"]. *)
Definition thread_replies : list (string * string) :=
  [("alice", "c1"); ("bob", "c1"); ("carol", "c2"); ("dave", "c1")].

End Tracking.

(* ===================================================================== *)
(** * template-manager.ts: states reached during a selection *)
(* ===================================================================== *)

Module Cooldown.
Import TemplateManager.

(** The 5-minute cooldown of [isTemplateOnCooldown]. *)
Definition cooldown_ms : Z := 5 * 60 * 1000.

(** [m1] is a state that a selection started in [m] can be in while it
    filters and shuffles: same catalog, same cooldown table, same clock,
    read no earlier. *)
Definition reached_from (m m1 : Manager) : Prop :=
  templates m1 = templates m
  /\ lastTemplateUse m1 = lastTemplateUse m
  /\ clock_src (tm_world m1) = clock_src (tm_world m)
  /\ (clock_pos (tm_world m) <= clock_pos (tm_world m1))%nat.

(** What [trackTemplateUse] makes of the table when the clock reads [now]. *)
Definition stamped_table (name : string) (now : Z) (table : list (string * Z))
    : list (string * Z) :=
  let stamped := Map_set name now table in
  if 100 <? Map_size stamped then evict stamped else stamped.

(** A manager, one million milliseconds in, that used ["question"] long
    ago and ["plain"] a second ago. *)
Definition rested_manager : Manager :=
  mkManager (Scenarios.steady_world (1 # 4) 1000000) Catalogs.reply_catalog
    [("question", 1000); ("plain", 999000)].

(** The same manager when both templates were last used long ago. *)
Definition idle_manager : Manager :=
  mkManager (Scenarios.steady_world (1 # 4) 1000000) Catalogs.reply_catalog
    [("question", 1000); ("plain", 2000)].

End Cooldown.

(* ===================================================================== *)
(** * template-manager.ts: [ContentFormatter] and [formatTweet] *)
(* ===================================================================== *)

Module ContentFormatter.

(** ** [formatText] *)

(** [s.replace(/\s+/g, ' ')]: every maximal run of white space becomes one
    space. Below 256 the class [\s] is the white space of [trim]. *)
Fixpoint replace_white_runs_from (in_run : bool) (s : string) : string :=
  match s with
  | EmptyString => EmptyString
  | String a rest =>
      if is_white_space a then
        if in_run then replace_white_runs_from true rest
        else String " " (replace_white_runs_from true rest)
      else String a (replace_white_runs_from false rest)
  end.

Definition replace_white_runs (s : string) : string := replace_white_runs_from false s.

Definition is_line_break (a : ascii) : bool :=
  let n := N_of_ascii a in (n =? 10)%N || (n =? 13)%N.

(** [s.replace(/[\r\n]+/g, '\n')] *)
Fixpoint replace_break_runs_from (in_run : bool) (s : string) : string :=
  match s with
  | EmptyString => EmptyString
  | String a rest =>
      if is_line_break a then
        if in_run then replace_break_runs_from true rest
        else String "010" (replace_break_runs_from true rest)
      else String a (replace_break_runs_from false rest)
  end.

Definition replace_break_runs (s : string) : string := replace_break_runs_from false s.

Definition formatText (text : string) : string :=
  trim (replace_break_runs (replace_white_runs text)).

(** A text in which white space only occurs as single spaces between
    other characters. [after_space] tells that the previous character was
    a space (or that the text starts here). *)
Fixpoint single_spaced (after_space : bool) (s : string) : bool :=
  match s with
  | EmptyString => true
  | String a rest =>
      if is_white_space a
      then Ascii.eqb a " " && negb after_space && single_spaced true rest
      else single_spaced false rest
  end.

Definition tidy (s : string) : Prop := single_spaced true s = true /\ trimEnd s = s.

(** ** Hashtags and emojis *)

Record HashtagConfig : Type := mkHashtagConfig {
  hashtags_enabled : bool;
  maxHashtagsPerTweet : Z;
  hashtagProbability : Q;
  preferredHashtags : list string;
  distributeHashtags : bool
}.

Record EmojiConfig : Type := mkEmojiConfig {
  emojis_enabled : bool;
  maxEmojisPerTweet : Z;
  emojiProbability : Q;
  allowedEmojis : list string;
  distributeEmojis : bool
}.

Record Formatter : Type := mkFormatter {
  fmt_world : World;
  hashtags : HashtagConfig;              (* config.style.hashtags *)
  emojis : EmojiConfig;                  (* config.style.emojis *)
  recentlyUsedHashtags : gset string;
  recentlyUsedEmojis : gset string
}.

Definition set_recentlyUsedHashtags (used : gset string) (f : Formatter) : Formatter :=
  mkFormatter (fmt_world f) (hashtags f) (emojis f) used (recentlyUsedEmojis f).
Definition set_recentlyUsedEmojis (used : gset string) (f : Formatter) : Formatter :=
  mkFormatter (fmt_world f) (hashtags f) (emojis f) (recentlyUsedHashtags f) used.

#[export] Instance Formatter_world : HasWorld Formatter :=
  {| world_of := fmt_world;
     with_world := fun w f =>
       mkFormatter w (hashtags f) (emojis f) (recentlyUsedHashtags f)
         (recentlyUsedEmojis f) |}.

(** [Math.floor(Math.random() * n)] for an integer [n]. The product is
    taken exactly. *)
Definition random_below (n : Z) : M Formatter Z :=
  r ← Math_random;
  mret (Qfloor (r * inject_Z n)).

(** [[a[i], a[j]] = [a[j], a[i]]] for indices within the array. A draw in
    the unit interval keeps [j] within the array; for other indices, which
    would make JavaScript store [undefined], the array is left as it is. *)
Definition swap {A} (i : nat) (j : Z) (a : list A) : list A :=
  if j <? 0 then a
  else match a !! i, a !! Z.to_nat j with
       | Some x, Some y => <[Z.to_nat j := x]> (<[i := y]> a)
       | _, _ => a
       end.

(** The loop of [shuffleArray], from index [i] down to 1. *)
Fixpoint shuffle_down {A} (i : nat) (shuffled : list A) : M Formatter (list A) :=
  match i with
  | O => mret shuffled
  | S i' =>
      j ← random_below (Z.of_nat i + 1);
      shuffle_down i' (swap i j shuffled)
  end.

Definition shuffleArray {A} (array : list A) : M Formatter (list A) :=
  shuffle_down (length array - 1) array.

(** [array.slice(0, e)] *)
Definition Array_slice0 {A} (a : list A) (e : Z) : list A :=
  let len := Z.of_nat (length a) in
  take (Z.to_nat (if e <? 0 then Z.max (len + e) 0 else Z.min e len)) a.

(** [getHashtags] and [getEmojis] have the same body, up to the part of
    the configuration and the set of recent uses they work on. *)
Section Select.
Context (enabled : bool) (probability : Q) (candidates : list string)
        (distribute : bool) (maxPerTweet : Z)
        (recent : Formatter -> gset string)
        (set_recent : gset string -> Formatter -> Formatter).

(** The callback of [selected.forEach]. *)
Definition track_use (item : string) : M Formatter unit :=
  modify (fun f => set_recent ({[ item ]} ∪ recent f) f);;
  used ← gets recent;
  if 20 <? Z.of_nat (size used) then modify (set_recent ∅) else mret tt.

Definition select_fresh : M Formatter (list string) :=
  skip ← (if negb enabled then mret true
          else (r ← Math_random; mret (Qltb probability r)));
  if skip : bool then mret []
  else
    used ← gets recent;
    let available := filter (fun item => item ∉ used) candidates in
    match available with
    | [] => modify (set_recent ∅);; mret []
    | _ =>
        maxItems ← (if distribute then random_below (maxPerTweet + 1)
                    else mret maxPerTweet);
        shuffled ← shuffleArray available;
        let selected := Array_slice0 shuffled maxItems in
        for_of selected track_use;;
        mret selected
    end.
End Select.

Definition getHashtags : M Formatter (list string) :=
  config ← gets hashtags;
  select_fresh (hashtags_enabled config) (hashtagProbability config)
    (preferredHashtags config) (distributeHashtags config) (maxHashtagsPerTweet config)
    recentlyUsedHashtags set_recentlyUsedHashtags.

Definition getEmojis : M Formatter (list string) :=
  config ← gets emojis;
  select_fresh (emojis_enabled config) (emojiProbability config)
    (allowedEmojis config) (distributeEmojis config) (maxEmojisPerTweet config)
    recentlyUsedEmojis set_recentlyUsedEmojis.

(** ** [TwitterTemplateManager.formatTweet] *)

(** [parts.join(sep)] *)
Fixpoint join (sep : string) (parts : list string) : string :=
  match parts with
  | [] => EmptyString
  | [part] => part
  | part :: rest => part +:+ sep +:+ join sep rest
  end.

Definition formatTweet (tweet : string) : M Formatter string :=
  hashtags ← getHashtags;
  emojis ← getEmojis;
  let tweetContent := formatText tweet in
  let hashtagString := join " " ((fun tag => "#" +:+ tag) <$> hashtags) in
  let emojiString := join " " emojis in
  mret (trim (join " " (filter (fun str => str <> EmptyString)
                          [tweetContent; emojiString; hashtagString]))).

(** A formatter with five preferred hashtags, two of them used recently,
    that always adds hashtags, and with emojis switched off. *)
Definition demo_formatter (w : World) : Formatter :=
  mkFormatter w
    (mkHashtagConfig true 2 1 ["gm"; "wagmi"; "moon"; "hodl"; "lfg"] false)
    (mkEmojiConfig false 1 1 ["*"; "+"] false)
    {[ "gm"; "moon" ]} ∅.

(** A formatter with hashtags and emojis switched off. *)
Definition plain_formatter (w : World) : Formatter :=
  mkFormatter w
    (mkHashtagConfig false 2 1 ["gm"] false)
    (mkEmojiConfig false 1 1 ["*"] false)
    ∅ ∅.

End ContentFormatter.

(* ===================================================================== *)
(** * template-enhanced-client.ts: the choice of a template type *)
(* ===================================================================== *)

Module EnhancedClient.
Import Interactions.

(** [s.toLowerCase()] on code units below 256: the letters A to Z and the
    capital letters of Latin-1 (all of 192 to 222 but the sign at 215). *)
Definition toLowerCase_unit (a : ascii) : ascii :=
  let n := N_of_ascii a in
  if ((65 <=? n)%N && (n <=? 90)%N)
     || ((192 <=? n)%N && (n <=? 222)%N && negb (n =? 215)%N)
  then ascii_of_N (n + 32)
  else a.

Fixpoint toLowerCase (s : string) : string :=
  match s with
  | EmptyString => EmptyString
  | String a rest => String (toLowerCase_unit a) (toLowerCase rest)
  end.

Definition includes := TemplateManager.includes.
Definition is_prefix := TemplateManager.is_prefix.

(** [new Set(thread.map(t => t.userId)).size] *)
Definition uniqueUsers (thread : list Tweet) : gset string :=
  list_to_set (userId <$> thread).

Definition detectDebate (thread : list Tweet) : bool :=
  (4 <=? Z.of_nat (length thread)) && (Z.of_nat (size (uniqueUsers thread)) <=? 3).

Definition criticismPatterns : list string :=
  ["fake"; "scam"; "ponzi"; "worthless"; "garbage";
   "waste"; "stupid"; "bad"; "awful"; "terrible"].

Definition detectCriticism (content : string) : bool :=
  existsb (includes content) criticismPatterns.

(** ** The pattern [/when.*moon|price|pump/i] *)

(** The letters of the pattern are ASCII, so the flag [i] only folds the
    letters A to Z of the subject. *)
Definition fold_case_unit (a : ascii) : ascii :=
  let n := N_of_ascii a in
  if (65 <=? n)%N && (n <=? 90)%N then ascii_of_N (n + 32) else a.

Fixpoint fold_case (s : string) : string :=
  match s with
  | EmptyString => EmptyString
  | String a rest => String (fold_case_unit a) (fold_case rest)
  end.

(** [.] matches any code unit but a line terminator. *)
Definition is_line_terminator (a : ascii) : bool :=
  let n := N_of_ascii a in (n =? 10)%N || (n =? 13)%N.

Fixpoint rest_of_line (s : string) : string :=
  match s with
  | EmptyString => EmptyString
  | String a rest => if is_line_terminator a then EmptyString else String a (rest_of_line rest)
  end.

(** [when.*moon]: an occurrence of "when" followed, before the line ends,
    by an occurrence of "moon". *)
Fixpoint when_moon (s : string) : bool :=
  match s with
  | EmptyString => false
  | String _ rest =>
      (is_prefix "when" s
       && includes (rest_of_line (String.substring 4 (String.length s - 4) s)) "moon")
      || when_moon rest
  end.

Definition matches_prophecy (content : string) : bool :=
  let subject := fold_case content in
  when_moon subject || includes subject "price" || includes subject "pump".

(** [context.currentPost] and [context.thread] may be missing. *)
Definition analyzeResponseType (currentPost : option string)
    (thread : option (list Tweet)) : option string :=
  let content := match currentPost with
                 | Some post => toLowerCase post
                 | None => EmptyString
                 end in
  let thread := default [] thread in
  if 3 <? Z.of_nat (length thread) then Some "conversation"
  else if includes content "?" then Some "question"
  else if detectDebate thread then Some "debate"
  else if detectCriticism content then Some "defense"
  else if includes content "unbeliever" then Some "roast"
  else if includes content "believe" then Some "recruitment"
  else if matches_prophecy content then Some "prophecy"
  else None.

(** [hour] is what [new Date().getHours()] answers, an integer. *)
Definition getTimeBasedTemplateType (hour : Z) : string :=
  if (20 <=? hour) || (hour <=? 4) then "prophecy"
  else if (5 <=? hour) && (hour <=? 9) then "motivation"
  else if (10 <=? hour) && (hour <=? 16) then "engagement"
  else if (17 <=? hour) && (hour <=? 19) then "recruitment"
  else "general".

(** [if (x) return x] on a string or [null]: the empty string is falsy. *)
Definition truthy (x : option string) : option string :=
  match x with
  | Some s => if bool_decide (s = EmptyString) then None else Some s
  | None => None
  end.

(** [selectTemplateByContent], which looks at the phase of the moon, is
    only called when the two other sources give nothing; its answer is
    [byContent]. *)
Definition determineTemplateType (isReply : bool) (currentPost : option string)
    (thread : option (list Tweet)) (hour : Z) (byContent : string) : string :=
  match (if isReply then truthy (analyzeResponseType currentPost thread) else None) with
  | Some responseType => responseType
  | None =>
      match truthy (Some (getTimeBasedTemplateType hour)) with
      | Some timeBasedType => timeBasedType
      | None => byContent
      end
  end.

(** ** [generateTweetContent]: the cache of recent content *)

(** The key [JSON.stringify({isReply, currentPost: currentPost?.slice(0, 50)})]:
    two contexts have the same key exactly when they agree on [isReply]
    and on the first 50 code units of [currentPost], a missing field being
    left out of the text. *)
Record GenContext : Type := mkGenContext {
  ctx_isReply : bool;
  ctx_currentPost : option string
}.

Definition dedupeKey (context : GenContext) : bool * option string :=
  (ctx_isReply context, (fun post => slice0 post 50) <$> ctx_currentPost context).

(** The client: what it caches, and [rest], the state of everything it
    calls (template manager, formatter, runtime, model), which holds the
    world. *)
Record Generator (R : Type) : Type := mkGenerator {
  gen_rest : R;
  lastGeneratedContent : gmap (bool * option string) (Z * string)
}.
Arguments mkGenerator {R} gen_rest lastGeneratedContent.
Arguments gen_rest {R} g.
Arguments lastGeneratedContent {R} g.

Section Generate.
Context {R : Type} `{HasWorld R}.

#[export] Instance Generator_world : HasWorld (Generator R) :=
  {| world_of := fun g => world_of (gen_rest g);
     with_world := fun w g =>
       mkGenerator (with_world w (gen_rest g)) (lastGeneratedContent g) |}.

(** A method of the collaborators: it works on their state only. *)
Definition in_rest {A} (m : M R A) : M (Generator R) A := fun g =>
  let '(r, rest) := m (gen_rest g) in (r, mkGenerator rest (lastGeneratedContent g)).

(** The calls that [generateTweetContent] makes on the way to fresh
    content. *)
Context (templateTypeFor : GenContext -> M R string)     (* this.determineTemplateType *)
        (getEnhancedTemplate : string -> GenContext -> M R string)
        (shouldRespond : GenContext -> M R string)
        (generateFromTemplate : string -> GenContext -> M R string)
        (formatTweet : string -> M R string).

Definition generateTweetContent (context : GenContext) : M (Generator R) string :=
  try_catch
    (let key := dedupeKey context in
     lastGenerated ← gets (fun g => lastGeneratedContent g !! key);
     recent ← match lastGenerated with
              | Some (timestamp, _) => (now ← Date_now; mret (now - timestamp <? 60000))
              | None => mret false
              end;
     match lastGenerated, recent with
     | Some (_, content), true =>
         elizaLogger LDebug "Using recently generated content to avoid duplication";;
         mret content
     | _, _ =>
         templateType ← in_rest (templateTypeFor context);
         template ← in_rest (getEnhancedTemplate templateType context);
         declined ← (if ctx_isReply context
                     then (answer ← in_rest (shouldRespond context);
                           mret (negb (bool_decide (answer = "RESPOND"))))
                     else mret false);
         if declined : bool then mret EmptyString
         else
           generatedContent ← in_rest (generateFromTemplate template context);
           formattedContent ← in_rest (formatTweet generatedContent);
           now ← Date_now;
           modify (fun g => mkGenerator (gen_rest g)
                              (<[key := (now, formattedContent)]> (lastGeneratedContent g)));;
           mret formattedContent
     end)
    (fun error =>
       elizaLogger LError "Error generating tweet content:";;
       throw error).
End Generate.

(** Tweets of a small thread, and collaborators for the scenarios: the
    model answers with the template it is given. *)
Definition short_thread : list Tweet :=
  [Scenarios.mention "1" "alice"; Scenarios.mention "2" "bob"].

Definition long_thread : list Tweet :=
  [Scenarios.mention "1" "alice"; Scenarios.mention "2" "bob";
   Scenarios.mention "3" "alice"; Scenarios.mention "4" "bob"].

Definition echo_generator (w : World) : Generator World := mkGenerator w ∅.

#[export] Instance World_world : HasWorld World :=
  {| world_of := fun w => w; with_world := fun w _ => w |}.

End EnhancedClient.

(* ===================================================================== *)
(** * post.ts: [TwitterPostClient] *)
(* ===================================================================== *)

Module PostClient.
Import Post.

Record PostSchedule : Type := mkSchedule {
  minMinutes : Z;
  maxMinutes : Z;
  lastPostTime : Z
}.

Record PostResponse : Type := mkResponse {
  content : string;
  isSpecialInteraction : bool
}.

(** [body.data.create_tweet.tweet_results.result], as far as it is used. *)
Record TweetResult : Type := mkTweetResult {
  rest_id : string;
  full_text : string;
  conversation_id_str : string
}.

(** Collaborators outside the plugin sources; [Some e] / [Throw e] is a
    rejected promise or a thrown exception. *)
Record PostExternals : Type := mkPostExternals {
  (* runtime.cacheManager.get of the last post: its timestamp, if any *)
  getLastPost : outcome (option Z);
  (* client.generateTweetContent, by number of the call *)
  client_generateTweetContent : nat -> outcome string;
  (* client.requestQueue.add(() => twitterClient.sendTweet(content)) *)
  sendTweet_error : string -> option JsError;
  (* result.json() and the path down to tweet_results.result and legacy *)
  read_result : string -> outcome TweetResult;
  (* runtime.ensureRoomExists, ensureParticipantInRoom, messageManager.createMemory *)
  ensureRoomExists_error : string -> option JsError;
  ensureParticipantInRoom_error : string -> option JsError;
  createMemory_error : string -> option JsError;
  (* client.getCachedTimeline, cacheTimeline, cacheTweet, cacheManager.set *)
  getCachedTimeline_error : option JsError;
  cacheTimeline_error : string -> option JsError;
  cacheTweet_error : string -> option JsError;
  cacheLastPost_error : string -> option JsError
}.

Record Client : Type := mkClient {
  ext : PostExternals;
  agentId : string;                         (* runtime.agentId *)
  TWITTER_DRY_RUN : option string;          (* runtime.getSetting("TWITTER_DRY_RUN") *)
  TWITTER_USERNAME : string;                (* the same setting, as it prints *)
  (* parseBooleanFromText(runtime.getSetting("POST_IMMEDIATELY")) *)
  POST_IMMEDIATELY : bool;
  world : World;
  schedule : PostSchedule;
  isPosting : bool;
  generated : nat;                          (* calls of client.generateTweetContent *)
  sent : list string;                       (* texts that sendTweet has posted *)
  memories : gset string;                   (* ids held by runtime.messageManager *)
  timers : list Z                           (* delays of pending setTimeout calls *)
}.

Definition set_world (w : World) (c : Client) : Client :=
  mkClient (ext c) (agentId c) (TWITTER_DRY_RUN c) (TWITTER_USERNAME c)
    (POST_IMMEDIATELY c) w (schedule c) (isPosting c)
    (generated c) (sent c) (memories c) (timers c).
Definition set_schedule (s : PostSchedule) (c : Client) : Client :=
  mkClient (ext c) (agentId c) (TWITTER_DRY_RUN c) (TWITTER_USERNAME c)
    (POST_IMMEDIATELY c) (world c) s (isPosting c)
    (generated c) (sent c) (memories c) (timers c).
Definition set_isPosting (b : bool) (c : Client) : Client :=
  mkClient (ext c) (agentId c) (TWITTER_DRY_RUN c) (TWITTER_USERNAME c)
    (POST_IMMEDIATELY c) (world c) (schedule c) b
    (generated c) (sent c) (memories c) (timers c).
Definition set_generated (n : nat) (c : Client) : Client :=
  mkClient (ext c) (agentId c) (TWITTER_DRY_RUN c) (TWITTER_USERNAME c)
    (POST_IMMEDIATELY c) (world c) (schedule c) (isPosting c)
    n (sent c) (memories c) (timers c).
Definition set_sent (texts : list string) (c : Client) : Client :=
  mkClient (ext c) (agentId c) (TWITTER_DRY_RUN c) (TWITTER_USERNAME c)
    (POST_IMMEDIATELY c) (world c) (schedule c) (isPosting c)
    (generated c) texts (memories c) (timers c).
Definition set_memories (ms : gset string) (c : Client) : Client :=
  mkClient (ext c) (agentId c) (TWITTER_DRY_RUN c) (TWITTER_USERNAME c)
    (POST_IMMEDIATELY c) (world c) (schedule c) (isPosting c)
    (generated c) (sent c) ms (timers c).
Definition set_timers (ts : list Z) (c : Client) : Client :=
  mkClient (ext c) (agentId c) (TWITTER_DRY_RUN c) (TWITTER_USERNAME c)
    (POST_IMMEDIATELY c) (world c) (schedule c) (isPosting c)
    (generated c) (sent c) (memories c) ts.

#[export] Instance Client_world : HasWorld Client :=
  {| world_of := world; with_world := set_world |}.

(** The [permanentUrl] that [createTweetObject] gives the tweet. *)
Definition permanentUrl (c : Client) (tweet : TweetResult) : string :=
  "https://twitter.com/" +:+ TWITTER_USERNAME c +:+ "/status/" +:+ rest_id tweet.

Definition generateTweetContent : M Client PostResponse :=
  try_catch
    (n ← gets generated;
     modify (set_generated (S n));;
     answer ← gets (fun c => client_generateTweetContent (ext c) n);
     text ← await answer;
     mret (mkResponse (truncateToCompleteSentence text) false))
    (fun error =>
       elizaLogger LError "Error generating tweet content:";;
       throw error).

Definition createMemoryForTweet (tweet : TweetResult) : M Client unit :=
  c ← gets (fun c => c);
  let roomId := Interactions.memory_key (conversation_id_str tweet) (agentId c) in
  await_unit (ensureRoomExists_error (ext c) roomId);;
  await_unit (ensureParticipantInRoom_error (ext c) roomId);;
  let key := Interactions.memory_key (rest_id tweet) (agentId c) in
  await_unit (createMemory_error (ext c) key);;
  modify (fun c => set_memories ({[ key ]} ∪ memories c) c).

Definition sendTweetAndCreateMemory (tweetResponse : PostResponse) : M Client TweetResult :=
  c ← gets (fun c => c);
  await_unit (sendTweet_error (ext c) (content tweetResponse));;
  modify (fun c => set_sent (sent c ++ [content tweetResponse]) c);;
  tweet ← await (read_result (ext c) (content tweetResponse));
  createMemoryForTweet tweet;;
  mret tweet.

Definition updateCaches (tweet : TweetResult) : M Client unit :=
  c ← gets (fun c => c);
  await_unit (getCachedTimeline_error (ext c));;
  await_unit (cacheTimeline_error (ext c) (rest_id tweet));;
  await_unit (cacheTweet_error (ext c) (rest_id tweet));;
  timestamp ← Date_now;
  await_unit (cacheLastPost_error (ext c) (rest_id tweet));;
  modify (fun c => set_schedule
                     (mkSchedule (minMinutes (schedule c)) (maxMinutes (schedule c)) timestamp)
                     c).

Definition postTweet (tweetResponse : PostResponse) : M Client unit :=
  if bool_decide (content tweetResponse = EmptyString) then
    elizaLogger LWarn "No content generated for tweet"
  else
    dry ← gets TWITTER_DRY_RUN;
    if bool_decide (dry = Some "true") then
      elizaLogger LInfo ("Dry run: would have posted tweet: " +:+ content tweetResponse)
    else
      try_catch
        (tweet ← sendTweetAndCreateMemory tweetResponse;
         updateCaches tweet;;
         url ← gets (fun c => permanentUrl c tweet);
         elizaLogger LLog ("Tweet posted: " +:+ url))
        (fun error =>
           elizaLogger LError "Error posting tweet:";;
           throw error).

(** Every collaborator that [postTweet] calls for the text [posted]
    answers: the tweet is sent, its result reads as [tweet], its memory is
    created and the three caches are written. *)
Definition post_goes_through (c : Client) (posted : string) (tweet : TweetResult) : Prop :=
  let roomId := Interactions.memory_key (conversation_id_str tweet) (agentId c) in
  sendTweet_error (ext c) posted = None
  /\ read_result (ext c) posted = Ok tweet
  /\ ensureRoomExists_error (ext c) roomId = None
  /\ ensureParticipantInRoom_error (ext c) roomId = None
  /\ createMemory_error (ext c) (Interactions.memory_key (rest_id tweet) (agentId c)) = None
  /\ getCachedTimeline_error (ext c) = None
  /\ cacheTimeline_error (ext c) (rest_id tweet) = None
  /\ cacheTweet_error (ext c) (rest_id tweet) = None
  /\ cacheLastPost_error (ext c) (rest_id tweet) = None.

(** [try { body } finally { cleanup }], for a cleanup that cannot fail. *)
Definition try_finally {A} (body : M Client A) (cleanup : Client -> Client) : M Client A :=
  fun c => let '(r, c') := body c in (r, cleanup c').

Definition generateNewTweet : M Client unit :=
  busy ← gets isPosting;
  if busy : bool then
    elizaLogger LLog "Tweet generation already in progress, skipping"
  else
    modify (set_isPosting true);;
    elizaLogger LLog "Generating new tweet";;
    try_finally
      (try_catch
         (tweetResponse ← generateTweetContent;
          postTweet tweetResponse)
         (fun error => elizaLogger LError "Error generating or posting tweet:"))
      (set_isPosting false).

(** [Math.floor(Math.random() * n)] for an integer [n]; the product is
    taken exactly. *)
Definition random_below (n : Z) : M Client Z :=
  r ← Math_random;
  mret (Qfloor (r * inject_Z n)).

(** One turn of [generateNewTweetLoop]. *)
Definition generateNewTweetLoop : M Client unit :=
  try_catch
    (now ← Date_now;
     s ← gets schedule;
     let timeSinceLastPost := now - lastPostTime s in
     k ← random_below (maxMinutes s - minMinutes s + 1);
     let randomMinutes := k + minMinutes s in
     let delay := randomMinutes * 60 * 1000 in
     busy ← gets isPosting;
     (if (delay <=? timeSinceLastPost) && negb busy then generateNewTweet else mret tt);;
     modify (fun c => set_timers (timers c ++ [delay]) c);;
     elizaLogger LLog ("Next tweet scheduled in " +:+ pretty randomMinutes +:+ " minutes"))
    (fun error =>
       elizaLogger LError "Error in tweet generation loop:";;
       modify (fun c => set_timers (timers c ++ [5 * 60 * 1000]) c)).

(** [this.schedule.lastPostTime = lastPost?.timestamp ?? 0] *)
Definition initializePostSchedule : M Client unit :=
  answer ← gets (fun c => getLastPost (ext c));
  lastPost ← await answer;
  modify (fun c => set_schedule
                     (mkSchedule (minMinutes (schedule c)) (maxMinutes (schedule c))
                        (default 0 lastPost)) c).

(** What is left of a turn of [generateNewTweetLoop] that was started and
    not awaited: nothing, or a generation that waits for the model's answer
    to the call number [call], with the delay the turn has drawn. *)
Inductive Turn : Type :=
  | TurnDone
  | TurnPending (delay randomMinutes : Z) (call : nat).

Definition pending (turn : Turn) : bool :=
  match turn with
  | TurnDone => false
  | TurnPending _ _ _ => true
  end.

(** [generateNewTweet], for a client that is not posting, as far as its
    first [await]: the flag is set, a line is logged, and
    [client.generateTweetContent] has been called. *)
Definition generateNewTweet_begin : M Client nat :=
  modify (set_isPosting true);;
  elizaLogger LLog "Generating new tweet";;
  n ← gets generated;
  modify (set_generated (S n));;
  mret n.

(** What follows once the model has answered the call number [n]. *)
Definition generateNewTweet_resume (n : nat) : M Client unit :=
  try_finally
    (try_catch
       (tweetResponse ←
          try_catch
            (answer ← gets (fun c => client_generateTweetContent (ext c) n);
             text ← await answer;
             mret (mkResponse (truncateToCompleteSentence text) false))
            (fun error =>
               elizaLogger LError "Error generating tweet content:";;
               throw error);
        postTweet tweetResponse)
       (fun error => elizaLogger LError "Error generating or posting tweet:"))
    (set_isPosting false).

(** A turn of [generateNewTweetLoop] as far as its first [await]. A turn
    that does not post has none and is complete; a turn that posts is left
    waiting in [generateNewTweet]. *)
Definition generateNewTweetLoop_begin : M Client Turn :=
  now ← Date_now;
  s ← gets schedule;
  let timeSinceLastPost := now - lastPostTime s in
  k ← random_below (maxMinutes s - minMinutes s + 1);
  let randomMinutes := k + minMinutes s in
  let delay := randomMinutes * 60 * 1000 in
  busy ← gets isPosting;
  if (delay <=? timeSinceLastPost) && negb busy then
    n ← generateNewTweet_begin;
    mret (TurnPending delay randomMinutes n)
  else
    modify (fun c => set_timers (timers c ++ [delay]) c);;
    elizaLogger LLog ("Next tweet scheduled in " +:+ pretty randomMinutes +:+ " minutes");;
    mret TurnDone.

(** The rest of a turn that was left waiting. *)
Definition generateNewTweetLoop_resume (turn : Turn) : M Client unit :=
  match turn with
  | TurnDone => mret tt
  | TurnPending delay randomMinutes n =>
      try_catch
        (generateNewTweet_resume n;;
         modify (fun c => set_timers (timers c ++ [delay]) c);;
         elizaLogger LLog ("Next tweet scheduled in " +:+ pretty randomMinutes +:+ " minutes"))
        (fun error =>
           elizaLogger LError "Error in tweet generation loop:";;
           modify (fun c => set_timers (timers c ++ [5 * 60 * 1000]) c))
  end.

(** [generateNewTweetLoop()] is called, not awaited: [startPostingLoop]
    returns when the first turn of the loop reaches its first [await] or
    its end. The value returned stands for what is left of that turn. *)
Definition startPostingLoop (postImmediately : bool) : M Client Turn :=
  setting ← gets POST_IMMEDIATELY;
  (if postImmediately || setting then generateNewTweet else mret tt);;
  generateNewTweetLoop_begin.

Definition start (postImmediately : bool) : M Client Turn :=
  try_catch
    (initializePostSchedule;;
     startPostingLoop postImmediately)
    (fun error =>
       elizaLogger LError "Error starting post client:";;
       throw error).

(** A client that posts "gm" and whose collaborators always succeed. *)
Definition calm_externals : PostExternals :=
  mkPostExternals (Ok None) (fun _ => Ok "gm") (fun _ => None)
    (fun text => Ok (mkTweetResult "7001" text "7001"))
    (fun _ => None) (fun _ => None) (fun _ => None) None
    (fun _ => None) (fun _ => None) (fun _ => None).

(** The same, except that the cache of the last post cannot be written. *)
Definition forgetful_externals : PostExternals :=
  mkPostExternals (Ok None) (fun _ => Ok "gm") (fun _ => None)
    (fun text => Ok (mkTweetResult "7001" text "7001"))
    (fun _ => None) (fun _ => None) (fun _ => None) None
    (fun _ => None) (fun _ => None) (fun _ => Some (ExternalError "cache down")).

Definition fresh_client (e : PostExternals) (dry : option string) (w : World) : Client :=
  mkClient e "agent" dry "prophet" false w (mkSchedule 90 180 0) false 0 [] ∅ [].

(** Collaborators whose cache of the last post cannot be read. *)
Definition cacheless_externals : PostExternals :=
  mkPostExternals (Throw (ExternalError "cache down")) (fun _ => Ok "gm") (fun _ => None)
    (fun text => Ok (mkTweetResult "7001" text "7001"))
    (fun _ => None) (fun _ => None) (fun _ => None) None
    (fun _ => None) (fun _ => None) (fun _ => None).

End PostClient.

(* ===================================================================== *)
(** * Settings: [parseInt(runtime.getSetting(...)) || fallback] *)
(* ===================================================================== *)

Module Settings.

(** The longest prefix of digits of the radix, as a number; [None] when
    there is none. [seen] tells that a digit has been read. *)
Fixpoint leading_digits (radix : Z) (s : string) (acc : Z) (seen : bool) : option Z :=
  let stop := if seen then Some acc else None in
  match s with
  | EmptyString => stop
  | String a rest =>
      match digit_value a with
      | Some d => if d <? radix then leading_digits radix rest (acc * radix + d) true else stop
      | None => stop
      end
  end.

(** [parseInt(v)] without a radix, for [v] a string or a missing setting
    ([null], which reads as "null"); [None] is [NaN]. Leading white space
    is skipped, a sign and a prefix [0x] are honoured, what follows the
    digits is ignored. Integers are exact. *)
Definition parseInt (v : option string) : option Z :=
  match v with
  | None => None
  | Some inputString =>
      let trimmed := trimStart inputString in
      let '(sign, unsigned) := match trimmed with
                               | String "-" rest => (-1, rest)
                               | String "+" rest => (1, rest)
                               | _ => (1, trimmed)
                               end in
      let '(radix, digits) := match unsigned with
                              | String "0" (String "x" rest)
                              | String "0" (String "X" rest) => (16, rest)
                              | _ => (10, unsigned)
                              end in
      (fun n => sign * n) <$> leading_digits radix digits 0 false
  end.

(** [parseInt(v) || fallback]: [NaN] and 0 are falsy. *)
Definition int_setting (v : option string) (fallback : Z) : Z :=
  match parseInt v with
  | Some n => if n =? 0 then fallback else n
  | None => fallback
  end.

(** [parseFloat(v) || fallback], given what [parseFloat] answers. *)
Definition float_setting (parsed : option Q) (fallback : Q) : Q :=
  match parsed with
  | Some q => if Qeq_bool q 0 then fallback else q
  | None => fallback
  end.

(** The limits that the constructor of [TwitterInteractionClient] reads
    from the settings. *)
Definition interaction_limits (getSetting : string -> option string)
    (parseFloat : option string -> option Q) : Interactions.InteractionLimits :=
  Interactions.mkLimits
    (int_setting (getSetting "MAX_REPLIES_PER_THREAD") 2)
    (int_setting (getSetting "MAX_REPLIES_PER_USER") 5)
    (int_setting (getSetting "MIN_TIME_BETWEEN_REPLIES") 300000)
    (int_setting (getSetting "CHECK_INTERVAL_MINUTES") 3)
    (float_setting (parseFloat (getSetting "REPLY_PROBABILITY")) (1 # 2)).

(** The schedule that the constructor of [TwitterPostClient] reads. *)
Definition post_schedule (getSetting : string -> option string) : PostClient.PostSchedule :=
  PostClient.mkSchedule
    (int_setting (getSetting "POST_INTERVAL_MIN") 90)
    (int_setting (getSetting "POST_INTERVAL_MAX") 180)
    0.

(** Settings that try to switch replies off and to post every minute. *)
Definition zealous_settings (key : string) : option string :=
  if bool_decide (key = "MAX_REPLIES_PER_USER") then Some "0"
  else if bool_decide (key = "MAX_REPLIES_PER_THREAD") then Some " 7 replies"
  else if bool_decide (key = "POST_INTERVAL_MIN") then Some "0x10"
  else if bool_decide (key = "CHECK_INTERVAL_MINUTES") then Some "soon"
  else None.

End Settings.

(* ===================================================================== *)
(** * index.ts: loading the special interactions *)
(* ===================================================================== *)

Module Loader.
Import TwitterManager.

(** The file system and [JSON.parse], seen from the manager. *)
Record Files : Type := mkFiles {
  (* path.join of the directories and the file name *)
  join : list string -> string;
  cwd : string;                                         (* process.cwd() *)
  readFile : string -> outcome string;
  JSON_parse : string -> outcome (gmap string SpecialInteraction)
}.

Definition possiblePaths (fs : Files) (filename : string) : list string :=
  [join fs ["/app"; "characters"; filename];
   join fs [cwd fs; ".."; "characters"; filename];
   join fs [cwd fs; "characters"; filename]].

(** The loop of [findConfigFile] over the candidate paths. *)
Fixpoint findConfigFile_from (fs : Files) (filename : string) (paths : list string)
    : M Manager (option string) :=
  match paths with
  | [] => mret None
  | path :: rest =>
      attempt ← try_catch
        (elizaLogger LDebug ("Attempting to load " +:+ filename +:+ " from: " +:+ path);;
         content ← await (readFile fs path);
         elizaLogger LDebug ("Successfully loaded " +:+ filename +:+ " from: " +:+ path);;
         mret (Some content))
        (fun e => mret None);
      match attempt with
      | Some content => mret (Some content)
      | None => findConfigFile_from fs filename rest
      end
  end.

Definition findConfigFile (fs : Files) (filename : string) : M Manager (option string) :=
  findConfigFile_from fs filename (possiblePaths fs filename).

Definition loadSpecialInteractions (fs : Files) : M Manager unit :=
  try_catch
    (fileContent ← findConfigFile fs "specialinteractions/specialinteractions.json";
     match fileContent with
     | None => elizaLogger LWarn "No special interactions configuration found"
     | Some text =>
         if bool_decide (text = EmptyString)
         then elizaLogger LWarn "No special interactions configuration found"
         else
           interactions ← await (JSON_parse fs text);
           setupSpecialInteractions interactions;;
           elizaLogger LInfo ("Successfully loaded "
                              +:+ pretty (size (drop_invalid (map_to_list interactions)
                                                  interactions))
                              +:+ " special interactions")
     end)
    (fun error => elizaLogger LError "Failed to load special interactions:").


(** A file system where only the path under the working directory can be
    read, and holds the sample file. *)
Definition demo_files : Files :=
  mkFiles (fun parts => ContentFormatter.join "/" parts) "/srv/agent"
    (fun path =>
       if bool_decide (path = "/srv/agent/characters/specialinteractions/specialinteractions.json")
       then Ok "{...}" else Throw (ExternalError "ENOENT"))
    (fun _ => Ok sample_interactions).

End Loader.

(* ===================================================================== *)
(** * Properties *)
(* ===================================================================== *)

(* set_solver clears hypotheses by name; harmless when they are gone. *)
#[local] Set Warnings "-clear-no-such-hyp".

(** Unfolds the plumbing of the monad. *)
Ltac unfold_monad :=
  unfold mbind, M_bind, mret, M_ret, gets, modify, throw, await, await_unit,
    try_catch, Date_now, Math_random, elizaLogger in *.

(** ** The monad *)

Lemma bind_run {St A B} (m : M St A) (k : A -> M St B) (s : St) :
  (m ≫= k) s =
    match m s with
    | (Ok a, s') => k a s'
    | (Throw e, s') => (Throw e, s')
    end.
Proof. reflexivity. Qed.

Lemma for_of_cons {St A} (x : A) (xs : list A) (body : A -> M St unit) (s : St) :
  for_of (x :: xs) body s =
    match body x s with
    | (Ok _, s') => for_of xs body s'
    | (Throw e, s') => (Throw e, s')
    end.
Proof. reflexivity. Qed.

(** ** Parts of the state that a computation leaves alone *)

Section Preservation.
Context {St B : Type} (proj : St -> B).

Lemma preserves_ret {A} (a : A) : preserves proj (mret a : M St A).
Proof. done. Qed.

Lemma preserves_throw {A} (e : JsError) : preserves proj (throw e : M St A).
Proof. done. Qed.

Lemma preserves_gets {A} (f : St -> A) : preserves proj (gets f).
Proof. done. Qed.

Lemma preserves_await {A} (r : outcome A) : preserves proj (await r : M St A).
Proof. done. Qed.

Lemma preserves_await_unit (r : option JsError) : preserves proj (await_unit r : M St unit).
Proof. by destruct r. Qed.

Lemma preserves_modify (f : St -> St) :
  (forall s, proj (f s) = proj s) -> preserves proj (modify f).
Proof. intros Hf s. apply Hf. Qed.

Lemma preserves_bind {A C} (m : M St A) (k : A -> M St C) :
  preserves proj m -> (forall a, preserves proj (k a)) -> preserves proj (m ≫= k).
Proof.
  intros Hm Hk s. rewrite bind_run. specialize (Hm s).
  destruct (m s) as [[a|e] s']; simpl in *; [|done].
  rewrite Hk. done.
Qed.

Lemma preserves_try_catch {A} (body : M St A) (handler : JsError -> M St A) :
  preserves proj body -> (forall e, preserves proj (handler e)) ->
  preserves proj (try_catch body handler).
Proof.
  intros Hb Hh s. unfold try_catch. specialize (Hb s).
  destruct (body s) as [[a|e] s']; simpl in *; [done|].
  rewrite Hh. done.
Qed.

Lemma preserves_for_of {A} (xs : list A) (body : A -> M St unit) :
  (forall x, preserves proj (body x)) -> preserves proj (for_of xs body).
Proof.
  intros Hb. induction xs as [|x xs IH]; [done|].
  simpl. apply preserves_bind; [apply Hb | intros _; apply IH].
Qed.

Context `{HasWorld St}.
Hypothesis proj_world : forall w s, proj (with_world w s) = proj s.

Lemma preserves_Date_now : preserves proj Date_now.
Proof. intros s. apply proj_world. Qed.

Lemma preserves_Math_random : preserves proj Math_random.
Proof. intros s. apply proj_world. Qed.

Lemma preserves_elizaLogger lvl msg : preserves proj (elizaLogger lvl msg).
Proof. intros s. apply proj_world. Qed.
End Preservation.

(** ** Computations that cannot throw *)

Section Returning.
Context {St : Type}.

Lemma returns_ret {A} (a : A) : returns (mret a : M St A).
Proof. intros s. by exists a. Qed.

Lemma returns_gets {A} (f : St -> A) : returns (gets f).
Proof. intros s. by eexists. Qed.

Lemma returns_modify (f : St -> St) : returns (modify f).
Proof. intros s. by eexists. Qed.

Lemma returns_bind {A C} (m : M St A) (k : A -> M St C) :
  returns m -> (forall a, returns (k a)) -> returns (m ≫= k).
Proof.
  intros Hm Hk s. rewrite bind_run. destruct (Hm s) as [a Ha].
  destruct (m s) as [[a'|e] s']; simpl in *; [|done].
  apply Hk.
Qed.

Lemma returns_try_catch {A} (body : M St A) (handler : JsError -> M St A) :
  (forall e, returns (handler e)) -> returns (try_catch body handler).
Proof.
  intros Hh s. unfold try_catch.
  destruct (body s) as [[a|e] s']; [by exists a | apply Hh].
Qed.

Lemma returns_for_of {A} (xs : list A) (body : A -> M St unit) :
  (forall x, returns (body x)) -> returns (for_of xs body).
Proof.
  intros Hb. induction xs as [|x xs IH]; [apply returns_ret|].
  simpl. apply returns_bind; [apply Hb | intros _; apply IH].
Qed.

Context `{HasWorld St}.

Lemma returns_Date_now : returns Date_now.
Proof. intros s. by eexists. Qed.

Lemma returns_Math_random : returns Math_random.
Proof. intros s. by eexists. Qed.

Lemma returns_elizaLogger lvl msg : returns (elizaLogger lvl msg).
Proof. intros s. by eexists. Qed.
End Returning.

Ltac returning :=
  repeat first
    [ apply returns_ret | apply returns_gets | apply returns_modify
    | apply returns_Date_now | apply returns_Math_random | apply returns_elizaLogger
    | apply returns_bind; [|intros ?]
    | apply returns_try_catch; intros ?
    | apply returns_for_of; intros ?
    | match goal with
      | |- returns (if ?b then _ else _) => destruct b
      | |- returns (match ?x with _ => _ end) => destruct x
      end ].

Lemma BigInt_preserves {St B} (proj : St -> B) (s : string) :
  preserves proj (BigInt s : M St Z).
Proof. unfold BigInt. destruct (StringToBigInt s); [apply preserves_ret | apply preserves_throw]. Qed.

(** Breaks a preservation goal down along the structure of the program. *)
Ltac preserve :=
  repeat first
    [ apply BigInt_preserves
    | apply preserves_ret | apply preserves_throw | apply preserves_gets
    | apply preserves_await | apply preserves_await_unit
    | apply preserves_Date_now; done
    | apply preserves_Math_random; done
    | apply preserves_elizaLogger; done
    | apply preserves_modify; done
    | apply preserves_bind; [|intros ?]
    | apply preserves_try_catch; [|intros ?]
    | apply preserves_for_of; intros ?
    | match goal with
      | |- preserves _ (if ?b then _ else _) => destruct b
      | |- preserves _ (match ?x with _ => _ end) => destruct x
      end ].

(** ** post.ts: truncation *)

Section Truncation.
Import Post.

Lemma trimStart_length s : (String.length (trimStart s) <= String.length s)%nat.
Proof.
  induction s as [|a s IH]; simpl; [lia|].
  destruct (is_white_space a); simpl; lia.
Qed.

Lemma trimEnd_length s : (String.length (trimEnd s) <= String.length s)%nat.
Proof.
  induction s as [|a s IH]; simpl; [lia|].
  destruct (trimEnd s) eqn:E; simpl in *.
  - destruct (is_white_space a); simpl; lia.
  - lia.
Qed.

Lemma trim_length s : js_length (trim s) <= js_length s.
Proof.
  unfold js_length, trim.
  pose proof (trimEnd_length (trimStart s)). pose proof (trimStart_length s). lia.
Qed.

Lemma substring0_length n s : (String.length (String.substring 0 n s) <= n)%nat.
Proof.
  revert s; induction n as [|n IH]; intros [|a s]; simpl; try lia.
  specialize (IH s). lia.
Qed.

Lemma append_length s t :
  String.length (s +:+ t) = (String.length s + String.length t)%nat.
Proof. induction s as [|a s IH]; simpl; [done|]. by rewrite IH. Qed.

(** A text within the limit is returned as it is. *)
Lemma truncate_short text :
  js_length text <= MAX_TWEET_LENGTH -> truncateToCompleteSentence text = text.
Proof.
  intros Hlen. unfold truncateToCompleteSentence.
  destruct (Z.leb_spec (js_length text) MAX_TWEET_LENGTH); [done | lia].
Qed.

(** The last resort, a cut at 277 characters plus the ellipsis, fits. *)
Lemma hard_cut_fits text :
  js_length (trim (slice0 text (MAX_TWEET_LENGTH - 3)) +:+ "...") <= MAX_TWEET_LENGTH.
Proof.
  assert (Hs : js_length (slice0 text (MAX_TWEET_LENGTH - 3)) <= 277).
  { unfold slice0, js_length, MAX_TWEET_LENGTH.
    change (280 - 3 <? 0) with false. cbv iota.
    pose proof (substring0_length
      (Z.to_nat (Z.min (280 - 3) (Z.of_nat (String.length text)))) text).
    lia. }
  pose proof (trim_length (slice0 text (MAX_TWEET_LENGTH - 3))) as Ht.
  unfold js_length in *. rewrite append_length.
  change (String.length "...") with 3%nat.
  unfold MAX_TWEET_LENGTH in *. lia.
Qed.

(** C4 (failing input). On 300 letters without a period or a space,
    [lastIndexOf] answers -1 in both searches: the first slice is empty,
    the second one, [slice(0, -1)], drops only the last character, and the
    result, 299 letters and an ellipsis, is 302 characters long. *)
Theorem truncate_overlong_result :
  truncateToCompleteSentence (repeat_char "a" 300) = repeat_char "a" 299 +:+ "..."
  /\ js_length (truncateToCompleteSentence (repeat_char "a" 300)) = 302
  /\ MAX_TWEET_LENGTH < js_length (truncateToCompleteSentence (repeat_char "a" 300)).
Proof. vm_compute. repeat split; reflexivity. Qed.

(** A period right at index 280 is kept: the result has 281 characters. *)
Example truncate_period_at_limit :
  js_length (truncateToCompleteSentence (repeat_char "a" 280 +:+ "." +:+ "b")) = 281.
Proof. vm_compute. reflexivity. Qed.

(** A cut at a space at index 280 gains the ellipsis: 283 characters. *)
Example truncate_space_at_limit :
  js_length (truncateToCompleteSentence (repeat_char "a" 280 +:+ " " +:+ "bbbbb")) = 283.
Proof. vm_compute. reflexivity. Qed.
End Truncation.

(** ** interactions.ts: the rate limiter *)

Section RateLimiter.
Import Interactions Scenarios.

Lemma canReplyToUser_run (c : Client) (u : string) :
  canReplyToUser u c =
    (Ok ((count_of c u <? maxRepliesPerUser (limits c))
         && (minTimeBetweenReplies (limits c) <=? next_now (world c) - last_of c u)),
     set_world (advance_clock (world c)) c).
Proof. reflexivity. Qed.

Lemma updateInteractionTracking_run (c : Client) (u cv : string) :
  exists c', updateInteractionTracking u cv c = (Ok tt, c')
    /\ recentReplies c' = <[u := count_of c u + 1]> (recentReplies c)
    /\ lastReplyTime c' = <[u := next_now (world c)]> (lastReplyTime c)
    /\ limits c' = limits c.
Proof. eexists. split; [reflexivity|]. simpl. done. Qed.

Lemma recordReplies_ok (calls : list (string * string)) (c : Client) :
  (recordReplies calls c).1 = Ok tt.
Proof.
  revert c. induction calls as [|[u cv] calls IH]; intros c; [done|].
  unfold recordReplies in *. rewrite for_of_cons. cbn [fst snd].
  destruct (updateInteractionTracking_run c u cv) as (c' & Hrun & _).
  rewrite Hrun. apply IH.
Qed.

Lemma recordReplies_count (calls : list (string * string)) (c : Client) (u : string) :
  count_of (recordReplies calls c).2 u = count_of c u + replies_to u calls
  /\ limits (recordReplies calls c).2 = limits c.
Proof.
  revert c. induction calls as [|[v cv] calls IH]; intros c.
  { unfold replies_to. simpl. split; [lia | done]. }
  unfold recordReplies in *. rewrite for_of_cons. cbn [fst snd].
  destruct (updateInteractionTracking_run c v cv) as (c' & Hrun & Hrec & _ & Hlim).
  rewrite Hrun.
  destruct (IH c') as [IHc IHl]. rewrite IHc, IHl, Hlim. split; [|done].
  unfold count_of at 1. rewrite Hrec. unfold replies_to.
  rewrite filter_cons. simpl.
  destruct (decide (v = u)) as [->|Hne].
  - rewrite lookup_insert_eq. simpl. lia.
  - rewrite lookup_insert_ne by done. fold (count_of c u). lia.
Qed.

(** C5. [canReplyToUser] answers true exactly when the recorded count is
    below [maxRepliesPerUser] and at least [minTimeBetweenReplies] has
    passed since the last recorded reply; once a sequence of recorded
    replies has brought the count to the cap, it answers false whatever
    the clock reads. *)
Theorem canReplyToUser_spec :
  (forall (c : Client) (u : string),
      exists b, (canReplyToUser u c).1 = Ok b
        /\ (b = true <->
            count_of c u < maxRepliesPerUser (limits c)
            /\ minTimeBetweenReplies (limits c) <= next_now (world c) - last_of c u))
  /\ (forall (c0 : Client) (calls : list (string * string)) (u : string) (w : World),
      maxRepliesPerUser (limits c0) <= count_of c0 u + replies_to u calls ->
      (recordReplies calls c0).1 = Ok tt
      /\ (canReplyToUser u (set_world w (recordReplies calls c0).2)).1 = Ok false).
Proof.
  split.
  - intros c u. eexists. rewrite canReplyToUser_run. split; [reflexivity|].
    rewrite andb_true_iff, Z.ltb_lt, Z.leb_le. done.
  - intros c0 calls u w Hcap. split; [apply recordReplies_ok|].
    destruct (recordReplies_count calls c0 u) as [Hcount Hlim].
    rewrite canReplyToUser_run. simpl.
    change (count_of (set_world w ?c) u) with (count_of c u).
    rewrite Hcount, Hlim.
    destruct (Z.ltb_spec (count_of c0 u + replies_to u calls)
                (maxRepliesPerUser (limits c0))); [lia | done].
Qed.

Lemma canReplyToUser_spec_witness :
  let c0 := fresh_client (calm_externals (fun _ => mention "1" "alice") [])
              (steady_world 0 1000) in
  (recordReplies five_replies c0).1 = Ok tt
  /\ (canReplyToUser "alice"
        (set_world (steady_world 0 99999999999) (recordReplies five_replies c0).2)).1
     = Ok false.
Proof.
  intros c0.
  apply (proj2 canReplyToUser_spec c0 five_replies "alice" (steady_world 0 99999999999)).
  vm_compute. discriminate.
Defined.
End RateLimiter.

(** ** interactions.ts: the engagement scheduler *)

Section Scheduler.
Import Interactions Scenarios.

Lemma canReplyToUser_preserves {B} (proj : Client -> B) u :
  (forall w c, proj (set_world w c) = proj c) -> preserves proj (canReplyToUser u).
Proof. intros Hw. unfold canReplyToUser. preserve. Qed.

Lemma shouldProcessTweet_preserves {B} (proj : Client -> B) t :
  (forall w c, proj (set_world w c) = proj c) -> preserves proj (shouldProcessTweet t).
Proof.
  intros Hw. unfold shouldProcessTweet, canReplyInThread.
  preserve.
Qed.

(** The filters neither throw nor touch anything but the world. *)
Lemma shouldProcessTweet_never_throws t : returns (shouldProcessTweet t).
Proof. unfold shouldProcessTweet, canReplyToUser, canReplyInThread. returning. Qed.

(** The filters neither throw nor touch anything but the world. *)
Lemma shouldProcessTweet_returns t c :
  exists admitted c1, shouldProcessTweet t c = (Ok admitted, c1)
    /\ lastCheckedTweetId c1 = lastCheckedTweetId c.
Proof.
  pose proof (shouldProcessTweet_preserves lastCheckedTweetId t
                (fun _ _ => eq_refl) c) as Hmark.
  destruct (shouldProcessTweet_never_throws t c) as [admitted Hret].
  destruct (shouldProcessTweet t c) as [r c1]. simpl in *. subst r. eauto.
Qed.

Lemma handleTweet_preserves_mark t thread :
  preserves lastCheckedTweetId (handleTweet t thread).
Proof. unfold handleTweet, trackInteraction. preserve. Qed.

Lemma processSingleTweet_preserves_mark t :
  preserves lastCheckedTweetId (processSingleTweet t).
Proof.
  unfold processSingleTweet, setupTweetContext, updateInteractionTracking.
  preserve.
Qed.




Lemma updateInteractionTracking_never_throws u cv :
  returns (updateInteractionTracking u cv).
Proof. unfold updateInteractionTracking. returning. Qed.

Lemma processSingleTweet_run t c :
  processSingleTweet t c =
    let c0 := logged LLog ("Processing new tweet: " +:+ permanentUrl t) c in
    match ensureConnection (ext c) t with
    | Some e => (Throw e, c0)
    | None =>
        match utils_buildConversationThread (ext c) t with
        | Throw e => (Throw e, c0)
        | Ok thread =>
            match handleTweet t thread c0 with
            | (Ok (_, RESPOND), c1) =>
                updateInteractionTracking (userId t) (conversationId t) c1
            | (Ok _, c1) => (Ok tt, c1)
            | (Throw e, c1) => (Throw e, c1)
            end
        end
    end.
Proof.
  unfold processSingleTweet, setupTweetContext, logged. unfold_monad.
  cbn -[handleTweet updateInteractionTracking String.append].
  destruct (ensureConnection (ext c) t) as [e|];
    cbn -[handleTweet updateInteractionTracking String.append]; [done|].
  destruct (utils_buildConversationThread (ext c) t) as [thread|e];
    cbn -[handleTweet updateInteractionTracking String.append]; [|done].
  destruct (handleTweet t thread _) as [[[content []]|e] c1]; done.
Qed.







(** For a candidate that passes the test against the mark, what is left
    of [processTweetCandidate]. *)
Lemma processTweetCandidate_newer (c : Client) (t : Tweet) (n : Z) :
  StringToBigInt (tweet_id t) = Some n ->
  newer_than_mark c n ->
  processTweetCandidate t c =
    (admitted ← shouldProcessTweet t;
     if negb admitted then mret tt
     else processSingleTweet t;; modify (set_lastCheckedTweetId (Some n))) c.
Proof.
  intros Hid Hnew. unfold processTweetCandidate.
  rewrite (bind_run (gets lastCheckedTweetId)). cbn [gets].
  assert (Hn : forall c', (BigInt (tweet_id t) : M Client Z) c' = (Ok n, c')).
  { intros c'. unfold BigInt. by rewrite Hid. }
  rewrite (bind_run (if mark_unset _ then _ else _)).
  assert (Hnewer : (if mark_unset (lastCheckedTweetId c) then mret true
                    else n0 ← BigInt (tweet_id t); mret (default 0 (lastCheckedTweetId c) <? n0)) c
                   = (Ok true, c)).
  { destruct Hnew as [Hu|Hlt].
    - by rewrite Hu.
    - destruct (mark_unset (lastCheckedTweetId c)); [done|].
      rewrite bind_run, Hn. cbn [mret M_ret].
      destruct (Z.ltb_spec (default 0 (lastCheckedTweetId c)) n); [done | lia]. }
  rewrite Hnewer. cbv iota.
  rewrite !bind_run. destruct (shouldProcessTweet t c) as [[[]|e] c1]; [|done|done].
  cbn [negb]. rewrite !bind_run.
  destruct (processSingleTweet t c1) as [[u|e] c2]; [|done].
  by rewrite bind_run, Hn.
Qed.

(** C2 (as the code has it). A candidate above the mark moves the mark
    to its id when the filters admit it and its processing returns; a
    candidate that the filters reject, or whose processing throws, leaves
    the mark where it was. *)
Theorem mark_advances_only_when_processed (c : Client) (t : Tweet) (n : Z) :
  StringToBigInt (tweet_id t) = Some n ->
  newer_than_mark c n ->
  exists admitted c1,
    shouldProcessTweet t c = (Ok admitted, c1)
    /\ lastCheckedTweetId c1 = lastCheckedTweetId c
    /\ if admitted : bool
       then match processSingleTweet t c1 with
            | (Ok _, c2) =>
                processTweetCandidate t c = (Ok tt, set_lastCheckedTweetId (Some n) c2)
            | (Throw e, c2) =>
                processTweetCandidate t c = (Throw e, c2)
                /\ lastCheckedTweetId c2 = lastCheckedTweetId c
            end
       else processTweetCandidate t c = (Ok tt, c1).
Proof.
  intros Hid Hnew.
  destruct (shouldProcessTweet_returns t c) as (admitted & c1 & Hrun & Hmark).
  exists admitted, c1. split; [done|]. split; [done|].
  rewrite (processTweetCandidate_newer c t n Hid Hnew), bind_run, Hrun.
  destruct admitted; cbn [negb]; [|done].
  rewrite bind_run.
  pose proof (processSingleTweet_preserves_mark t c1) as Hp.
  destruct (processSingleTweet t c1) as [[[]|e] c2]; simpl in *; [done|].
  split; [done | congruence].
Qed.

Lemma mark_advances_only_when_processed_witness :
  exists admitted c1,
    shouldProcessTweet (two_mentions 0) unlucky_client = (Ok admitted, c1)
    /\ lastCheckedTweetId c1 = lastCheckedTweetId unlucky_client
    /\ if admitted : bool
       then match processSingleTweet (two_mentions 0) c1 with
            | (Ok _, c2) =>
                processTweetCandidate (two_mentions 0) unlucky_client
                = (Ok tt, set_lastCheckedTweetId (Some 1001) c2)
            | (Throw e, c2) =>
                processTweetCandidate (two_mentions 0) unlucky_client = (Throw e, c2)
                /\ lastCheckedTweetId c2 = lastCheckedTweetId unlucky_client
            end
       else processTweetCandidate (two_mentions 0) unlucky_client = (Ok tt, c1).
Proof.
  apply (mark_advances_only_when_processed unlucky_client (two_mentions 0) 1001).
  - reflexivity.
  - right. vm_compute. reflexivity.
Defined.

(** C2 (counterexample). The mark is 1000 and the candidate 1001 is
    considered; the draw 9/10 is above the reply probability 1/2, the
    candidate is rejected, and the mark is still 1000. *)
Lemma rejected_candidate_keeps_mark :
  StringToBigInt (tweet_id (two_mentions 0)) = Some 1001
  /\ lastCheckedTweetId unlucky_client = Some 1000
  /\ (processTweetCandidate (two_mentions 0) unlucky_client).1 = Ok tt
  /\ lastCheckedTweetId (processTweetCandidate (two_mentions 0) unlucky_client).2
     = Some 1000
  /\ lastCheckedTweetId (processTweetCandidate (two_mentions 0) unlucky_client).2
     <> Some 1001.
Proof. vm_compute. repeat split; try reflexivity. discriminate. Qed.

(** Two checks in a row find the same two mentions. The first rejects both
    on the draw and leaves the mark at 1000; the second considers them
    again, answers both, and moves the mark to 1002. *)
Example rejected_candidates_come_back :
  let tick := handleTwitterInteractions code_unit_compare in
  let first := (tick moody_client).2 in
  let second := (tick first).2 in
  lastCheckedTweetId first = Some 1000
  /\ lastCheckedTweetId second = Some 1002
  /\ console (world second)
     = [(LLog, "Checking Twitter interactions");
        (LLog, "Skipping tweet due to probability check https://twitter.com/bob/status/1001");
        (LLog, "Skipping tweet due to probability check https://twitter.com/carol/status/1002");
        (LLog, "Finished checking Twitter interactions");
        (LLog, "Checking Twitter interactions");
        (LLog, "Processing new tweet: https://twitter.com/bob/status/1001");
        (LDebug, "Generated content: gm");
        (LLog, "Processing new tweet: https://twitter.com/carol/status/1002");
        (LDebug, "Generated content: gm");
        (LLog, "Finished checking Twitter interactions")].
Proof. vm_compute. repeat split; reflexivity. Qed.
End Scheduler.

(** ** Sorting and sets of references *)

Section SortFacts.
Context {A : Type} (cmp : A -> A -> Z).

Lemma sort_insert_perm x l : sort_insert cmp x l ≡ₚ x :: l.
Proof.
  induction l as [|y l IH]; simpl; [done|].
  destruct (cmp x y <=? 0); [done|].
  rewrite IH. apply Permutation_swap.
Qed.

Lemma Array_sort_perm l : Array_sort cmp l ≡ₚ l.
Proof.
  induction l as [|x l IH]; simpl; [done|].
  by rewrite sort_insert_perm, IH.
Qed.

Lemma Array_sort_length l : length (Array_sort cmp l) = length l.
Proof. by rewrite Array_sort_perm. Qed.

Hypothesis cmp_consistent : consistent_comparator cmp.

Lemma sort_insert_sorted x l :
  StronglySorted (fun a b => cmp a b <= 0) l ->
  StronglySorted (fun a b => cmp a b <= 0) (sort_insert cmp x l).
Proof.
  destruct cmp_consistent as [Htotal Htrans].
  induction l as [|y l IH]; intros Hs; simpl.
  { repeat constructor. }
  apply StronglySorted_cons in Hs as [Hy Hl].
  destruct (Z.leb_spec (cmp x y) 0) as [Hle|Hgt].
  - apply StronglySorted_cons. split; [|by apply StronglySorted_cons].
    constructor; [done|].
    eapply Forall_impl; [exact Hy|]. intros z Hz. by eapply Htrans.
  - apply StronglySorted_cons. split; [|by apply IH].
    rewrite sort_insert_perm. constructor; [|done].
    destruct (Htotal x y); [lia | done].
Qed.

Lemma Array_sort_sorted l : StronglySorted (fun a b => cmp a b <= 0) (Array_sort cmp l).
Proof.
  induction l as [|x l IH]; simpl; [constructor|].
  by apply sort_insert_sorted.
Qed.
End SortFacts.

Lemma StronglySorted_filter {A} (R : relation A) (P : A -> Prop)
    `{forall x, Decision (P x)} (l : list A) :
  StronglySorted R l -> StronglySorted R (filter P l).
Proof.
  induction 1 as [|x l Hl IH Hx]; [constructor|].
  rewrite filter_cons. destruct (decide (P x)); [|done].
  constructor; [done|].
  apply Forall_forall. intros y [_ Hy]%list_elem_of_filter.
  by eapply Forall_forall in Hx.
Qed.

Lemma filter_all {A} (P : A -> Prop) `{forall x, Decision (P x)} (l : list A) :
  (forall x, x ∈ l -> P x) -> filter P l = l.
Proof.
  induction l as [|x l IH]; intros Hall; [done|].
  rewrite filter_cons_True by (apply Hall, list_elem_of_here).
  rewrite IH; [done|]. intros y Hy. by apply Hall, list_elem_of_further.
Qed.

Section SetFacts.
Context {A : Type} `{EqDecision A}.

Lemma Set_of_array_elem (seen l : list A) (x : A) :
  x ∈ Set_of_array seen l <-> x ∈ l /\ x ∉ seen.
Proof.
  revert seen. induction l as [|y l IH]; intros seen; simpl.
  { split; [by intros ?%elem_of_nil | by intros [?%elem_of_nil _]]. }
  case_bool_decide as Hy.
  - rewrite IH, elem_of_cons. split.
    + intros [Hx Hn]. split; [by right | done].
    + intros [[->|Hx] Hn]; [done | by split].
  - rewrite !elem_of_cons, IH, not_elem_of_cons. split.
    + intros [->|(Hx & Hne & Hn)]; [by split; [left|] | by split; [right|]].
    + intros [[->|Hx] Hn]; [by left|].
      destruct (decide (x = y)) as [->|Hne]; [by left | right; done].
Qed.

Lemma Set_of_array_NoDup (seen l : list A) : NoDup (Set_of_array seen l).
Proof.
  revert seen. induction l as [|y l IH]; intros seen; simpl; [constructor|].
  case_bool_decide as Hy; [apply IH|].
  constructor; [|apply IH].
  rewrite Set_of_array_elem, not_elem_of_cons. intros [_ [Hne _]]. done.
Qed.
End SetFacts.

(** ** interactions.ts: fetching the candidates *)

Section Fetching.
Import Interactions Scenarios.

Lemma string_compare_trans (s t u : string) :
  String.compare s t <> Gt -> String.compare t u <> Gt -> String.compare s u <> Gt.
Proof.
  revert t u. induction s as [|a s IH]; intros [|b t] [|c u]; simpl; try done.
  unfold Ascii.compare.
  destruct (N.compare_spec (N_of_ascii a) (N_of_ascii b)),
           (N.compare_spec (N_of_ascii b) (N_of_ascii c)),
           (N.compare_spec (N_of_ascii a) (N_of_ascii c));
    try done; try lia.
  apply IH.
Qed.

Lemma code_unit_compare_consistent : consistent_comparator code_unit_compare.
Proof.
  assert (Hle : forall s t, code_unit_compare s t <= 0 <-> String.compare s t <> Gt).
  { intros s t. unfold code_unit_compare. destruct (String.compare s t); split; (done || lia). }
  split.
  - intros s t. rewrite !Hle, (String.compare_antisym t s).
    destruct (String.compare s t); simpl; auto.
  - intros s t u. rewrite !Hle. apply string_compare_trans.
Qed.

(** *** Ids of equal length: the order of the sort is the numeric one *)

Lemma decimal_digit_code (a : ascii) (d : Z) :
  digit_value a = Some d -> d < 10 ->
  0 <= d /\ Z.of_N (N_of_ascii a) = d + 48.
Proof.
  unfold digit_value. intros Hd Hlt.
  repeat match type of Hd with
         | (if ?b then _ else _) = _ => destruct b eqn:?
         end; try done; injection Hd as <-; lia.
Qed.

Lemma parse_digits_bounds (s : string) (a m : Z) :
  0 <= a -> parse_digits 10 s a = Some m ->
  a * 10 ^ js_length s <= m < (a + 1) * 10 ^ js_length s.
Proof.
  revert a. induction s as [|c s IH]; intros a Ha Hparse.
  { injection Hparse as <-. unfold js_length. simpl. lia. }
  simpl in Hparse. destruct (digit_value c) as [d|] eqn:Hd; [|done].
  destruct (Z.ltb_spec d 10) as [Hlt|]; [|done].
  destruct (decimal_digit_code c d Hd Hlt) as [Hd0 _].
  apply IH in Hparse; [|lia].
  unfold js_length in *. cbn [String.length]. rewrite Nat2Z.inj_succ, Z.pow_succ_r by lia.
  assert (0 < 10 ^ Z.of_nat (String.length s)) by (apply Z.pow_pos_nonneg; lia).
  nia.
Qed.

Lemma decimal_order (s t : string) (a m n : Z) :
  String.length s = String.length t -> 0 <= a ->
  parse_digits 10 s a = Some m -> parse_digits 10 t a = Some n ->
  (String.compare s t <> Gt <-> m <= n).
Proof.
  revert t a. induction s as [|c s IH]; intros [|d t] a Hlen Ha Hs Ht; try done.
  { injection Hs as <-. injection Ht as <-. simpl. split; [lia | done]. }
  simpl in Hlen. injection Hlen as Hlen.
  simpl in Hs, Ht.
  destruct (digit_value c) as [x|] eqn:Hx; [|done].
  destruct (digit_value d) as [y|] eqn:Hy; [|done].
  destruct (Z.ltb_spec x 10) as [Hx10|]; [|done].
  destruct (Z.ltb_spec y 10) as [Hy10|]; [|done].
  destruct (decimal_digit_code c x Hx Hx10) as [Hx0 Hcx].
  destruct (decimal_digit_code d y Hy Hy10) as [Hy0 Hcy].
  pose proof (parse_digits_bounds s (a * 10 + x) m ltac:(lia) Hs) as Hm.
  pose proof (parse_digits_bounds t (a * 10 + y) n ltac:(lia) Ht) as Hn.
  assert (Hpow : js_length t = js_length s) by (unfold js_length; by rewrite Hlen).
  rewrite Hpow in Hn.
  assert (0 < 10 ^ js_length s) by (apply Z.pow_pos_nonneg; unfold js_length; lia).
  simpl. unfold Ascii.compare.
  destruct (N.compare_spec (N_of_ascii c) (N_of_ascii d)) as [Heq|Hlt|Hgt].
  - assert (x = y) as -> by lia. cbv iota.
    apply (IH t (a * 10 + y)); [done | lia | done | done].
  - split; [intros _; nia | done].
  - split; [done | intros; nia].
Qed.

(** Two ids written with the same number of decimal digits are ranked by
    the sort as their numeric values are. *)
Lemma same_length_ids_numeric (s t : string) (m n : Z) :
  String.length s = String.length t ->
  parse_nonempty_digits 10 s = Some m -> parse_nonempty_digits 10 t = Some n ->
  (code_unit_compare s t <= 0 <-> m <= n).
Proof.
  intros Hlen Hs Ht.
  assert (Hs' : parse_digits 10 s 0 = Some m) by by destruct s.
  assert (Ht' : parse_digits 10 t 0 = Some n) by by destruct t.
  rewrite <- (decimal_order s t 0 m n Hlen ltac:(lia) Hs' Ht').
  unfold code_unit_compare. destruct (String.compare s t); split; (done || lia).
Qed.

Lemma decimal_no_white_space (a : ascii) (d : Z) :
  digit_value a = Some d -> d < 10 -> is_white_space a = false.
Proof.
  intros Hd Hlt. destruct (decimal_digit_code a d Hd Hlt) as [Hd0 Hcode].
  unfold is_white_space.
  destruct (N.leb_spec 9 (N_of_ascii a)), (N.leb_spec (N_of_ascii a) 13),
           (N.eqb_spec (N_of_ascii a) 32), (N.eqb_spec (N_of_ascii a) 160);
    simpl; try done; lia.
Qed.

Lemma decimal_trimEnd (s : string) (a m : Z) :
  parse_digits 10 s a = Some m -> trimEnd s = s.
Proof.
  revert a. induction s as [|c s IH]; intros a Hparse; [done|].
  simpl in Hparse. destruct (digit_value c) as [d|] eqn:Hd; [|done].
  destruct (Z.ltb_spec d 10) as [Hlt|]; [|done].
  simpl. rewrite (IH _ Hparse). destruct s; [|done].
  by rewrite (decimal_no_white_space c d Hd Hlt).
Qed.

(** On a decimal id [BigInt] is the value of the digits. *)
Lemma StringToBigInt_decimal (s : string) (m : Z) :
  parse_nonempty_digits 10 s = Some m -> StringToBigInt s = Some m.
Proof.
  destruct s as [|c s]; [done|]. intros Hparse.
  assert (Htrim : trim (String c s) = String c s).
  { unfold trim. simpl in Hparse.
    destruct (digit_value c) as [d|] eqn:Hd; [|done].
    destruct (Z.ltb_spec d 10) as [Hlt|]; [|done].
    cbn [trimStart]. rewrite (decimal_no_white_space c d Hd Hlt).
    apply (decimal_trimEnd (String c s) 0 m). simpl. rewrite Hd.
    by destruct (Z.ltb_spec d 10); [|lia]. }
  unfold StringToBigInt. rewrite Htrim. clear Htrim.
  destruct c as [[] [] [] [] [] [] [] []]; try discriminate Hparse; try exact Hparse.
  destruct s as [|d s]; [exact Hparse|].
  destruct d as [[] [] [] [] [] [] [] []]; try discriminate Hparse; exact Hparse.
Qed.

Lemma StronglySorted_weaken {A} (R R' : relation A) (l : list A) :
  (forall x y, x ∈ l -> y ∈ l -> R x y -> R' x y) ->
  StronglySorted R l -> StronglySorted R' l.
Proof.
  intros Himpl Hs. induction Hs as [|x l Hl IH Hx]; [constructor|].
  constructor.
  - apply IH. intros y z Hy Hz. apply Himpl; by apply list_elem_of_further.
  - apply Forall_forall. intros y Hy. apply Himpl.
    + apply list_elem_of_here.
    + by apply list_elem_of_further.
    + by eapply Forall_forall in Hx.
Qed.

(** When the ids of a batch are decimal and all of one length, as the ids
    of one period are, the candidates come out in the ascending order of the
    values that [processTweetCandidate] compares with the mark. *)
Lemma same_length_batch_numeric (localeCompare : string -> string -> Z) (selfId : string)
    (heap : nat -> Tweet) (batch : list nat) (digits : nat) :
  consistent_comparator localeCompare -> ranks_digits localeCompare ->
  (forall r, r ∈ batch ->
     String.length (tweet_id (heap r)) = digits
     /\ is_Some (parse_nonempty_digits 10 (tweet_id (heap r)))) ->
  StronglySorted (ascending_numbers heap) (fetchAndFilter localeCompare selfId heap batch).
Proof.
  intros [Htotal Htrans] Hranks Hids.
  pose proof (Array_sort_sorted
                (fun a b => localeCompare (tweet_id (heap a)) (tweet_id (heap b)))) as Hs.
  eapply StronglySorted_weaken; [|apply StronglySorted_filter, Hs].
  - intros a b Ha Hb Hab m n Hm Hn.
    assert (Hin : forall r, r ∈ fetchAndFilter localeCompare selfId heap batch ->
                            r ∈ batch).
    { intros r [_ Hr]%list_elem_of_filter.
      rewrite Array_sort_perm in Hr. by apply Set_of_array_elem in Hr as [Hr _]. }
    destruct (Hids a (Hin a Ha)) as [Hla [ma Hma]].
    destruct (Hids b (Hin b Hb)) as [Hlb [mb Hmb]].
    rewrite (StringToBigInt_decimal _ _ Hma) in Hm.
    rewrite (StringToBigInt_decimal _ _ Hmb) in Hn.
    injection Hm as <-. injection Hn as <-.
    apply (same_length_ids_numeric (tweet_id (heap a)) (tweet_id (heap b)));
      [congruence|done..|].
    apply Hranks; [by eexists | by eexists | done].
  - split.
    + intros x y. apply Htotal.
    + intros x y z. apply Htrans.
Qed.

(** C8 (as the code has it). The batch returned by the search is
    stripped of repeated references to one object, so every object of the
    batch that the agent did not write comes exactly once; it is sorted by
    id in the ascending order of [localeCompare], a comparison of strings.
    When the ids are decimal and all of one length, that is the ascending
    order of their numeric values. *)
Theorem fetchAndFilterTweets_spec (localeCompare : string -> string -> Z)
    (c : Client) (batch : list nat) :
  consistent_comparator localeCompare ->
  fetchSearchTweets (ext c) (fetch_count c) = Ok batch ->
  let heap := deref (ext c) in
  let result := fetchAndFilter localeCompare (profile_id c) heap batch in
  (fetchAndFilterTweets localeCompare c).1 = Ok result
  /\ NoDup result
  /\ (forall r, r ∈ result <-> r ∈ batch /\ userId (heap r) <> profile_id c)
  /\ StronglySorted (ascending_ids localeCompare heap) result
  /\ (ranks_digits localeCompare ->
      forall digits : nat,
        (forall r, r ∈ batch ->
           String.length (tweet_id (heap r)) = digits
           /\ is_Some (parse_nonempty_digits 10 (tweet_id (heap r)))) ->
        StronglySorted (ascending_numbers heap) result).
Proof.
  intros Hcons Hfetch heap result. split; [|split; [|split; [|split]]].
  - unfold fetchAndFilterTweets. unfold_monad. simpl. by rewrite Hfetch.
  - apply NoDup_filter. rewrite Array_sort_perm. apply Set_of_array_NoDup.
  - intros r. unfold result, fetchAndFilter.
    rewrite list_elem_of_filter, Array_sort_perm, Set_of_array_elem.
    split; [intros (Hu & Hr & _); by split|].
    intros [Hr Hu]. repeat split; [done..|]. by intros ?%elem_of_nil.
  - destruct Hcons as [Htotal Htrans].
    apply StronglySorted_filter. apply Array_sort_sorted. split.
    + intros x y. apply Htotal.
    + intros x y z. apply Htrans.
  - intros Hranks digits Hids. by eapply same_length_batch_numeric.
Qed.

Lemma fetchAndFilterTweets_spec_witness :
  let c := fresh_client (calm_externals three_objects [0; 1; 2; 0; 1]%nat)
             (steady_world 0 0) in
  let result := fetchAndFilter code_unit_compare (profile_id c) (deref (ext c))
                  [0; 1; 2; 0; 1]%nat in
  (fetchAndFilterTweets code_unit_compare c).1 = Ok result
  /\ NoDup result
  /\ (forall r, r ∈ result <->
                r ∈ [0; 1; 2; 0; 1]%nat /\ userId (deref (ext c) r) <> profile_id c)
  /\ StronglySorted (ascending_ids code_unit_compare (deref (ext c))) result
  /\ StronglySorted (ascending_numbers (deref (ext c))) result.
Proof.
  intros c result.
  destruct (fetchAndFilterTweets_spec code_unit_compare c [0; 1; 2; 0; 1]%nat
              code_unit_compare_consistent eq_refl) as (Hrun & Hnd & Hin & Hsorted & Hnum).
  split; [exact Hrun|]. split; [exact Hnd|]. split; [exact Hin|]. split; [exact Hsorted|].
  apply (Hnum (fun s t _ _ => iff_refl _) 4%nat).
  intros r Hr. repeat (apply elem_of_cons in Hr as [->|Hr]); try (split; [reflexivity|by eexists]).
  by apply elem_of_nil in Hr.
Defined.

(** C8 (counterexample). The search returns three objects: the tweet
    999, the tweet 1000, and a second object for the tweet 999. All three
    are kept: the id 999 comes twice, and the id 1000 comes before it. *)
Lemma same_id_twice_and_1000_before_999 :
  let c := fresh_client (calm_externals twin_objects [0; 1; 2]%nat) (steady_world 0 0) in
  let ids := fun result : list nat => (fun r => tweet_id (twin_objects r)) <$> result in
  (fetchAndFilterTweets code_unit_compare c).1 = Ok [1; 0; 2]%nat
  /\ ids [1; 0; 2]%nat = ["1000"; "999"; "999"]
  /\ ~ NoDup (ids [1; 0; 2]%nat)
  /\ ~ StronglySorted (ascending_numbers twin_objects) [1; 0; 2]%nat.
Proof.
  split; [vm_compute; reflexivity|]. split; [reflexivity|]. split.
  - intros Hnd. simpl in Hnd. apply NoDup_cons in Hnd as [_ Hnd].
    apply NoDup_cons in Hnd as [Hnot _]. apply Hnot. apply list_elem_of_here.
  - intros Hs. apply StronglySorted_inv in Hs as [_ Hs].
    apply Forall_cons in Hs as [Hs _].
    specialize (Hs 1000 999 eq_refl eq_refl). lia.
Qed.

(** On that batch: the repeated references and the agent's own tweet are
    gone, and carol's 1001 comes before bob's 1003. *)
Example fetchAndFilter_three_objects :
  fetchAndFilter code_unit_compare "agent-profile" three_objects [0; 1; 2; 0; 1]%nat
  = [2; 0]%nat.
Proof. vm_compute. reflexivity. Qed.
End Fetching.

(** ** interactions.ts: the thread reconstructor *)

Section Threads.
Import Interactions Scenarios.

(** [processThreadTweet] either throws and leaves the frame as it was, or
    records the tweet as visited and puts it in front of the thread. *)
Lemma processThreadTweet_run (t : Tweet) (f : Frame) :
  exists r f1, processThreadTweet t f = (r, f1)
    /\ ext (fr_client f1) = ext (fr_client f)
    /\ agentId (fr_client f1) = agentId (fr_client f)
    /\ match r with
       | Ok _ => fr_thread f1 = t :: fr_thread f
                 /\ fr_visited f1 = {[ tweet_id t ]} ∪ fr_visited f
       | Throw _ => f1 = f
       end.
Proof.
  unfold processThreadTweet, in_client, createMemoryForThreadTweet. unfold_monad.
  destruct f as [c thread visited].
  cbn -[String.append].
  destruct (getMemoryById_error _ _); cbn -[String.append];
    [by do 2 eexists; split; [reflexivity|]|].
  case_bool_decide; cbn -[String.append];
    [by do 2 eexists; split; [reflexivity|]|].
  destruct (ensureConnection _ _); cbn -[String.append];
    [by do 2 eexists; split; [reflexivity|]|].
  destruct (createMemory_error _ _); cbn -[String.append];
    by do 2 eexists; split; [reflexivity|].
Qed.

(** Whether [processThreadTweet] throws depends on the collaborators, the
    agent and the stored memories only. *)
Lemma processThreadTweet_outcome (t : Tweet) (f f' : Frame) :
  ext (fr_client f') = ext (fr_client f) ->
  agentId (fr_client f') = agentId (fr_client f) ->
  memories (fr_client f') = memories (fr_client f) ->
  (processThreadTweet t f').1 = (processThreadTweet t f).1.
Proof.
  intros He Ha Hm.
  unfold processThreadTweet, in_client, createMemoryForThreadTweet. unfold_monad.
  cbn -[String.append]. rewrite He, Ha, Hm.
  destruct (getMemoryById_error _ _); cbn -[String.append]; [done|].
  case_bool_decide; cbn -[String.append]; [done|].
  rewrite He, Ha.
  destruct (ensureConnection _ _); cbn -[String.append]; [done|].
  destruct (createMemory_error _ _); cbn -[String.append]; done.
Qed.

Lemma store_refused_frame (t : Tweet) (f : Frame) (e : JsError) (w : World) :
  (processThreadTweet t f).1 = Throw e -> store_refused (set_world w (fr_client f)) t.
Proof.
  intros Hthrow. exists e. rewrite <- Hthrow. by apply processThreadTweet_outcome.
Qed.

Lemma store_refused_world (c : Client) (t : Tweet) (w : World) :
  store_refused c t -> store_refused (set_world w c) t.
Proof. intros [e He]. by apply (store_refused_frame t (mkFrame c [] ∅) e w). Qed.

Lemma storable_not_refused (c c' : Client) (t : Tweet) :
  ext c' = ext c -> agentId c' = agentId c -> storable c t -> ~ store_refused c' t.
Proof.
  intros He Ha (Hget & Hconn & Hcreate) [e Hthrow]. revert Hthrow.
  unfold processThreadTweet, in_client, createMemoryForThreadTweet. unfold_monad.
  cbn -[String.append]. rewrite He, Ha, Hget. cbn -[String.append].
  case_bool_decide; cbn -[String.append]; [done|].
  rewrite He, Ha, Hconn. cbn -[String.append]. by rewrite Hcreate.
Qed.

Lemma logged_frame lvl msg (f : Frame) :
  exists w, elizaLogger lvl msg f
            = (Ok tt, mkFrame (set_world w (fr_client f)) (fr_thread f) (fr_visited f)).
Proof. eexists. reflexivity. Qed.

(** More fuel does not change an answer. *)
Lemma processThread_fuel_mono fuel fuel' maxReplies cur depth f x :
  (fuel <= fuel')%nat ->
  processThread fuel maxReplies cur depth f = Some x ->
  processThread fuel' maxReplies cur depth f = Some x.
Proof.
  revert fuel' cur depth f x.
  induction fuel as [|fuel IH]; intros fuel' cur depth f x Hle; [done|].
  destruct fuel' as [|fuel']; [lia|]. simpl.
  destruct (_ || _); [done|].
  destruct (processThreadTweet cur f) as [[[]|e] f1]; [|done].
  destruct (reply_target cur) as [parentId|]; [|done].
  destruct (getTweet _ parentId) as [[parent|]|e]; [|done|done].
  destruct (processThread fuel maxReplies parent (depth + 1) f1) as [y|] eqn:Hrec; [|done].
  intros Hx. by rewrite (IH fuel' parent (depth + 1) f1 y ltac:(lia) Hrec).
Qed.

Lemma reply_chain_snoc e (l : list Tweet) (cur parent : Tweet) :
  reply_chain e l -> (l <> [] -> last l = Some parent) -> parent_link e cur parent ->
  reply_chain e (l ++ [cur]).
Proof.
  intros Hchain Hlast Hlink. induction l as [|p rest IH]; [done|].
  destruct rest as [|child rest].
  - specialize (Hlast ltac:(done)). injection Hlast as ->. by simpl.
  - destruct Hchain as [Hp Hrest]. split; [done|].
    apply IH; [done|]. intros _. by apply Hlast.
Qed.

(** The last two tweets of a chain are a parent and its child. *)
Lemma reply_chain_end e (l : list Tweet) (p child : Tweet) :
  reply_chain e (l ++ [p; child]) -> parent_link e child p.
Proof.
  induction l as [|x l IH]; simpl.
  - by intros [? _].
  - intros [_ Hrest]. by apply IH.
Qed.

Lemma parent_link_unique e (child p q : Tweet) :
  parent_link e child p -> parent_link e child q -> p = q.
Proof. intros (i & Hi & Hp) (j & Hj & Hq). congruence. Qed.

Lemma parent_link_no_parent e (child p : Tweet) :
  parent_link e child p -> ~ no_parent e child.
Proof. intros (i & Hi & Hp) Hnone. unfold no_parent in Hnone. by rewrite Hi, Hp in Hnone. Qed.

Lemma walk_nothing cur budget f : walk_adds cur budget f f [].
Proof.
  repeat split; try done.
  - simpl. set_solver.
  - simpl. lia.
  - constructor.
  - by intros t ?%elem_of_nil.
Qed.

Lemma walk_frame cur budget f f2 added w :
  walk_adds cur budget f f2 added ->
  walk_adds cur budget f
    (mkFrame (set_world w (fr_client f2)) (fr_thread f2) (fr_visited f2)) added.
Proof. intros (? & ? & ? & ?). by unfold walk_adds. Qed.

Lemma walk_step cur parent maxReplies depth f f1 f2 added2 :
  depth < maxReplies -> tweet_id cur ∉ fr_visited f ->
  ext (fr_client f1) = ext (fr_client f) ->
  agentId (fr_client f1) = agentId (fr_client f) ->
  fr_thread f1 = cur :: fr_thread f ->
  fr_visited f1 = {[ tweet_id cur ]} ∪ fr_visited f ->
  parent_link (ext (fr_client f)) cur parent ->
  walk_adds parent (maxReplies - (depth + 1)) f1 f2 added2 ->
  walk_adds cur (maxReplies - depth) f f2 (added2 ++ [cur]).
Proof.
  intros Hdepth Hnew He1 Ha1 Ht1 Hv1 Hlink
    (He2 & Ha2 & Ht2 & Hv2 & Hlen & Hchain & Hnd & Hfresh & Hlast).
  unfold walk_adds. rewrite fmap_app, length_app. simpl.
  repeat split.
  - congruence.
  - congruence.
  - by rewrite Ht2, Ht1, <- app_assoc.
  - rewrite Hv2, Hv1, list_to_set_app_L. set_solver.
  - lia.
  - rewrite He1 in Hchain. by eapply reply_chain_snoc.
  - apply NoDup_app. split; [done|]. split; [|apply NoDup_singleton].
    intros i Hi ->%list_elem_of_singleton.
    apply list_elem_of_fmap in Hi as (t & Hid & Ht).
    apply Hfresh in Ht. rewrite Hv1, <- Hid in Ht. set_solver.
  - intros t [Ht| ->%list_elem_of_singleton]%elem_of_app; [|done].
    apply Hfresh in Ht. rewrite Hv1 in Ht. set_solver.
  - intros _. apply last_snoc.
Qed.

Lemma stops_at_world maxReplies c visited levels oldest w :
  stops_at maxReplies c visited levels oldest ->
  stops_at maxReplies (set_world w c) visited levels oldest.
Proof.
  intros [?|[?|(parent & Hlink & [?|Hrefused])]]; [by left | by right; left | |].
  - right. right. exists parent. split; [done | by left].
  - right. right. exists parent. split; [done|]. right. by apply store_refused_world.
Qed.

(** What a call of [processThread] does, given a bound on the nesting
    that covers the levels left. *)
Lemma processThread_walk fuel maxReplies cur depth f :
  (Z.to_nat (maxReplies - depth) < fuel)%nat ->
  exists r f' added,
    processThread fuel maxReplies cur depth f = Some (r, f')
    /\ walk_adds cur (maxReplies - depth) f f' added
    /\ match r with
       | Throw e => f' = f /\ (processThreadTweet cur f).1 = Throw e
       | Ok _ => depth < maxReplies -> tweet_id cur ∉ fr_visited f ->
                 (processThreadTweet cur f).1 = Ok tt /\ last added = Some cur
       end
    /\ (forall oldest rest, added = oldest :: rest ->
          stops_at maxReplies (fr_client f') (fr_visited f')
            (depth + Z.of_nat (length added)) oldest).
Proof.
  revert cur depth f. induction fuel as [|fuel IH]; intros cur depth f Hfuel; [lia|].
  simpl.
  destruct (Z.leb_spec maxReplies depth) as [Hdeep|Hshallow]; simpl.
  { exists (Ok tt), f, []. split; [done|]. split; [apply walk_nothing|].
    split; [lia | done]. }
  case_bool_decide as Hvis.
  { exists (Ok tt), f, []. split; [done|]. split; [apply walk_nothing|]. by split. }
  destruct (processThreadTweet_run cur f) as (r1 & f1 & Hrun & He1 & Ha1 & Hfr1).
  rewrite Hrun. destruct r1 as [[]|e].
  2: { subst f1. exists (Throw e), f, []. split; [done|].
       split; [apply walk_nothing|]. by split. }
  destruct Hfr1 as [Ht1 Hv1].
  assert (Hsingle : walk_adds cur (maxReplies - depth) f f1 [cur]).
  { unfold walk_adds. simpl. repeat split; try done.
    - rewrite Hv1. set_solver.
    - lia.
    - apply NoDup_singleton.
    - by intros t ->%list_elem_of_singleton. }
  assert (Hleaf : (processThreadTweet cur f).1 = Ok tt) by by rewrite Hrun.
  destruct (reply_target cur) as [parentId|] eqn:Hreply.
  2: { exists (Ok tt), f1, [cur]. split; [done|]. split; [exact Hsingle|].
       split; [by intros _ _|]. intros oldest rest [= <- <-].
       right. left. unfold no_parent. by rewrite Hreply. }
  destruct (getTweet (ext (fr_client f1)) parentId) as [[parent|]|e] eqn:Hget.
  - destruct (IH parent (depth + 1) f1 ltac:(lia))
      as (r2 & f2 & added2 & Hrec & Hwalk2 & Hr2 & Hstop2).
    rewrite Hrec.
    assert (Hlink : parent_link (ext (fr_client f)) cur parent).
    { exists parentId. by rewrite <- He1. }
    pose proof (walk_step cur parent maxReplies depth f f1 f2 added2
                  Hshallow Hvis He1 Ha1 Ht1 Hv1 Hlink Hwalk2) as Hwalk.
    assert (Hstop : forall w oldest rest, added2 ++ [cur] = oldest :: rest ->
              stops_at maxReplies (set_world w (fr_client f2)) (fr_visited f2)
                (depth + Z.of_nat (length (added2 ++ [cur]))) oldest).
    { intros w oldest rest Hadded. rewrite length_app. simpl.
      destruct Hwalk2 as (He2 & _ & _ & Hv2 & _).
      destruct added2 as [|o rest2].
      - injection Hadded as <- <-. simpl.
        assert (Hlink2 : parent_link (ext (set_world w (fr_client f2))) cur parent).
        { exists parentId. split; [done|]. simpl. by rewrite He2. }
        destruct r2 as [[]|e2].
        + destruct (Z.ltb_spec (depth + 1) maxReplies) as [Hroom|Hfull]; [|left; lia].
          destruct (decide (tweet_id parent ∈ fr_visited f1)) as [Hseen|Hnew].
          * right. right. exists parent. split; [done|]. left. rewrite Hv2. set_solver.
          * by destruct (Hr2 Hroom Hnew) as [_ ?].
        + destruct Hr2 as [-> Hthrow]. right. right. exists parent. split; [done|].
          right. by eapply store_refused_frame.
      - injection Hadded as <- _. apply stops_at_world.
        replace (depth + Z.of_nat (length (o :: rest2) + 1))
          with (depth + 1 + Z.of_nat (length (o :: rest2))) by lia.
        by eapply Hstop2. }
    destruct r2 as [[]|e2].
    + exists (Ok tt), f2, (added2 ++ [cur]). split; [done|]. split; [done|].
      split; [intros _ _; split; [done | apply last_snoc]|].
      intros oldest rest Hadded.
      specialize (Hstop (world (fr_client f2)) oldest rest Hadded).
      by destruct f2 as [[] ? ?].
    + destruct (logged_frame LError "Error fetching parent tweet:" f2) as (w & Hlog).
      rewrite Hlog. eexists (Ok tt), _, (added2 ++ [cur]). split; [done|].
      split; [by apply walk_frame|].
      split; [intros _ _; split; [done | apply last_snoc]|].
      intros oldest rest Hadded. by apply (Hstop w oldest rest).
  - exists (Ok tt), f1, [cur]. split; [done|]. split; [exact Hsingle|].
    split; [by intros _ _|]. intros oldest rest [= <- <-].
    right. left. unfold no_parent. by rewrite Hreply, Hget.
  - destruct (logged_frame LError "Error fetching parent tweet:" f1) as (w & Hlog).
    rewrite Hlog. eexists (Ok tt), _, [cur]. split; [done|].
    split; [by apply walk_frame|].
    split; [by intros _ _|]. intros oldest rest [= <- <-].
    right. left. unfold no_parent. simpl. by rewrite Hreply, Hget.
Qed.

(** A leaf whose parent cannot be had is the whole thread. *)
Lemma processThread_leaf_only fuel maxReplies tweet (f : Frame) :
  0 < maxReplies -> tweet_id tweet ∉ fr_visited f ->
  (processThreadTweet tweet f).1 = Ok tt ->
  no_parent (ext (fr_client f)) tweet ->
  exists f', processThread (S fuel) maxReplies tweet 0 f = Some (Ok tt, f')
    /\ fr_thread f' = tweet :: fr_thread f.
Proof.
  intros Hmax Hnew Hleaf Hnone. simpl.
  destruct (Z.leb_spec maxReplies 0); [lia|]. simpl.
  rewrite bool_decide_eq_false_2 by done.
  destruct (processThreadTweet_run tweet f) as (r1 & f1 & Hrun & He1 & _ & Hfr1).
  rewrite Hrun in *. simpl in Hleaf. subst r1. destruct Hfr1 as [Ht1 _].
  unfold no_parent in Hnone. rewrite He1.
  destruct (reply_target tweet) as [parentId|]; [|by eauto].
  destruct (getTweet (ext (fr_client f)) parentId) as [[parent|]|e]; [done|by eauto|].
  destruct (logged_frame LError "Error fetching parent tweet:" f1) as (w & Hlog).
  rewrite Hlog. eexists. split; [done|]. done.
Qed.

(** C7. [buildConversationThread] returns for every tweet, limit and
    collaborator, reply cycles included: [maxReplies] nested calls and one
    more are enough. The thread has at most [maxReplies] tweets, none
    twice, the oldest first, each the looked-up parent of the next, and
    the leaf last. The walk goes on as far as it can: it stops at the
    oldest tweet of the thread only because the limit is reached, because
    the parent of that tweet cannot be looked up, because the parent is in
    the thread already, or because the parent could not be stored. So a
    parent that can be looked up and stored is in the thread, next to the
    leaf. A parent that cannot be looked up ends the walk without failing
    it: only a failure to store the leaf itself is thrown, and a leaf
    without a parent to be had is the whole thread. *)
Theorem buildConversationThread_spec (tweet : Tweet) (maxReplies : Z) (c : Client) :
  exists r c',
    (forall fuel, (Z.to_nat maxReplies < fuel)%nat ->
        buildConversationThread fuel tweet maxReplies c = Some (r, c'))
    /\ (forall e, r = Throw e ->
          (processThreadTweet tweet (mkFrame c [] ∅)).1 = Throw e)
    /\ (forall thread, r = Ok thread ->
          Z.of_nat (length thread) <= Z.max 0 maxReplies
          /\ reply_chain (ext c) thread
          /\ NoDup (tweet_id <$> thread)
          /\ (thread <> [] -> last thread = Some tweet)
          /\ (1 <= maxReplies -> last thread = Some tweet)
          /\ (1 <= maxReplies -> no_parent (ext c) tweet -> thread = [tweet])
          /\ (forall oldest rest, thread = oldest :: rest ->
                Z.of_nat (length thread) = maxReplies
                \/ no_parent (ext c) oldest
                \/ exists parent, parent_link (ext c) oldest parent
                     /\ (tweet_id parent ∈ tweet_id <$> thread
                         \/ store_refused c' parent))
          /\ (forall parent, 2 <= maxReplies -> parent_link (ext c) tweet parent ->
                tweet_id parent <> tweet_id tweet -> storable c parent ->
                exists older, thread = older ++ [parent; tweet])).
Proof.
  set (f0 := mkFrame c [] ∅).
  destruct (processThread_walk (S (Z.to_nat maxReplies)) maxReplies tweet 0 f0)
    as (r & f' & added & Hrun & Hwalk & Hr & Hstop).
  { rewrite Z.sub_0_r. lia. }
  destruct Hwalk as (Hext & Hagent & Hthread & Hvisited & Hlen & Hchain & Hnd & _ & Hlast).
  simpl in Hthread, Hext, Hagent, Hvisited. rewrite app_nil_r in Hthread.
  rewrite Z.sub_0_r in Hlen. rewrite Z.add_0_l in Hstop.
  assert (Hall : forall fuel, (Z.to_nat maxReplies < fuel)%nat ->
            processThread fuel maxReplies tweet 0 f0 = Some (r, f')).
  { intros fuel Hfuel. eapply processThread_fuel_mono; [|exact Hrun]. lia. }
  destruct r as [[]|e].
  - exists (Ok (fr_thread f')), (fr_client f'). split; [|split].
    + intros fuel Hfuel. unfold buildConversationThread. fold f0.
      by rewrite (Hall fuel Hfuel).
    + done.
    + intros thread [= <-]. rewrite Hthread.
      assert (Hleaf : 1 <= maxReplies -> last added = Some tweet).
      { intros Hmax. apply Hr; [lia | set_solver]. }
      assert (Hwhy : forall oldest rest, added = oldest :: rest ->
                Z.of_nat (length added) = maxReplies
                \/ no_parent (ext c) oldest
                \/ exists parent, parent_link (ext c) oldest parent
                     /\ (tweet_id parent ∈ tweet_id <$> added
                         \/ store_refused (fr_client f') parent)).
      { intros oldest rest Hadded.
        destruct (Hstop oldest rest Hadded) as [?|[Hnone|(parent & Hlink & Hwhy)]].
        - by left.
        - right. left. by rewrite <- Hext.
        - right. right. exists parent. rewrite <- Hext. split; [done|].
          destruct Hwhy as [Hseen|?]; [left | by right].
          rewrite Hvisited in Hseen. set_solver. }
      split; [done|]. split; [done|]. split; [done|]. split; [done|].
      split; [done|]. split; [|split; [done|]].
      * intros Hmax Hnone.
        destruct Hr as [Hok _]; [lia | set_solver |].
        destruct (processThread_leaf_only (Z.to_nat maxReplies) maxReplies tweet f0)
          as (f'' & Hrun' & Hthread'); [lia | set_solver | done | done |].
        rewrite Hrun in Hrun'. injection Hrun' as <-. by rewrite <- Hthread.
      * intros parent Hmax Hlink Hother Hstorable.
        destruct (proj1 (last_Some added tweet) (Hleaf ltac:(lia))) as [init Hinit].
        destruct init as [|p init _] using rev_ind.
        -- exfalso. simpl in Hinit.
           destruct (Hwhy tweet [] Hinit) as [Hfull|[Hnone|(q & Hq & Hstopped)]].
           ++ rewrite Hinit in Hfull. simpl in Hfull. lia.
           ++ by eapply parent_link_no_parent.
           ++ rewrite (parent_link_unique _ _ _ _ Hq Hlink) in Hstopped.
              destruct Hstopped as [Hseen|Hrefused].
              ** rewrite Hinit in Hseen. by apply list_elem_of_singleton in Hseen.
              ** by eapply storable_not_refused.
        -- rewrite <- app_assoc in Hinit. simpl in Hinit. exists init.
           rewrite Hinit in Hchain. apply reply_chain_end in Hchain.
           by rewrite (parent_link_unique _ _ _ _ Hlink Hchain).
  - exists (Throw e), (fr_client f'). split; [|split].
    + intros fuel Hfuel. unfold buildConversationThread. fold f0.
      by rewrite (Hall fuel Hfuel).
    + intros e' [= <-]. apply Hr.
    + done.
Qed.

Lemma buildConversationThread_spec_witness :
  exists r c',
    (forall fuel, (Z.to_nat 5 < fuel)%nat ->
        buildConversationThread fuel ping 5 cyclic_client = Some (r, c'))
    /\ (forall thread, r = Ok thread -> exists older, thread = older ++ [pong; ping]).
Proof.
  destruct (buildConversationThread_spec ping 5 cyclic_client)
    as (r & c' & Hrun & _ & Hthread).
  exists r, c'. split; [exact Hrun|]. intros thread Hr.
  destruct (Hthread thread Hr) as (_ & _ & _ & _ & _ & _ & _ & Hparent).
  apply Hparent.
  - lia.
  - exists "2002". split; reflexivity.
  - discriminate.
  - repeat split.
Defined.

(** With the default limit, 2 here, a longer chain is cut after two
    tweets: the leaf and its parent. *)
Example default_limit_thread :
  let leaf := reply_to "2001" "3000" "dave" in
  (fst <$> buildConversationThread_default 3 leaf cyclic_client)
  = Some (Ok [ping; leaf]).
Proof. vm_compute. reflexivity. Qed.

(** On the cycle, the walk from [ping] stops when it meets [ping] again. *)
Example cyclic_thread :
  (fst <$> buildConversationThread 6 ping 5 cyclic_client) = Some (Ok [pong; ping]).
Proof. vm_compute. reflexivity. Qed.

(** A tweet that replies to itself is a thread of one. *)
Example self_reply_thread :
  let narcissus := reply_to "2001" "2001" "bob" in
  (fst <$> buildConversationThread 6 narcissus 5 cyclic_client) = Some (Ok [narcissus]).
Proof. vm_compute. reflexivity. Qed.
End Threads.

(** ** template-manager.ts: the cooldown table *)

Section CooldownTable.
Import TemplateManager.

Lemma Map_set_keys {V} (k : string) (v : V) (m : JsMap V) :
  Map_keys (Map_set k v m)
  = if bool_decide (k ∈ Map_keys m) then Map_keys m else Map_keys m ++ [k].
Proof.
  unfold Map_keys. induction m as [|[k' v'] m IH]; csimpl; [done|].
  destruct (decide (k' = k)) as [->|Hk].
  - rewrite (bool_decide_eq_true_2 (k = k)) by done.
    rewrite bool_decide_eq_true_2; [done | apply list_elem_of_here].
  - rewrite (bool_decide_eq_false_2 (k' = k)) by done. csimpl. rewrite IH.
    destruct (decide (k ∈ m.*1)) as [Hin|Hin].
    + rewrite !bool_decide_eq_true_2; [done | by apply list_elem_of_further | done].
    + rewrite !bool_decide_eq_false_2; [done | | done].
      intros [->|?]%elem_of_cons; done.
Qed.

Lemma Map_set_NoDup {V} (k : string) (v : V) (m : JsMap V) :
  NoDup (Map_keys m) -> NoDup (Map_keys (Map_set k v m)).
Proof.
  intros Hnd. rewrite Map_set_keys. case_bool_decide as Hin; [done|].
  apply NoDup_app. split; [done|]. split; [|apply NoDup_singleton].
  by intros x Hx ->%list_elem_of_singleton.
Qed.

Lemma Map_set_size {V} (k : string) (v : V) (m : JsMap V) :
  Map_size (Map_set k v m) <= Map_size m + 1.
Proof.
  unfold Map_size.
  assert (length (Map_set k v m) = length (Map_keys (Map_set k v m))) as ->
    by (unfold Map_keys; by rewrite length_fmap).
  rewrite Map_set_keys. unfold Map_keys.
  case_bool_decide; rewrite ?length_app, !length_fmap; simpl; lia.
Qed.

Lemma Map_delete_filter {V} (k : string) (m : JsMap V) :
  NoDup (Map_keys m) -> Map_delete k m = filter (fun e => e.1 <> k) m.
Proof.
  unfold Map_keys. induction m as [|[k' v'] m IH]; intros Hnd; [done|].
  csimpl in *. apply NoDup_cons in Hnd as [Hk' Hnd]. rewrite filter_cons. csimpl.
  case_bool_decide as Hk.
  - subst k'. destruct (decide (k <> k)); [done|].
    symmetry. apply filter_all. intros [k2 v2] Hin. simpl. intros ->.
    apply Hk'. apply list_elem_of_fmap. by exists (k, v2).
  - destruct (decide (k' <> k)); [|done]. by rewrite IH.
Qed.

Lemma filter_keys_NoDup {V} (P : string * V -> Prop) `{forall e, Decision (P e)}
    (m : JsMap V) :
  NoDup (Map_keys m) -> NoDup (Map_keys (filter P m)).
Proof.
  unfold Map_keys. intros Hnd. eapply sublist_NoDup; [exact Hnd|].
  apply fmap_sublist, sublist_filter.
Qed.

Lemma delete_all_filter {V} (old m : JsMap V) :
  NoDup (Map_keys m) ->
  foldl (fun t e => Map_delete e.1 t) m old = filter (fun e => e.1 ∉ Map_keys old) m.
Proof.
  revert m. induction old as [|[k v] old IH]; intros m Hnd; csimpl.
  { symmetry. apply filter_all. intros e _ ?%elem_of_nil. done. }
  rewrite Map_delete_filter by done.
  rewrite IH by by apply filter_keys_NoDup.
  rewrite list_filter_filter. apply list_filter_iff.
  intros [k2 v2]. simpl. rewrite not_elem_of_cons. split.
  - intros [Hold Hk]. by split.
  - intros [Hk Hold]. by split.
Qed.

Lemma filter_none {A} (P : A -> Prop) `{forall x, Decision (P x)} (l : list A) :
  (forall x, x ∈ l -> ~ P x) -> filter P l = [].
Proof.
  induction l as [|x l IH]; intros Hnone; [done|].
  rewrite filter_cons_False by (apply Hnone, list_elem_of_here).
  apply IH. intros y Hy. by apply Hnone, list_elem_of_further.
Qed.

Lemma recency_consistent :
  consistent_comparator (fun a b : string * Z => b.2 - a.2).
Proof. split; intros; lia. Qed.

(** Eviction keeps the 50 most recent entries, where they stand. *)
Lemma evict_spec (table : list (string * Z)) :
  NoDup (Map_keys table) ->
  evict table = filter (fun e => e.1 ∉ Map_keys (oldEntries table)) table
  /\ evict table ≡ₚ take 50 (Array_sort (fun a b => b.2 - a.2) table).
Proof.
  intros Hnd. unfold evict. rewrite delete_all_filter by done. split; [done|].
  unfold oldEntries. set (sorted := Array_sort _ table).
  assert (Hperm : sorted ≡ₚ table) by apply Array_sort_perm.
  assert (Hkeys : NoDup (take 50 sorted).*1 /\ NoDup (drop 50 sorted).*1
                  /\ forall k, k ∈ (take 50 sorted).*1 -> k ∉ (drop 50 sorted).*1).
  { assert (Hs : NoDup sorted.*1) by (by rewrite Hperm).
    rewrite <- (take_drop 50 sorted), fmap_app in Hs.
    apply NoDup_app in Hs as (? & ? & ?). done. }
  destruct Hkeys as (_ & _ & Hdisj).
  set (old := drop 50 sorted) in *.
  set (P := fun e : string * Z => e.1 ∉ Map_keys old).
  transitivity (filter P (take 50 sorted ++ old)).
  { unfold old. rewrite take_drop. by rewrite Hperm. }
  rewrite filter_app, filter_all, filter_none, app_nil_r; [done| |].
  - intros e He Hn. apply Hn. unfold Map_keys. apply list_elem_of_fmap. by exists e.
  - intros e He. apply Hdisj. apply list_elem_of_fmap. by exists e.
Qed.

Lemma trackTemplateUse_run (name : string) (m : Manager) :
  let stamped := Map_set name (next_now (tm_world m)) (lastTemplateUse m) in
  (trackTemplateUse name m).1 = Ok tt
  /\ lastTemplateUse (trackTemplateUse name m).2
     = if 100 <? Map_size stamped then evict stamped else stamped.
Proof.
  unfold trackTemplateUse. unfold_monad. cbn -[evict Map_size Z.ltb].
  by destruct (100 <? Map_size _).
Qed.

Lemma trackTemplateUse_step (name : string) (m : Manager) :
  NoDup (Map_keys (lastTemplateUse m)) ->
  let stamped := Map_set name (next_now (tm_world m)) (lastTemplateUse m) in
  let table' := lastTemplateUse (trackTemplateUse name m).2 in
  (trackTemplateUse name m).1 = Ok tt
  /\ NoDup (Map_keys table')
  /\ Map_size table' <= 100
  /\ (Map_size stamped <= 100 -> table' = stamped)
  /\ (100 < Map_size stamped ->
        Map_size table' = 50
        /\ table' `sublist_of` stamped
        /\ forall kept evicted,
             kept ∈ table' -> evicted ∈ stamped -> evicted ∉ table' ->
             evicted.2 <= kept.2).
Proof.
  intros Hnd stamped table'.
  destruct (trackTemplateUse_run name m) as [Hok Htable]. fold stamped in Htable.
  assert (Hnd' : NoDup (Map_keys stamped)) by by apply Map_set_NoDup.
  split; [done|]. unfold table'. rewrite Htable.
  destruct (Z.ltb_spec 100 (Map_size stamped)) as [Hbig|Hsmall].
  2: { repeat split; try done; lia. }
  destruct (evict_spec stamped Hnd') as [Hfilter Hperm].
  set (sorted := Array_sort (fun a b : string * Z => b.2 - a.2) stamped) in *.
  assert (Hsize : Map_size (evict stamped) = 50).
  { unfold Map_size in *. rewrite Hperm, length_take.
    unfold sorted. rewrite Array_sort_length. lia. }
  split; [rewrite Hfilter; by apply filter_keys_NoDup|].
  split; [lia|]. split; [lia|]. intros _. split; [done|].
  split; [rewrite Hfilter; apply sublist_filter|].
  intros kept evicted Hkept Hev Hgone.
  rewrite Hperm in Hkept, Hgone.
  assert (Hold : evicted ∈ drop 50 sorted).
  { assert (Hin : evicted ∈ sorted) by (unfold sorted; by rewrite Array_sort_perm).
    rewrite <- (take_drop 50 sorted) in Hin.
    apply elem_of_app in Hin as [Hin|Hin]; done. }
  pose proof (Array_sort_sorted _ recency_consistent stamped) as Hsorted.
  fold sorted in Hsorted. rewrite <- (take_drop 50 sorted) in Hsorted.
  pose proof (StronglySorted_app_1_elem_of _ _ _ kept evicted Hsorted Hkept Hold).
  simpl in *. lia.
Qed.

Lemma trackAll_invariant (names : list string) (m : Manager) :
  NoDup (Map_keys (lastTemplateUse m)) ->
  Map_size (lastTemplateUse m) <= 100 ->
  (trackAll names m).1 = Ok tt
  /\ NoDup (Map_keys (lastTemplateUse (trackAll names m).2))
  /\ Map_size (lastTemplateUse (trackAll names m).2) <= 100.
Proof.
  revert m. induction names as [|name names IH]; intros m Hnd Hsize; [done|].
  unfold trackAll in *. rewrite for_of_cons.
  destruct (trackTemplateUse_step name m Hnd) as (Hok & Hnd' & Hsize' & _).
  destruct (trackTemplateUse name m) as [[[]|e] m']; [|done].
  by apply IH.
Qed.

(** C9. After every call of [trackTemplateUse] the table holds at most
    100 names. When the stamp takes it past 100, the 50 entries used most
    recently stay, in their order, and all older ones go. A table that
    starts empty therefore never holds more than 100 names, however many
    templates are selected. *)
Theorem cooldown_table_bounded :
  (forall (name : string) (m : Manager),
      NoDup (Map_keys (lastTemplateUse m)) ->
      let stamped := Map_set name (next_now (tm_world m)) (lastTemplateUse m) in
      let table' := lastTemplateUse (trackTemplateUse name m).2 in
      (trackTemplateUse name m).1 = Ok tt
      /\ NoDup (Map_keys table')
      /\ Map_size table' <= 100
      /\ (Map_size stamped <= 100 -> table' = stamped)
      /\ (100 < Map_size stamped ->
            Map_size table' = 50
            /\ table' `sublist_of` stamped
            /\ forall kept evicted,
                 kept ∈ table' -> evicted ∈ stamped -> evicted ∉ table' ->
                 evicted.2 <= kept.2))
  /\ (forall (names : list string) (m : Manager),
        lastTemplateUse m = [] ->
        (trackAll names m).1 = Ok tt
        /\ Map_size (lastTemplateUse (trackAll names m).2) <= 100).
Proof.
  split; [apply trackTemplateUse_step|].
  intros names m Hempty.
  destruct (trackAll_invariant names m) as (Hok & _ & Hsize).
  - rewrite Hempty. constructor.
  - by rewrite Hempty.
  - done.
Qed.

Lemma cooldown_table_bounded_witness :
  let m := Catalogs.fresh_manager ∅ (Scenarios.steady_world 0 1000) in
  (trackAll ["question"; "plain"; "question"] m).1 = Ok tt
  /\ Map_size (lastTemplateUse (trackAll ["question"; "plain"; "question"] m).2) <= 100.
Proof.
  intros m. apply (proj2 cooldown_table_bounded ["question"; "plain"; "question"] m).
  reflexivity.
Defined.

(** The table holds ["t1"] to ["t100"], used at the times 1 to 100, when
    a new name is stamped at time 101: the 51 oldest names go. *)
Example eviction_at_101 :
  let m := mkManager (Scenarios.steady_world 0 101) ∅ (Catalogs.numbered_table 100) in
  lastTemplateUse (trackTemplateUse "fresh" m).2
  = drop 51 (Catalogs.numbered_table 100) ++ [("fresh", 101)].
Proof. vm_compute. reflexivity. Qed.
End CooldownTable.

(** ** template-manager.ts: selection *)

Section Selection.
Import TemplateManager Scenarios Catalogs.

(** What [filterM] keeps came from the list and passed the predicate in
    the state the filter had reached. *)
Lemma filterM_kept {St A} (pred : A -> M St bool) (xs kept : list A) (s s' : St) :
  filterM pred xs s = (Ok kept, s') ->
  forall x, x ∈ kept -> x ∈ xs /\ exists s1 s2, pred x s1 = (Ok true, s2).
Proof.
  revert kept s s'. induction xs as [|y xs IH]; intros kept s s' Hrun x Hx.
  { injection Hrun as <- _. by apply elem_of_nil in Hx. }
  simpl in Hrun. rewrite bind_run in Hrun.
  destruct (pred y s) as [[keep|e] s1] eqn:Hy; [|done].
  rewrite bind_run in Hrun.
  destruct (filterM pred xs s1) as [[kept'|e] s2] eqn:Hrest; [|done].
  injection Hrun as <- _.
  destruct keep.
  - apply elem_of_cons in Hx as [->|Hx].
    + split; [apply list_elem_of_here | eauto].
    + destruct (IH _ _ _ Hrest x Hx). split; [by apply list_elem_of_further | done].
  - destruct (IH _ _ _ Hrest x Hx). split; [by apply list_elem_of_further | done].
Qed.

(** Whatever the comparator answers, sorting permutes. *)
Lemma sort_insertM_perm {St A} (cmp : A -> A -> M St Q) (x : A) (l r : list A) (s s' : St) :
  sort_insertM cmp x l s = (Ok r, s') -> r ≡ₚ x :: l.
Proof.
  revert r s s'. induction l as [|y l IH]; intros r s s'; simpl.
  { by intros [= <- _]. }
  rewrite bind_run. destruct (cmp x y s) as [[v|e] s1]; [|done].
  destruct (Qle_bool v 0); [by intros [= <- _]|].
  rewrite bind_run. destruct (sort_insertM cmp x l s1) as [[tail|e] s2] eqn:Htail; [|done].
  intros [= <- _]. rewrite (IH _ _ _ Htail). apply Permutation_swap.
Qed.

Lemma Array_sortM_perm {St A} (cmp : A -> A -> M St Q) (l r : list A) (s s' : St) :
  Array_sortM cmp l s = (Ok r, s') -> r ≡ₚ l.
Proof.
  revert r s s'. induction l as [|x l IH]; intros r s s'; simpl.
  { by intros [= <- _]. }
  rewrite bind_run. destruct (Array_sortM cmp l s) as [[sorted|e] s1] eqn:Hs; [|done].
  intros Hins%sort_insertM_perm. by rewrite Hins, (IH _ _ _ Hs).
Qed.

Context `{Runtime}.

Lemma every_condition_true (conds : list Condition) (context : JsValue) :
  every_condition conds context = Ok true ->
  forall c, c ∈ conds -> evaluateCondition c context = Ok true.
Proof.
  induction conds as [|c0 conds IH]; intros Hall c Hc; [by apply elem_of_nil in Hc|].
  simpl in Hall.
  destruct (evaluateCondition c0 context) as [[]|e] eqn:Hc0; try done.
  apply elem_of_cons in Hc as [->|Hc]; [done | by apply IH].
Qed.

(** A template that passes the filter of [getTemplate] satisfies all of
    its conditions. *)
Lemma eligible_conditions (context : JsValue) (t : TemplateVariation) (m m' : Manager) :
  eligible context t m = (Ok true, m') ->
  forall conds, conditions t = Some conds -> every_condition conds context = Ok true.
Proof.
  intros Hrun conds Hconds. unfold eligible in Hrun.
  rewrite bind_run in Hrun.
  destruct (isTemplateOnCooldown (name t) m) as [[[]|e] m1]; try done.
  rewrite Hconds, bind_run in Hrun. unfold await in Hrun.
  by destruct (every_condition conds context) as [[]|e].
Qed.

Lemma getTemplate_selected (type : string) (context : JsValue) (m m' : Manager)
    (t : TemplateVariation) :
  getTemplate type context m = (Ok (Some t), m') ->
  exists group, templates m !! type = Some group /\ t ∈ group
    /\ exists m1 m2, eligible context t m1 = (Ok true, m2).
Proof.
  unfold getTemplate. rewrite bind_run. cbn [gets].
  destruct (templates m !! type) as [group|]; [|done].
  rewrite bind_run.
  destruct (filterM (eligible context) group m) as [[kept|e] m1] eqn:Hfilter; [|done].
  destruct kept as [|t0 kept]; [done|].
  rewrite bind_run.
  destruct (shuffleArray (t0 :: kept) m1) as [[shuffled|e] m2] eqn:Hshuffle; [|done].
  destruct shuffled as [|selected rest]; [done|].
  rewrite bind_run.
  destruct (trackTemplateUse (name selected) m2) as [[[]|e] m3]; [|done].
  intros [= -> _]. exists group. split; [done|].
  apply Array_sortM_perm in Hshuffle.
  assert (Hin : t ∈ t0 :: kept) by (rewrite <- Hshuffle; apply list_elem_of_here).
  destruct (filterM_kept _ _ _ _ _ Hfilter t Hin). done.
Qed.

(** [includes] is the substring test. *)
Lemma is_prefix_spec (t s : string) :
  is_prefix t s = true <-> exists post, s = t +:+ post.
Proof.
  revert s. induction t as [|a t IH]; intros s.
  { split; [by exists s | done]. }
  destruct s as [|b s]; simpl.
  { split; [done | by intros [post ?]]. }
  rewrite andb_true_iff, Ascii.eqb_eq, IH. split.
  - intros [-> [post ->]]. by exists post.
  - intros [post Heq]. injection Heq as -> ->. split; [done | by exists post].
Qed.

Lemma includes_spec (s t : string) :
  includes s t = true <-> exists pre post, s = pre +:+ t +:+ post.
Proof.
  induction s as [|a s IH].
  - simpl. rewrite orb_false_r, is_prefix_spec. split.
    + intros [post ->]. by exists EmptyString, post.
    + intros (pre & post & Heq). destruct pre; [by exists post|done].
  - cbn [includes]. rewrite orb_true_iff, is_prefix_spec, IH. split.
    + intros [[post ->]|(pre & post & ->)].
      * by exists EmptyString, post.
      * by exists (String a pre), post.
    + intros (pre & post & Heq). destruct pre as [|b pre].
      * left. by exists post.
      * right. injection Heq as -> ->. by exists pre, post.
Qed.

(** What each operator computes, and that every other one fails closed. *)
Lemma evaluateCondition_cases (c : Condition) (context : JsValue) :
  let v := getFieldValue context (field c) in
  let w := cond_to_value (value c) in
  (operator c = "contains" ->
     evaluateCondition c context = Ok (includes (js_String v) (js_String w)))
  /\ (operator c = "equals" ->
        evaluateCondition c context = Ok (strict_equals v (value c)))
  /\ (operator c = "greaterThan" ->
        evaluateCondition c context = Ok (num_lt (js_Number w) (js_Number v)))
  /\ (operator c = "lessThan" ->
        evaluateCondition c context = Ok (num_lt (js_Number v) (js_Number w)))
  /\ (operator c = "matches" ->
        evaluateCondition c context = RegExp_test (js_String w) (js_String v))
  /\ (operator c ∉ ["contains"; "equals"; "greaterThan"; "lessThan"; "matches"] ->
        evaluateCondition c context = Ok false).
Proof.
  intros v w. unfold evaluateCondition. fold v w.
  repeat split; intros Hop.
  1-5: by rewrite Hop.
  repeat (rewrite not_elem_of_cons in Hop; destruct Hop as [? Hop]).
  by rewrite !bool_decide_eq_false_2.
Qed.

(** C6. A template that [getTemplate] returns belongs to the group asked
    for and, when it has a list of conditions, every one of them
    evaluates to true against the context, under one of the five known
    operators; a condition under any other operator evaluates to false,
    so a template that carries one is never returned. *)
Theorem getTemplate_conditions_hold (type : string) (context : JsValue)
    (m m' : Manager) (t : TemplateVariation) :
  getTemplate type context m = (Ok (Some t), m') ->
  (exists group, templates m !! type = Some group /\ t ∈ group)
  /\ (forall conds, conditions t = Some conds ->
        forall c, c ∈ conds ->
          evaluateCondition c context = Ok true
          /\ operator c ∈ ["contains"; "equals"; "greaterThan"; "lessThan"; "matches"])
  /\ (forall c ctx,
        let v := getFieldValue ctx (field c) in
        let w := cond_to_value (value c) in
        (operator c = "contains" ->
           evaluateCondition c ctx = Ok (includes (js_String v) (js_String w)))
        /\ (operator c = "equals" ->
              evaluateCondition c ctx = Ok (strict_equals v (value c)))
        /\ (operator c = "greaterThan" ->
              evaluateCondition c ctx = Ok (num_lt (js_Number w) (js_Number v)))
        /\ (operator c = "lessThan" ->
              evaluateCondition c ctx = Ok (num_lt (js_Number v) (js_Number w)))
        /\ (operator c = "matches" ->
              evaluateCondition c ctx = RegExp_test (js_String w) (js_String v))
        /\ (operator c ∉ ["contains"; "equals"; "greaterThan"; "lessThan"; "matches"] ->
              evaluateCondition c ctx = Ok false)).
Proof.
  intros Hrun.
  destruct (getTemplate_selected _ _ _ _ _ Hrun) as (group & Hgroup & Hin & m1 & m2 & Hel).
  split; [by exists group|]. split; [|apply evaluateCondition_cases].
  intros conds Hconds c Hc.
  pose proof (every_condition_true conds context
                (eligible_conditions _ _ _ _ Hel conds Hconds) c Hc) as Htrue.
  split; [done|].
  destruct (decide (operator c ∈ ["contains"; "equals"; "greaterThan"; "lessThan"; "matches"]))
    as [|Hunknown]; [done|].
  destruct (evaluateCondition_cases c context) as (_ & _ & _ & _ & _ & Hfalse).
  rewrite (Hfalse Hunknown) in Htrue. done.
Qed.
End Selection.

Section SelectionScenarios.
Import TemplateManager Scenarios Catalogs.

Lemma getTemplate_conditions_hold_witness :
  let m := fresh_manager reply_catalog (steady_world (1 # 4) 1000) in
  (exists group, templates m !! "reply" = Some group /\ question_template ∈ group)
  /\ (forall conds, conditions question_template = Some conds ->
        forall c, c ∈ conds ->
          evaluateCondition c busy_context = Ok true
          /\ operator c ∈ ["contains"; "equals"; "greaterThan"; "lessThan"; "matches"]).
Proof.
  intros m.
  pose proof (getTemplate_conditions_hold "reply" busy_context m
                (getTemplate "reply" busy_context m).2 question_template) as Hspec.
  destruct Hspec as (Hgroup & Hconds & _); [vm_compute; reflexivity|].
  split; [exact Hgroup | exact Hconds].
Defined.

(** A condition under an operator the switch does not know blocks its
    template, whatever the context: here the one other template wins. *)
Example unknown_operator_blocks :
  let odd := mkTemplate "odd" (Some [mkCondition "currentPost" "startsWith" (CString "w")])
               None "# odd" in
  let m := fresh_manager {[ "reply" := [odd; plain_template] ]} (steady_world (1 # 4) 1000) in
  (getTemplate "reply" busy_context m).1 = Ok (Some plain_template).
Proof. vm_compute. reflexivity. Qed.

(** A template without a probability always passes the trial, and draws
    nothing. *)
Lemma checkProbability_absent (t : TemplateVariation) (m : Manager) :
  probability t = None -> checkProbability t m = (Ok true, m).
Proof. intros Hp. unfold checkProbability. by rewrite Hp. Qed.

(** Probability 1 passes on every draw of the unit interval. *)
Lemma checkProbability_one (t : TemplateVariation) (m : Manager) :
  unit_random (tm_world m) -> probability t = Some 1%Q ->
  (checkProbability t m).1 = Ok true.
Proof.
  intros Hunit Hp. unfold checkProbability. rewrite Hp. simpl.
  unfold next_random, Qltb. destruct (Hunit (rand_pos (tm_world m))) as [_ Hlt].
  destruct (Qle_bool 1 _) eqn:Hle; [|done].
  apply Qle_bool_iff in Hle. exfalso. by eapply Qlt_not_le.
Qed.

(** Probability 0 is falsy: the test [!template.probability] lets the
    template through before any draw is made. *)
Lemma checkProbability_zero (t : TemplateVariation) (m : Manager) :
  probability t = Some 0%Q -> checkProbability t m = (Ok true, m).
Proof. intros Hp. unfold checkProbability. by rewrite Hp. Qed.

(** In the group of the scenario both templates pass the filter, on every
    draw: which of the two is returned is up to the shuffle. *)
Lemma two_way_both_eligible (context : JsValue) (w : World) :
  unit_random w ->
  (filterM (eligible context) [never_template; always_template]
     (fresh_manager two_way_catalog w)).1
  = Ok [never_template; always_template].
Proof.
  intros Hunit. cbn [filterM]. rewrite bind_run.
  change (eligible context never_template (fresh_manager two_way_catalog w))
    with (Ok true, fresh_manager two_way_catalog w).
  cbv iota beta. rewrite !bind_run.
  pose proof (checkProbability_one always_template (fresh_manager two_way_catalog w)
                Hunit eq_refl) as Hone.
  change (eligible context always_template (fresh_manager two_way_catalog w))
    with (checkProbability always_template (fresh_manager two_way_catalog w)).
  destruct (checkProbability always_template _) as [r m1]. simpl in Hone. by subst r.
Qed.

(** C1 (failing input). The group holds a template of probability 0 and
    one of probability 1, without conditions, none on cooldown. Both pass
    the filter, so the one comparison of the shuffle decides: with draws of
    1/4 its answer is negative and the template of probability 0, handed
    over first, stays first and is returned; with draws of 3/4 the other
    one is returned. (An engine that hands the pair over in the other order
    returns the template of probability 0 on the draws of 3/4 instead.) *)
Theorem zero_probability_template_returned :
  (getTemplate "general" JsUndefined
     (fresh_manager two_way_catalog (steady_world (1 # 4) 1000))).1
  = Ok (Some never_template)
  /\ probability never_template = Some 0%Q
  /\ (getTemplate "general" JsUndefined
        (fresh_manager two_way_catalog (steady_world (3 # 4) 1000))).1
     = Ok (Some always_template).
Proof. vm_compute. repeat split; reflexivity. Qed.
End SelectionScenarios.

(** ** index.ts: special interactions *)

Section SpecialInteractions.
Import TwitterManager.

Lemma drop_invalid_cons key i entries (acc : gmap string SpecialInteraction) :
  drop_invalid ((key, i) :: entries) acc
  = drop_invalid entries (if invalid i then delete key acc else acc).
Proof. reflexivity. Qed.

Lemma validate_run entries (acc : gmap string SpecialInteraction) (m : Manager) :
  exists m', validate entries acc m = (Ok (drop_invalid entries acc), m')
    /\ post m' = post m /\ interaction m' = interaction m.
Proof.
  revert acc m. induction entries as [|[key i] entries IH]; intros acc m.
  { by exists m. }
  rewrite drop_invalid_cons. simpl.
  destruct (invalid i).
  - rewrite bind_run. cbn [elizaLogger modify].
    destruct (IH (delete key acc)
                (with_world (append_log LWarn
                   ("Invalid special interaction config for " +:+ key +:+ ", skipping")
                   (world_of m)) m))
      as (m' & Hrun & Hp & Hi).
    exists m'. by rewrite Hrun.
  - apply IH.
Qed.

Lemma drop_invalid_None entries (acc : gmap string SpecialInteraction) (k : string) :
  acc !! k = None -> drop_invalid entries acc !! k = None.
Proof.
  revert acc. induction entries as [|[key i] entries IH]; intros acc Hk; [done|].
  rewrite drop_invalid_cons.
  destruct (invalid i); apply IH; [|done].
  destruct (decide (key = k)) as [->|]; [apply lookup_delete_eq|].
  by rewrite lookup_delete_ne.
Qed.

Lemma drop_invalid_dropped entries (acc : gmap string SpecialInteraction) k i :
  (k, i) ∈ entries -> invalid i = true -> drop_invalid entries acc !! k = None.
Proof.
  revert acc. induction entries as [|[key j] entries IH]; intros acc Hin Hbad.
  { by apply elem_of_nil in Hin. }
  rewrite drop_invalid_cons.
  apply elem_of_cons in Hin as [[= <- <-]|Hin].
  - rewrite Hbad. apply drop_invalid_None, lookup_delete_eq.
  - by apply IH.
Qed.

Lemma drop_invalid_kept entries (acc : gmap string SpecialInteraction) k :
  (forall i, (k, i) ∈ entries -> invalid i = false) ->
  drop_invalid entries acc !! k = acc !! k.
Proof.
  revert acc. induction entries as [|[key j] entries IH]; intros acc Hgood; [done|].
  rewrite drop_invalid_cons.
  assert (Hrest : forall i, (k, i) ∈ entries -> invalid i = false).
  { intros i Hi. apply Hgood. by apply list_elem_of_further. }
  destruct (invalid j) eqn:Hj; [|by apply IH].
  rewrite IH by done.
  destruct (decide (key = k)) as [->|]; [|by rewrite lookup_delete_ne].
  rewrite (Hgood j) in Hj; [done | apply list_elem_of_here].
Qed.

Lemma drop_invalid_valid_entries (interactions : gmap string SpecialInteraction) :
  drop_invalid (map_to_list interactions) interactions = valid_entries interactions.
Proof.
  apply map_eq. intros k. unfold valid_entries.
  destruct (interactions !! k) as [i|] eqn:Hk.
  - destruct (invalid i) eqn:Hi.
    + rewrite (drop_invalid_dropped _ _ k i); [|by apply elem_of_map_to_list|done].
      symmetry. apply map_lookup_filter_None. right.
      intros j Hj. simpl. congruence.
    + rewrite drop_invalid_kept.
      * rewrite Hk. symmetry. by apply map_lookup_filter_Some.
      * intros j Hj%elem_of_map_to_list. congruence.
  - rewrite drop_invalid_None by done.
    symmetry. apply map_lookup_filter_None. by left.
Qed.

(** The validation test, field by field. *)
Lemma invalid_fields (i : SpecialInteraction) :
  invalid i = true <->
    (handle i = None \/ handle i = Some EmptyString)
    \/ templates i = None
    \/ (probability i = None \/ exists p, probability i = Some p /\ (p == 0)%Q).
Proof.
  unfold invalid, handle_falsy, templates_falsy, probability_falsy.
  rewrite !orb_true_iff. split.
  - intros [[Hh|Ht]|Hp].
    + left. destruct (handle i) as [h|]; [|by left].
      apply bool_decide_eq_true in Hh as ->. by right.
    + right. left. by destruct (templates i).
    + right. right. destruct (probability i) as [p|]; [|by left].
      right. exists p. split; [done|]. by apply Qeq_bool_iff.
  - intros [[Hh|Hh]|[Ht|[Hp|(p & Hp & Hp0)]]].
    + left. left. by rewrite Hh.
    + left. left. by rewrite Hh.
    + left. right. by rewrite Ht.
    + right. by rewrite Hp.
    + right. rewrite Hp. by apply Qeq_bool_iff.
Qed.

(** C10 (as the code has it). [setupSpecialInteractions] never fails and
    registers the same entries with both clients. An entry is dropped when
    its probability is 0 or missing, when its handle is missing or the
    empty string, or when its templates are missing; an entry of
    probability 0 or of empty handle is dropped although
    [specialInteractionSchema] accepts it. Every other entry is registered
    as it was given, and nothing else is registered. *)
Theorem setupSpecialInteractions_spec (interactions : gmap string SpecialInteraction)
    (m : Manager) :
  let m' := (setupSpecialInteractions interactions m).2 in
  let registered := valid_entries interactions in
  (setupSpecialInteractions interactions m).1 = Ok tt
  /\ specialInteractions (post m') = registered
  /\ specialInteractions (interaction m') = registered
  /\ (forall key i, interactions !! key = Some i ->
        (probability i = None \/ exists p, probability i = Some p /\ (p == 0)%Q)
        \/ (handle i = None \/ handle i = Some EmptyString)
        \/ templates i = None ->
        registered !! key = None)
  /\ (forall key i h tps p, interactions !! key = Some i ->
        handle i = Some h -> h <> EmptyString ->
        templates i = Some tps ->
        probability i = Some p -> ~ (p == 0)%Q ->
        registered !! key = Some i)
  /\ (forall key i, registered !! key = Some i ->
        interactions !! key = Some i /\ invalid i = false)
  /\ (forall h ts tps cd,
        specialInteractionSchema (mkSpecial (Some h) ts (Some tps) (Some 0%Q) cd) = true
        /\ invalid (mkSpecial (Some h) ts (Some tps) (Some 0%Q) cd) = true)
  /\ (forall ts tps p cd,
        specialInteractionSchema (mkSpecial (Some EmptyString) ts (Some tps) (Some p) cd)
        = Qle_bool 0 p && Qle_bool p 1
        /\ invalid (mkSpecial (Some EmptyString) ts (Some tps) (Some p) cd) = true).
Proof.
  intros m' registered. unfold m', registered, setupSpecialInteractions.
  rewrite bind_run.
  destruct (validate_run (map_to_list interactions) interactions m)
    as (m1 & Hrun & Hp & Hi).
  rewrite Hrun, drop_invalid_valid_entries. cbn.
  split; [done|]. split; [done|]. split; [done|].
  split; [|split; [|split; [|split]]].
  - intros key i Hk Hdrop. apply map_lookup_filter_None. right.
    intros j Hj. simpl. assert (j = i) as -> by congruence.
    apply not_false_iff_true, invalid_fields. tauto.
  - intros key i h tps p Hk Hh Hne Ht Hpr Hp0. apply map_lookup_filter_Some.
    split; [done|]. simpl. apply not_true_iff_false. rewrite invalid_fields.
    rewrite Hh, Ht, Hpr.
    intros [[?|[= ?]]|[?|[?|(q & [= <-] & Hq)]]]; done.
  - intros key i Hk%map_lookup_filter_Some. done.
  - intros h ts tps cd. split; [done|].
    unfold invalid, probability_falsy. simpl. by rewrite orb_true_r.
  - intros ts tps p cd. split; [done|]. done.
Qed.

Lemma setupSpecialInteractions_spec_witness :
  valid_entries sample_interactions !! "muted" = None
  /\ valid_entries sample_interactions !! "nameless" = None
  /\ valid_entries sample_interactions !! "bare" = None
  /\ valid_entries loose_interactions !! "anon" = None
  /\ valid_entries loose_interactions !! "unweighted" = None
  /\ valid_entries sample_interactions !! "vitalik"
     = Some (mkSpecial (Some "VitalikButerin") ["eth"] (Some ["prophecy"]) (Some (1 # 2)) None).
Proof.
  destruct (setupSpecialInteractions_spec sample_interactions fresh_twitter_manager)
    as (_ & _ & _ & Hdropped & Hkept & _).
  destruct (setupSpecialInteractions_spec loose_interactions fresh_twitter_manager)
    as (_ & _ & _ & Hloose & _).
  split; [|split; [|split; [|split; [|split]]]].
  - eapply Hdropped; [reflexivity|]. left. right. eexists. split; reflexivity.
  - eapply Hdropped; [reflexivity|]. right. left. by left.
  - eapply Hdropped; [reflexivity|]. right. by right.
  - eapply Hloose; [reflexivity|]. right. left. by right.
  - eapply Hloose; [reflexivity|]. left. by left.
  - apply (Hkept "vitalik" _ "VitalikButerin" ["prophecy"] (1 # 2));
      [reflexivity | reflexivity | discriminate | reflexivity | reflexivity | discriminate].
Defined.

(** C10 (counterexample). The entry ["anon"] has a handle (the empty
    string), templates and the probability 1/2, and the schema accepts it;
    the entry ["unweighted"] has a handle and templates and lacks only the
    probability. Neither is of probability 0, neither lacks its handle or
    its templates, and neither is registered with either client. *)
Lemma empty_handle_is_dropped :
  let anon := mkSpecial (Some EmptyString) ["eth"] (Some ["roast"]) (Some (1 # 2)) None in
  let unweighted := mkSpecial (Some "cz_binance") [] (Some ["roast"]) None None in
  let m' := (setupSpecialInteractions loose_interactions fresh_twitter_manager).2 in
  loose_interactions !! "anon" = Some anon
  /\ loose_interactions !! "unweighted" = Some unweighted
  /\ specialInteractionSchema anon = true
  /\ specialInteractions (post m') = ∅
  /\ specialInteractions (interaction m') = ∅.
Proof. vm_compute. repeat split; reflexivity. Qed.

(** On the sample file only the entry of vitalik reaches the clients. *)
Example sample_registered :
  let m' := (setupSpecialInteractions sample_interactions fresh_twitter_manager).2 in
  dom (specialInteractions (post m')) = {[ "vitalik" ]}
  /\ specialInteractions (interaction m') = specialInteractions (post m').
Proof. vm_compute. split; reflexivity. Qed.
End SpecialInteractions.

(** ** interactions.ts: the sweep of the tracking maps *)

Section Sweep.
Import Interactions Scenarios Tracking.

(** Deleting the keys of the entries that satisfy a test. *)
Lemma fold_delete_None {V W} (P : string * W -> bool) (entries : list (string * W))
    (m : gmap string V) (k : string) :
  m !! k = None ->
  foldl (fun acc e => if P e then delete e.1 acc else acc) m entries !! k = None.
Proof.
  revert m. induction entries as [|e entries IH]; intros m Hk; [done|].
  simpl. apply IH. destruct (P e); [|done].
  destruct (decide (e.1 = k)) as [->|]; [apply lookup_delete_eq|].
  by rewrite lookup_delete_ne.
Qed.

Lemma fold_delete_hit {V W} (P : string * W -> bool) (entries : list (string * W))
    (m : gmap string V) (k : string) (w : W) :
  (k, w) ∈ entries -> P (k, w) = true ->
  foldl (fun acc e => if P e then delete e.1 acc else acc) m entries !! k = None.
Proof.
  revert m. induction entries as [|e entries IH]; intros m Hin Hp.
  { by apply elem_of_nil in Hin. }
  simpl. apply elem_of_cons in Hin as [<-|Hin]; [|by apply IH].
  rewrite Hp. apply fold_delete_None. simpl. apply lookup_delete_eq.
Qed.

Lemma fold_delete_miss {V W} (P : string * W -> bool) (entries : list (string * W))
    (m : gmap string V) (k : string) :
  (forall w, (k, w) ∈ entries -> P (k, w) = false) ->
  foldl (fun acc e => if P e then delete e.1 acc else acc) m entries !! k = m !! k.
Proof.
  revert m. induction entries as [|[k' w'] entries IH]; intros m Hmiss; [done|].
  simpl. rewrite IH.
  - destruct (P (k', w')) eqn:Hp; [|done].
    destruct (decide (k' = k)) as [->|]; [|by rewrite lookup_delete_ne].
    rewrite Hmiss in Hp; [done | apply list_elem_of_here].
  - intros w Hw. apply Hmiss. by apply list_elem_of_further.
Qed.

(** The loop over [lastReplyTime] seen from each of the two maps. *)
Lemma sweep_user_maps (oneDayAgo : Z) (entries : list (string * Z)) (c : Client) :
  let c' := foldl (sweep_user oneDayAgo) c entries in
  let stale := fun e : string * Z => e.2 <? oneDayAgo in
  lastReplyTime c'
  = foldl (fun acc e => if stale e then delete e.1 acc else acc) (lastReplyTime c) entries
  /\ recentReplies c'
     = foldl (fun acc e => if stale e then delete e.1 acc else acc) (recentReplies c) entries
  /\ threadReplies c' = threadReplies c
  /\ limits c' = limits c /\ lastCheckedTweetId c' = lastCheckedTweetId c
  /\ world c' = world c /\ ext c' = ext c.
Proof.
  revert c. induction entries as [|e entries IH]; intros c; [done|].
  simpl. destruct (IH (sweep_user oneDayAgo c e)) as (-> & -> & -> & -> & -> & -> & ->).
  unfold sweep_user. by destruct (e.2 <? oneDayAgo).
Qed.

Lemma sweep_special_lookup (oneDayAgo : Z) (keys : list string) (last : gmap string Z)
    (k : string) :
  foldl (sweep_special oneDayAgo) last keys !! k
  = match last !! k with
    | Some ts => if (ts <? oneDayAgo) && bool_decide (k ∈ keys) then None else Some ts
    | None => None
    end.
Proof.
  revert last. induction keys as [|key keys IH]; intros last.
  { simpl. destruct (last !! k); [|done]. by rewrite andb_false_r. }
  simpl. rewrite IH. unfold sweep_special.
  destruct (decide (key = k)) as [->|Hne].
  - rewrite (bool_decide_eq_true_2 (k ∈ k :: keys)) by apply list_elem_of_here.
    destruct (last !! k) as [ts|] eqn:Hk; [|by rewrite Hk].
    destruct (ts <? oneDayAgo) eqn:Hts.
    + by rewrite lookup_delete_eq.
    + by rewrite Hk, Hts.
  - assert (Hsame : (match last !! key with
                     | Some timestamp =>
                         if timestamp <? oneDayAgo then delete key last else last
                     | None => last
                     end) !! k = last !! k).
    { destruct (last !! key) as [ts'|]; [|done].
      destruct (ts' <? oneDayAgo); [by rewrite lookup_delete_ne | done]. }
    rewrite Hsame. destruct (last !! k) as [ts|]; [|done].
    destruct (ts <? oneDayAgo); [|done]. simpl.
    destruct (decide (k ∈ keys)) as [Hin|Hout].
    + rewrite !bool_decide_eq_true_2; [done | by apply list_elem_of_further | done].
    + rewrite !bool_decide_eq_false_2; [done | | done].
      intros [?|?]%elem_of_cons; done.
Qed.

Lemma cleanupTrackingMaps_effect (t : Tracker) :
  let c := tr_client t in
  let oneDayAgo := next_now (world c) - 86400000 in
  exists t', cleanupTrackingMaps t = (Ok tt, t')
    /\ lastReplyTime (tr_client t')
       = filter (fun e => oneDayAgo <= e.2) (lastReplyTime c)
    /\ (forall u ts, lastReplyTime c !! u = Some ts -> ts < oneDayAgo ->
          recentReplies (tr_client t') !! u = None)
    /\ (forall u, (forall ts, lastReplyTime c !! u = Some ts -> oneDayAgo <= ts) ->
          recentReplies (tr_client t') !! u = recentReplies c !! u)
    /\ threadReplies (tr_client t') = ∅
    /\ TwitterManager.lastSpecialInteraction (tr_registry t')
       = filter (fun e => oneDayAgo <= e.2)
           (TwitterManager.lastSpecialInteraction (tr_registry t))
    /\ TwitterManager.specialInteractions (tr_registry t')
       = TwitterManager.specialInteractions (tr_registry t)
    /\ limits (tr_client t') = limits c
    /\ lastCheckedTweetId (tr_client t') = lastCheckedTweetId c
    /\ clock_pos (world (tr_client t')) = S (clock_pos (world c)).
Proof.
  intros c oneDayAgo. unfold cleanupTrackingMaps. unfold_monad.
  cbn -[foldl map_to_list Z.mul].
  eexists. split; [reflexivity|].
  cbn -[foldl map_to_list Z.mul].
  change (24 * 60 * 60 * 1000) with 86400000.
  fold c. fold oneDayAgo.
  set (c0 := set_world (advance_clock (world c)) c).
  destruct (sweep_user_maps oneDayAgo (map_to_list (lastReplyTime c0)) c0)
    as (Hlast & Hrecent & Hthread & Hlim & Hmark & Hworld & Hext).
  cbv zeta in Hlast, Hrecent, Hthread, Hlim, Hmark, Hworld.
  change (lastReplyTime c0) with (lastReplyTime c) in *.
  change (recentReplies c0) with (recentReplies c) in *.
  split; [|split; [|split; [|split; [|split; [|split; [|split; [|split]]]]]]].
  - rewrite Hlast. apply map_eq. intros k.
    destruct (lastReplyTime c !! k) as [ts|] eqn:Hk.
    + destruct (Z.ltb_spec ts oneDayAgo) as [Hold|Hnew].
      * rewrite (fold_delete_hit _ _ _ k ts);
          [| by apply elem_of_map_to_list | by apply Z.ltb_lt].
        symmetry. apply map_lookup_filter_None. right. intros ts' Hts'. simpl.
        assert (ts' = ts) as -> by congruence. lia.
      * rewrite fold_delete_miss.
        -- rewrite Hk. symmetry. by apply map_lookup_filter_Some.
        -- intros w Hw%elem_of_map_to_list. simpl.
           assert (w = ts) as -> by congruence. by apply Z.ltb_ge.
    + rewrite fold_delete_None by done.
      symmetry. apply map_lookup_filter_None. by left.
  - intros u ts Hu Hold. rewrite Hrecent.
    apply (fold_delete_hit _ _ _ u ts); [by apply elem_of_map_to_list|].
    by apply Z.ltb_lt.
  - intros u Hu. rewrite Hrecent. apply fold_delete_miss.
    intros w Hw%elem_of_map_to_list. simpl. apply Z.ltb_ge. by apply Hu.
  - done.
  - apply map_eq. intros k. rewrite sweep_special_lookup.
    destruct (TwitterManager.lastSpecialInteraction (tr_registry t) !! k) as [ts|] eqn:Hk.
    + rewrite bool_decide_eq_true_2.
      2: { apply list_elem_of_fmap. exists (k, ts). split; [done|].
           by apply elem_of_map_to_list. }
      rewrite andb_true_r.
      destruct (Z.ltb_spec ts oneDayAgo) as [Hold|Hnew]; symmetry.
      * apply map_lookup_filter_None. right. intros ts' Hts'. simpl.
        assert (ts' = ts) as -> by congruence. lia.
      * by apply map_lookup_filter_Some.
    + symmetry. apply map_lookup_filter_None. by left.
  - done.
  - by rewrite Hlim.
  - by rewrite Hmark.
  - by rewrite Hworld.
Qed.

(** X1. The daily sweep reads the clock once and never fails. A user whose
    last reply is more than a day old loses both the time and the count; a
    user with a more recent reply, or without a recorded time, keeps what
    is recorded. Every thread count is dropped, whatever its age, and the
    special-interaction times older than a day are dropped as well. Limits
    and the high-water mark are left alone. *)
Theorem cleanupTrackingMaps_spec (t : Tracker) :
  let c := tr_client t in
  let oneDayAgo := next_now (world c) - 86400000 in
  exists t', cleanupTrackingMaps t = (Ok tt, t')
    /\ lastReplyTime (tr_client t')
       = filter (fun e => oneDayAgo <= e.2) (lastReplyTime c)
    /\ (forall u ts, lastReplyTime c !! u = Some ts -> ts < oneDayAgo ->
          recentReplies (tr_client t') !! u = None)
    /\ (forall u, (forall ts, lastReplyTime c !! u = Some ts -> oneDayAgo <= ts) ->
          recentReplies (tr_client t') !! u = recentReplies c !! u)
    /\ threadReplies (tr_client t') = ∅
    /\ TwitterManager.lastSpecialInteraction (tr_registry t')
       = filter (fun e => oneDayAgo <= e.2)
           (TwitterManager.lastSpecialInteraction (tr_registry t))
    /\ TwitterManager.specialInteractions (tr_registry t')
       = TwitterManager.specialInteractions (tr_registry t)
    /\ limits (tr_client t') = limits c
    /\ lastCheckedTweetId (tr_client t') = lastCheckedTweetId c
    /\ clock_pos (world (tr_client t')) = S (clock_pos (world c)).
Proof. exact (cleanupTrackingMaps_effect t). Qed.

(** Three days in: alice, last answered on day one, is forgotten; bob,
    answered a second ago, keeps his count; the thread count is gone; the
    special interaction that was only registered (time 0) is gone too. *)
Example sweep_busy_tracker :
  let t' := (cleanupTrackingMaps busy_tracker).2 in
  recentReplies (tr_client t') = {[ "bob" := 1 ]}
  /\ lastReplyTime (tr_client t') = {[ "bob" := 3 * day - 1000 ]}
  /\ threadReplies (tr_client t') = ∅
  /\ TwitterManager.lastSpecialInteraction (tr_registry t') = {[ "later" := 3 * day ]}.
Proof. vm_compute. repeat split; reflexivity. Qed.
End Sweep.

(** ** interactions.ts: admission, quotas and the mark over a whole check *)

Section Quota.
Import Interactions Scenarios Tracking.

Lemma shouldProcessTweet_run (t : Tweet) (c : Client) :
  let user_ok := (count_of c (userId t) <? maxRepliesPerUser (limits c))
                 && (minTimeBetweenReplies (limits c)
                       <=? next_now (world c) - last_of c (userId t)) in
  let thread_ok := thread_count_of c (conversationId t) <? maxRepliesPerThread (limits c) in
  let c1 := set_world (advance_clock (world c)) c in
  let c2 := set_world (advance_random (world c1)) c1 in
  shouldProcessTweet t c =
    if user_ok && thread_ok then
      if Qltb (replyProbability (limits c)) (next_random (world c))
      then (Ok false,
            logged LLog ("Skipping tweet due to probability check " +:+ permanentUrl t) c2)
      else (Ok true, c2)
    else (Ok false, logged LLog ("Skipping tweet due to rate limits " +:+ permanentUrl t) c1).
Proof.
  cbv zeta. unfold shouldProcessTweet. rewrite bind_run, canReplyToUser_run.
  destruct (_ && _) eqn:Huser; cbn [andb].
  - unfold canReplyInThread, thread_count_of. unfold_monad. cbn -[String.append Z.ltb].
    destruct (default 0 (threadReplies c !! conversationId t)
                <? maxRepliesPerThread (limits c)); cbn -[String.append]; [|done].
    unfold next_random. cbn -[String.append].
    by destruct (Qltb _ _).
  - done.
Qed.

Lemma updateInteractionTracking_effect (c : Client) (u cv : string) :
  updateInteractionTracking u cv c =
    (Ok tt,
     set_lastReplyTime (<[u := next_now (world c)]> (lastReplyTime c))
       (set_world (advance_clock (world c))
          (set_threadReplies (<[cv := thread_count_of c cv + 1]> (threadReplies c))
             (set_recentReplies (<[u := count_of c u + 1]> (recentReplies c)) c)))).
Proof. reflexivity. Qed.

Lemma handleTweet_preserves_tracked t thread :
  preserves (fun c => (tracked c, ext c)) (handleTweet t thread).
Proof. unfold handleTweet, trackInteraction. preserve. Qed.

(** What an admitted candidate leaves behind: the part of
    [processTweetCandidate] that follows the test against the mark. *)
Lemma admitted_candidate_effect (t : Tweet) (c : Client) :
  let c' := ((admitted ← shouldProcessTweet t;
              if negb admitted then mret tt
              else processSingleTweet t;;
                   n ← BigInt (tweet_id t);
                   modify (set_lastCheckedTweetId (Some n))) c).2 in
  let u := userId t in
  let cv := conversationId t in
  limits c' = limits c
  /\ ((recentReplies c' = recentReplies c /\ threadReplies c' = threadReplies c
       /\ lastReplyTime c' = lastReplyTime c)
      \/ (count_of c u < maxRepliesPerUser (limits c)
          /\ thread_count_of c cv < maxRepliesPerThread (limits c)
          /\ recentReplies c' = <[u := count_of c u + 1]> (recentReplies c)
          /\ threadReplies c' = <[cv := thread_count_of c cv + 1]> (threadReplies c)))
  /\ (lastCheckedTweetId c' = lastCheckedTweetId c
      \/ exists n, StringToBigInt (tweet_id t) = Some n /\ lastCheckedTweetId c' = Some n).
Proof.
  cbv zeta. rewrite bind_run, shouldProcessTweet_run. cbv zeta.
  destruct (_ && _) eqn:Hok.
  2: { split; [done|]. split; left; done. }
  destruct (Qltb _ _).
  { split; [done|]. split; left; done. }
  apply andb_true_iff in Hok as [[Hcount _]%andb_true_iff Hthread].
  apply Z.ltb_lt in Hcount, Hthread.
  cbn [negb]. rewrite bind_run, processSingleTweet_run. cbv zeta.
  set (c2 := set_world _ (set_world _ c)).
  set (c0 := logged _ _ c2).
  change (ext c2) with (ext c).
  destruct (ensureConnection (ext c) t) as [e|].
  { split; [done|]. split; left; done. }
  destruct (utils_buildConversationThread (ext c) t) as [thread|e].
  2: { split; [done|]. split; left; done. }
  pose proof (handleTweet_preserves_tracked t thread c0) as Hp.
  destruct (handleTweet t thread c0) as [[[content act]|e] c3]; simpl in Hp.
  2: { injection Hp as Hr Ht Hl Hlim Hm He. split; [done|]. split; left; done. }
  injection Hp as Hr Ht Hl Hlim Hm He.
  assert (Hidle : forall c4, limits c4 = limits c ->
            lastCheckedTweetId c4 = lastCheckedTweetId c ->
            let c' := ((n ← BigInt (tweet_id t);
                        modify (set_lastCheckedTweetId (Some n))) c4).2 in
            limits c' = limits c
            /\ recentReplies c' = recentReplies c4
            /\ threadReplies c' = threadReplies c4
            /\ lastReplyTime c' = lastReplyTime c4
            /\ (lastCheckedTweetId c' = lastCheckedTweetId c
                \/ exists n, StringToBigInt (tweet_id t) = Some n
                     /\ lastCheckedTweetId c' = Some n)).
  { intros c4 Hlim4 Hm4. cbv zeta.
    unfold BigInt. destruct (StringToBigInt (tweet_id t)) as [n|]; simpl.
    - split; [congruence|]. do 3 (split; [done|]). right. by exists n.
    - split; [congruence|]. do 3 (split; [done|]). left. congruence. }
  destruct act; cbv beta iota.
  - rewrite updateInteractionTracking_effect. cbv beta iota.
    match goal with |- context [(BigInt _ ≫= _) ?c4] => set (c5 := c4) end.
    destruct (Hidle c5) as (Hl5 & Hr5 & Ht5 & _ & Hm5); [done..|].
    split; [done|]. split; [|done]. right.
    split; [done|]. split; [done|]. rewrite Hr5, Ht5. unfold c5. simpl.
    unfold count_of, thread_count_of. by rewrite Hr, Ht.
  - destruct (Hidle c3) as (Hl5 & Hr5 & Ht5 & Hlast5 & Hm5); [done..|].
    split; [done|]. split; [|done]. left. split; [|split]; congruence.
  - destruct (Hidle c3) as (Hl5 & Hr5 & Ht5 & Hlast5 & Hm5); [done..|].
    split; [done|]. split; [|done]. left. split; [|split]; congruence.
Qed.

Lemma processTweetCandidate_effect (t : Tweet) (c : Client) :
  let c' := (processTweetCandidate t c).2 in
  let u := userId t in
  let cv := conversationId t in
  limits c' = limits c
  /\ ((recentReplies c' = recentReplies c /\ threadReplies c' = threadReplies c
       /\ lastReplyTime c' = lastReplyTime c)
      \/ (count_of c u < maxRepliesPerUser (limits c)
          /\ thread_count_of c cv < maxRepliesPerThread (limits c)
          /\ recentReplies c' = <[u := count_of c u + 1]> (recentReplies c)
          /\ threadReplies c' = <[cv := thread_count_of c cv + 1]> (threadReplies c)))
  /\ (lastCheckedTweetId c' = lastCheckedTweetId c
      \/ exists n, StringToBigInt (tweet_id t) = Some n /\ lastCheckedTweetId c' = Some n
           /\ newer_than_mark c n).
Proof.
  cbv zeta.
  pose proof (admitted_candidate_effect t c) as Hk. cbv zeta in Hk.
  unfold processTweetCandidate. rewrite bind_run. cbn [gets].
  rewrite (bind_run (if mark_unset _ then _ else _)).
  destruct (mark_unset (lastCheckedTweetId c)) eqn:Hunset.
  - cbn [mret M_ret]. cbv iota.
    destruct Hk as (Hl & Htr & Hm). split; [done|]. split; [done|].
    destruct Hm as [Hm|(n & Hn & Hm)]; [by left|].
    right. exists n. split; [done|]. split; [done|]. by left.
  - assert (Hn : (BigInt (tweet_id t) : M Client Z) c
                 = match StringToBigInt (tweet_id t) with
                   | Some n => (Ok n, c)
                   | None => (Throw (SyntaxError ("Cannot convert " +:+ tweet_id t
                                                    +:+ " to a BigInt")), c)
                   end).
    { unfold BigInt. by destruct (StringToBigInt (tweet_id t)). }
    rewrite bind_run, Hn.
    destruct (StringToBigInt (tweet_id t)) as [n|] eqn:Hid.
    2: { split; [done|]. split; left; done. }
    cbn [mret M_ret].
    destruct (Z.ltb_spec (default 0 (lastCheckedTweetId c)) n) as [Hlt|Hge].
    2: { split; [done|]. split; left; done. }
    destruct Hk as (Hl & Htr & Hm). split; [done|]. split; [done|].
    destruct Hm as [Hm|(n' & Hn' & Hm)]; [by left|].
    right. exists n'. split; [done|]. split; [done|]. right. congruence.
Qed.

(** *** Invariants along a computation *)

Lemma maintains_of_preserves {St A B} (proj : St -> B) (I : St -> Prop) (m : M St A) :
  (forall s s', proj s' = proj s -> I s -> I s') -> preserves proj m -> maintains I m.
Proof. intros Hproj Hm s Hs. by apply (Hproj s), Hs. Qed.

Lemma maintains_ret {St A} (I : St -> Prop) (a : A) : maintains I (mret a : M St A).
Proof. by intros s Hs. Qed.

Lemma maintains_bind {St A C} (I : St -> Prop) (m : M St A) (k : A -> M St C) :
  maintains I m -> (forall a, maintains I (k a)) -> maintains I (m ≫= k).
Proof.
  intros Hm Hk s Hs. rewrite bind_run. specialize (Hm s Hs).
  destruct (m s) as [[a|e] s']; simpl in *; [|done].
  by apply Hk.
Qed.

Lemma maintains_try_catch {St A} (I : St -> Prop) (body : M St A)
    (handler : JsError -> M St A) :
  maintains I body -> (forall e, maintains I (handler e)) ->
  maintains I (try_catch body handler).
Proof.
  intros Hb Hh s Hs. unfold try_catch. specialize (Hb s Hs).
  destruct (body s) as [[a|e] s']; simpl in *; [done|].
  by apply Hh.
Qed.

Lemma maintains_for_of {St A} (I : St -> Prop) (xs : list A) (body : A -> M St unit) :
  (forall x, maintains I (body x)) -> maintains I (for_of xs body).
Proof.
  intros Hb. induction xs as [|x xs IH]; [apply maintains_ret|].
  simpl. apply maintains_bind; [apply Hb | intros _; apply IH].
Qed.

(** An invariant of the tracked part that every candidate maintains holds
    after a whole check, after a turn of the loop, and after any number of
    firings of the timer. *)
Lemma check_maintains (I : Client -> Prop) lc :
  (forall c c', tracked c' = tracked c -> I c -> I c') ->
  (forall t, maintains I (processTweetCandidate t)) ->
  maintains I (handleTwitterInteractions lc).
Proof.
  intros Hproj Hcand.
  assert (Hp : forall A (m : M Client A), preserves tracked m -> maintains I m).
  { intros A m Hm. by eapply maintains_of_preserves. }
  unfold handleTwitterInteractions.
  apply maintains_bind; [apply Hp; preserve | intros _].
  apply maintains_try_catch; [|intros e; apply Hp; preserve].
  unfold checkCandidates.
  apply maintains_bind; [apply Hp; unfold fetchAndFilterTweets; preserve | intros batch].
  apply maintains_bind; [apply Hp; preserve | intros heap].
  apply maintains_bind; [apply maintains_for_of; intros r; apply Hcand | intros _].
  apply Hp. preserve.
Qed.

Lemma start_maintains (I : Client -> Prop) lc n :
  (forall c c', tracked c' = tracked c -> I c -> I c') ->
  (forall t, maintains I (processTweetCandidate t)) ->
  maintains I (start lc n).
Proof.
  intros Hproj Hcand.
  assert (Hp : forall A (m : M Client A), preserves tracked m -> maintains I m).
  { intros A m Hm. by eapply maintains_of_preserves. }
  assert (Hturn : maintains I (handleInteractions lc)).
  { unfold handleInteractions.
    apply maintains_bind; [by apply check_maintains | intros _]. apply Hp. preserve. }
  unfold start. apply maintains_bind; [done | intros _].
  induction n as [|n IH]; [apply maintains_ret|].
  cbn [fire_timers]. apply maintains_bind.
  - unfold fire_timer. apply maintains_bind; [apply Hp; preserve | intros ts].
    destruct ts as [|d rest]; [apply maintains_ret|].
    apply maintains_bind; [apply Hp; preserve | intros _].
    apply maintains_bind; [done | intros _; apply maintains_ret].
  - intros [|]; [|apply maintains_ret].
    apply maintains_bind; [done | intros turns; apply maintains_ret].
Qed.

(** X2. However many turns the loop runs and whatever the collaborators
    answer, the count of replies to a user never goes above the larger of
    [maxRepliesPerUser] and what it was at the start, and likewise the
    count of a thread against [maxRepliesPerThread]; the limits themselves
    are never changed. *)
Theorem quota_never_exceeded (lc : string -> string -> Z) (n : nat) (c : Client)
    (u cv : string) :
  let c' := (start lc n c).2 in
  count_of c' u <= Z.max (count_of c u) (maxRepliesPerUser (limits c))
  /\ thread_count_of c' cv
     <= Z.max (thread_count_of c cv) (maxRepliesPerThread (limits c))
  /\ limits c' = limits c.
Proof.
  set (I := fun c' : Client =>
    count_of c' u <= Z.max (count_of c u) (maxRepliesPerUser (limits c))
    /\ thread_count_of c' cv
       <= Z.max (thread_count_of c cv) (maxRepliesPerThread (limits c))
    /\ limits c' = limits c).
  apply (start_maintains I lc n).
  - intros c1 c2 [= Hr Ht Hl Hlim Hm] (Hu & Hcv & Hlimits).
    unfold I, count_of, thread_count_of. rewrite Hr, Ht, Hlim. done.
  - intros t c1 (Hu & Hcv & Hlimits).
    destruct (processTweetCandidate_effect t c1) as (Hl & Htr & _).
    unfold I. rewrite Hl. split; [|split; [|done]].
    + destruct Htr as [(Hr & _ & _)|(Hcount & _ & Hr & _)].
      * unfold count_of in *. by rewrite Hr.
      * unfold count_of at 1. rewrite Hr.
        destruct (decide (userId t = u)) as [<-|Hne].
        -- rewrite lookup_insert_eq. simpl. rewrite Hlimits in Hcount. lia.
        -- by rewrite lookup_insert_ne.
    + destruct Htr as [(_ & Ht & _)|(_ & Hcount & _ & Ht)].
      * unfold thread_count_of in *. by rewrite Ht.
      * unfold thread_count_of at 1. rewrite Ht.
        destruct (decide (conversationId t = cv)) as [<-|Hne].
        -- rewrite lookup_insert_eq. simpl. rewrite Hlimits in Hcount. lia.
        -- by rewrite lookup_insert_ne.
  - unfold I. split; [lia|]. split; [lia | done].
Qed.

(** X3. Once the high-water mark holds a positive id it never moves back:
    after any number of turns it holds an id at least as large. A
    candidate whose id is not above the mark is skipped without a trace:
    no filter runs, no draw is made, nothing is logged. *)
Theorem mark_never_moves_back :
  (forall (lc : string -> string -> Z) (n : nat) (c : Client) (m : Z),
      lastCheckedTweetId c = Some m -> 0 < m ->
      exists m', lastCheckedTweetId (start lc n c).2 = Some m' /\ m <= m')
  /\ (forall (t : Tweet) (c : Client) (n m : Z),
        StringToBigInt (tweet_id t) = Some n ->
        lastCheckedTweetId c = Some m -> m <> 0 -> n <= m ->
        processTweetCandidate t c = (Ok tt, c)).
Proof.
  split.
  - intros lc n c m Hmark Hpos.
    set (I := fun c' : Client => exists m', lastCheckedTweetId c' = Some m' /\ m <= m').
    apply (start_maintains I lc n).
    + intros c1 c2 [= Hr Ht Hl Hlim Hm] (m' & Hm' & Hle).
      exists m'. by rewrite Hm.
    + intros t c1 (m' & Hm' & Hle).
      destruct (processTweetCandidate_effect t c1) as (_ & _ & Hm).
      destruct Hm as [Hm|(k & Hk & Hm & Hnew)].
      * exists m'. by rewrite Hm.
      * exists k. split; [done|]. unfold newer_than_mark in Hnew.
        rewrite Hm' in Hnew. simpl in Hnew.
        destruct Hnew as [Hzero%Z.eqb_eq|Hlt]; lia.
    + exists m. split; [done | lia].
  - intros t c n m Hid Hmark Hset Hle. unfold processTweetCandidate.
    rewrite bind_run. cbn [gets]. rewrite Hmark. cbn [mark_unset].
    destruct (Z.eqb_spec m 0) as [|_]; [done|].
    rewrite !bind_run. unfold BigInt. rewrite Hid. cbn [mret M_ret default]. unfold id.
    destruct (Z.ltb_spec m n); [lia | done].
Qed.

Lemma mark_never_moves_back_witness :
  exists m', lastCheckedTweetId (start code_unit_compare 2 moody_client).2 = Some m'
    /\ 1000 <= m'.
Proof.
  apply (proj1 mark_never_moves_back code_unit_compare 2%nat moody_client 1000).
  - reflexivity.
  - lia.
Defined.

(** X4. [shouldProcessTweet] never throws and changes nothing that is
    tracked. It admits a candidate exactly when the user is below the cap
    and past the minimal interval, the thread is below its cap, and the
    draw is at most [replyProbability]. It reads the clock once; the draw
    is made only when the rate limits let the candidate through. *)
Theorem shouldProcessTweet_admission (t : Tweet) (c : Client) :
  let within_limits :=
    count_of c (userId t) < maxRepliesPerUser (limits c)
    /\ minTimeBetweenReplies (limits c) <= next_now (world c) - last_of c (userId t)
    /\ thread_count_of c (conversationId t) < maxRepliesPerThread (limits c) in
  exists admitted c1,
    shouldProcessTweet t c = (Ok admitted, c1)
    /\ tracked c1 = tracked c
    /\ (admitted = true <->
        within_limits /\ (next_random (world c) <= replyProbability (limits c))%Q)
    /\ clock_pos (world c1) = S (clock_pos (world c))
    /\ (within_limits -> rand_pos (world c1) = S (rand_pos (world c)))
    /\ (~ within_limits -> rand_pos (world c1) = rand_pos (world c)).
Proof.
  cbv zeta. rewrite shouldProcessTweet_run. cbv zeta.
  destruct (Z.ltb_spec (count_of c (userId t)) (maxRepliesPerUser (limits c)));
    destruct (Z.leb_spec (minTimeBetweenReplies (limits c))
                (next_now (world c) - last_of c (userId t)));
    destruct (Z.ltb_spec (thread_count_of c (conversationId t))
                (maxRepliesPerThread (limits c)));
    cbn [andb].
  1: { unfold Qltb. destruct (Qle_bool _ _) eqn:Hdraw; cbn [negb].
       - do 2 eexists. split; [reflexivity|]. split; [done|].
         apply Qle_bool_iff in Hdraw.
         split; [split; [intros _; repeat split; assumption | done]|].
         split; [done|]. split; [done|]. intros Hnot. destruct Hnot. by repeat split.
       - do 2 eexists. split; [reflexivity|]. split; [done|].
         split; [split; [done | intros [_ Hle%Qle_bool_iff]; congruence]|].
         split; [done|]. split; [done|]. intros Hnot. destruct Hnot. by repeat split. }
  all: do 2 eexists; (split; [reflexivity|]); (split; [done|]);
    (split; [split; [done | intros [(? & ? & ?) _]; lia]|]);
    (split; [done|]); (split; [intros (? & ? & ?); lia | done]).
Qed.

(** X5. Recording a reply starts the interval and counts against the cap:
    right after [updateInteractionTracking] for a user at time [t0], the
    limiter lets the user through at time [t1] exactly when the count, one
    more than before, is still below [maxRepliesPerUser] and at least
    [minTimeBetweenReplies] separates [t1] from [t0]. The thread of the
    reply is open exactly when its count, one more than before, is below
    [maxRepliesPerThread]; other threads are as they were. *)
Theorem reply_starts_the_interval (c : Client) (u cv : string) (w : World) :
  let c' := (updateInteractionTracking u cv c).2 in
  (canReplyToUser u (set_world w c')).1
  = Ok ((count_of c u + 1 <? maxRepliesPerUser (limits c))
        && (minTimeBetweenReplies (limits c) <=? next_now w - next_now (world c)))
  /\ (canReplyInThread cv c').1
     = Ok (thread_count_of c cv + 1 <? maxRepliesPerThread (limits c))
  /\ (forall cv', cv' <> cv -> (canReplyInThread cv' c').1 = (canReplyInThread cv' c).1).
Proof.
  cbv zeta. rewrite updateInteractionTracking_effect. cbn [snd].
  split; [|split].
  - rewrite canReplyToUser_run. cbn [fst]. unfold count_of at 1, last_of. simpl.
    by rewrite !lookup_insert_eq.
  - unfold canReplyInThread. unfold_monad. simpl. by rewrite lookup_insert_eq.
  - intros cv' Hne. unfold canReplyInThread. unfold_monad. simpl.
    by rewrite lookup_insert_ne.
Qed.

Lemma recordReplies_thread_count (calls : list (string * string)) (c : Client)
    (cv : string) :
  thread_count_of (recordReplies calls c).2 cv = thread_count_of c cv + replies_in cv calls
  /\ limits (recordReplies calls c).2 = limits c.
Proof.
  revert c. induction calls as [|[u cv'] calls IH]; intros c.
  { unfold replies_in. simpl. split; [lia | done]. }
  unfold recordReplies in *. rewrite for_of_cons. cbn [fst snd].
  rewrite updateInteractionTracking_effect.
  match goal with |- context [for_of calls _ ?c1] => set (c' := c1) end.
  destruct (IH c') as [IHc IHl]. rewrite IHc, IHl. split; [|done].
  unfold replies_in. rewrite filter_cons. simpl.
  unfold thread_count_of at 1. simpl.
  destruct (decide (cv' = cv)) as [->|Hne].
  - rewrite lookup_insert_eq. simpl. lia.
  - rewrite lookup_insert_ne by done. fold (thread_count_of c cv). lia.
Qed.

(** X6. [canReplyInThread] looks at the count of the thread only: it
    reads no clock and changes nothing. Once recorded replies have brought
    the count of a thread to [maxRepliesPerThread] the thread stays closed
    whatever time passes, until the daily sweep, which opens every thread
    again. *)
Theorem canReplyInThread_spec :
  (forall (c : Client) (cv : string),
      canReplyInThread cv c
      = (Ok (thread_count_of c cv <? maxRepliesPerThread (limits c)), c))
  /\ (forall (c0 : Client) (calls : list (string * string)) (cv : string) (w : World),
        maxRepliesPerThread (limits c0) <= thread_count_of c0 cv + replies_in cv calls ->
        (canReplyInThread cv (set_world w (recordReplies calls c0).2)).1 = Ok false)
  /\ (forall (t : Tracker) (cv : string),
        (canReplyInThread cv (tr_client (cleanupTrackingMaps t).2)).1
        = Ok (0 <? maxRepliesPerThread (limits (tr_client t)))).
Proof.
  split; [done|]. split.
  - intros c0 calls cv w Hcap.
    destruct (recordReplies_thread_count calls c0 cv) as [Hcount Hlim].
    unfold canReplyInThread. unfold_monad. cbn [fst].
    change (default 0 (threadReplies (set_world w ?c) !! cv)) with (thread_count_of c cv).
    change (limits (set_world w ?c)) with (limits c).
    rewrite Hcount, Hlim.
    destruct (Z.ltb_spec (thread_count_of c0 cv + replies_in cv calls)
                (maxRepliesPerThread (limits c0))); [lia | done].
  - intros t cv. unfold cleanupTrackingMaps. unfold_monad.
    cbn -[foldl map_to_list Z.mul Z.ltb].
    match goal with
    | |- context [foldl (sweep_user ?d) ?c0 ?l] =>
        destruct (sweep_user_maps d l c0) as (_ & _ & _ & Hlim & _);
        set (c1 := foldl (sweep_user d) c0 l) in *
    end.
    unfold canReplyInThread. unfold_monad. cbn -[Z.ltb]. by rewrite Hlim.
Qed.

Lemma canReplyInThread_spec_witness :
  (canReplyInThread "c1"
     (set_world (steady_world 0 99999999999)
        (recordReplies thread_replies
           (fresh_client (calm_externals (fun _ => mention "1" "alice") [])
              (steady_world 0 1000))).2)).1 = Ok false.
Proof.
  apply (proj1 (proj2 canReplyInThread_spec)
           (fresh_client (calm_externals (fun _ => mention "1" "alice") [])
              (steady_world 0 1000))
           thread_replies "c1" (steady_world 0 99999999999)).
  vm_compute. discriminate.
Defined.

Lemma handleTweet_run (t : Tweet) (thread : list Tweet) (c : Client) :
  handleTweet t thread c =
    match generateTweetContent (ext c) t thread with
    | Throw _ => (Ok (EmptyString, ERROR), logged LError "Error handling tweet:" c)
    | Ok content =>
        if bool_decide (content = EmptyString)
        then (Ok (EmptyString, IGNORE), logged LDebug "No content generated" c)
        else
          let c1 := set_world (advance_clock (world c)) c in
          match cacheSet (ext c) ("interaction:" +:+ tweet_id t) with
          | Some _ => (Ok (EmptyString, ERROR), logged LError "Error handling tweet:" c1)
          | None => (Ok (content, RESPOND),
                     logged LDebug ("Generated content: " +:+ content) c1)
          end
    end.
Proof.
  unfold handleTweet, trackInteraction, logged. unfold_monad. cbn -[String.append].
  destruct (generateTweetContent (ext c) t thread) as [content|e];
    cbn -[String.append]; [|done].
  case_bool_decide; cbn -[String.append]; [done|].
  by destruct (cacheSet (ext c) _).
Qed.

(** X7. A candidate that is admitted and processed without an answer
    (generation fails or gives nothing, or the interaction cannot be
    tracked) consumes no quota: counts and times stay as they were. The
    mark moves to its id all the same, so it is not considered again. *)
Theorem unanswered_candidate_is_passed_over (t : Tweet) (c : Client) (n : Z)
    (thread : list Tweet) :
  StringToBigInt (tweet_id t) = Some n ->
  newer_than_mark c n ->
  (shouldProcessTweet t c).1 = Ok true ->
  ensureConnection (ext c) t = None ->
  utils_buildConversationThread (ext c) t = Ok thread ->
  (exists e, generateTweetContent (ext c) t thread = Throw e)
  \/ generateTweetContent (ext c) t thread = Ok EmptyString
  \/ (exists e, cacheSet (ext c) ("interaction:" +:+ tweet_id t) = Some e) ->
  exists c', processTweetCandidate t c = (Ok tt, c')
    /\ lastCheckedTweetId c' = Some n
    /\ recentReplies c' = recentReplies c
    /\ threadReplies c' = threadReplies c
    /\ lastReplyTime c' = lastReplyTime c.
Proof.
  intros Hid Hnew Hadm Hconn Hthread Hsilent.
  rewrite (processTweetCandidate_newer c t n Hid Hnew), bind_run.
  pose proof (shouldProcessTweet_preserves (fun c => (tracked c, ext c)) t
                (fun _ _ => eq_refl) c) as Hp.
  destruct (shouldProcessTweet t c) as [r c1]. simpl in Hadm, Hp. subst r.
  injection Hp as Hr Ht Hl Hlim Hm He.
  cbn [negb]. rewrite bind_run, processSingleTweet_run, He, Hconn, Hthread. cbv zeta.
  rewrite handleTweet_run.
  change (ext (logged ?lvl ?msg c1)) with (ext c1). rewrite He.
  assert (Hquiet : forall c2 : Client,
            recentReplies c2 = recentReplies c1 -> threadReplies c2 = threadReplies c1 ->
            lastReplyTime c2 = lastReplyTime c1 ->
            exists c', (Ok tt, set_lastCheckedTweetId (Some n) c2) = (Ok tt, c')
              /\ lastCheckedTweetId c' = Some n
              /\ recentReplies c' = recentReplies c
              /\ threadReplies c' = threadReplies c
              /\ lastReplyTime c' = lastReplyTime c).
  { intros c2 H1 H2 H3. eexists. split; [reflexivity|]. simpl. by rewrite H1, H2, H3. }
  destruct Hsilent as [[e ->]|[->|[e Hcache]]].
  - by apply Hquiet.
  - rewrite bool_decide_eq_true_2 by done. by apply Hquiet.
  - destruct (generateTweetContent (ext c) t thread) as [content|e']; [|by apply Hquiet].
    case_bool_decide; [by apply Hquiet|]. cbv zeta. rewrite Hcache. by apply Hquiet.
Qed.

Lemma unanswered_candidate_is_passed_over_witness :
  let c := fresh_client bob_ungenerable (steady_world 0 1000000) in
  exists c', processTweetCandidate (two_mentions 0) c = (Ok tt, c')
    /\ lastCheckedTweetId c' = Some 1001
    /\ recentReplies c' = recentReplies c
    /\ threadReplies c' = threadReplies c
    /\ lastReplyTime c' = lastReplyTime c.
Proof.
  intros c.
  apply (unanswered_candidate_is_passed_over (two_mentions 0) c 1001 [two_mentions 0]).
  - reflexivity.
  - left. reflexivity.
  - reflexivity.
  - reflexivity.
  - reflexivity.
  - left. eexists. reflexivity.
Defined.
End Quota.

(** ** interactions.ts: what the thread reconstructor stores *)

Section ThreadMemories.
Import Interactions Scenarios Tracking.

Lemma processThreadTweet_memories (t : Tweet) (f : Frame) :
  exists r f1, processThreadTweet t f = (r, f1)
    /\ agentId (fr_client f1) = agentId (fr_client f)
    /\ memories (fr_client f) ⊆ memories (fr_client f1)
    /\ match r with
       | Ok _ => fr_thread f1 = t :: fr_thread f
                 /\ memory_key (tweet_id t) (agentId (fr_client f)) ∈ memories (fr_client f1)
       | Throw _ => fr_thread f1 = fr_thread f
       end.
Proof.
  unfold processThreadTweet, in_client, createMemoryForThreadTweet. unfold_monad.
  cbn -[String.append].
  destruct (getMemoryById_error _ _); cbn -[String.append];
    [by do 2 eexists; split; [reflexivity|]|].
  case_bool_decide; cbn -[String.append];
    [by do 2 eexists; split; [reflexivity|]|].
  destruct (ensureConnection _ _); cbn -[String.append];
    [by do 2 eexists; split; [reflexivity|]|].
  destruct (createMemory_error _ _); cbn -[String.append];
    [by do 2 eexists; split; [reflexivity|]|].
  do 2 eexists. split; [reflexivity|]. cbn -[String.append].
  split; [done|]. split; [set_solver|]. split; [done | set_solver].
Qed.

Lemma processThread_memories fuel maxReplies cur depth f r f' :
  processThread fuel maxReplies cur depth f = Some (r, f') ->
  agentId (fr_client f') = agentId (fr_client f)
  /\ memories (fr_client f) ⊆ memories (fr_client f')
  /\ (forall t, t ∈ fr_thread f' ->
        t ∈ fr_thread f
        \/ memory_key (tweet_id t) (agentId (fr_client f)) ∈ memories (fr_client f')).
Proof.
  revert cur depth f r f'.
  induction fuel as [|fuel IH]; intros cur depth f r f'; [done|].
  simpl. destruct (_ || _).
  { intros [= <- <-]. split; [done|]. split; [done|]. by left. }
  destruct (processThreadTweet_memories cur f) as (r1 & f1 & Hrun & Ha1 & Hm1 & Hr1).
  rewrite Hrun. destruct r1 as [[]|e].
  2: { intros [= <- <-]. split; [done|]. split; [done|]. rewrite Hr1. by left. }
  destruct Hr1 as [Ht1 Hk1].
  assert (Hone : agentId (fr_client f1) = agentId (fr_client f)
                 /\ memories (fr_client f) ⊆ memories (fr_client f1)
                 /\ (forall t, t ∈ fr_thread f1 ->
                       t ∈ fr_thread f
                       \/ memory_key (tweet_id t) (agentId (fr_client f))
                            ∈ memories (fr_client f1))).
  { split; [done|]. split; [done|]. intros t. rewrite Ht1.
    intros [->|Hin]%elem_of_cons; [by right | by left]. }
  assert (Hrec : forall r2 f2 parent,
            processThread fuel maxReplies parent (depth + 1) f1 = Some (r2, f2) ->
            agentId (fr_client f2) = agentId (fr_client f)
            /\ memories (fr_client f) ⊆ memories (fr_client f2)
            /\ (forall t, t ∈ fr_thread f2 ->
                  t ∈ fr_thread f
                  \/ memory_key (tweet_id t) (agentId (fr_client f))
                       ∈ memories (fr_client f2))).
  { intros r2 f2 parent Hrec. destruct (IH _ _ _ _ _ Hrec) as (Ha2 & Hm2 & Ht2).
    split; [congruence|]. split; [set_solver|]. intros t Hin.
    destruct (Ht2 t Hin) as [Hin1|Hk].
    - rewrite Ht1 in Hin1. apply elem_of_cons in Hin1 as [->|Hin1]; [|by left].
      right. set_solver.
    - right. by rewrite <- Ha1. }
  destruct (reply_target cur) as [parentId|]; [|by intros [= <- <-]].
  destruct (getTweet (ext (fr_client f1)) parentId) as [[parent|]|e].
  - destruct (processThread fuel maxReplies parent (depth + 1) f1) as [[r2 f2]|] eqn:Hrun2;
      [|done].
    specialize (Hrec _ _ _ Hrun2).
    destruct r2 as [[]|e]; [by intros [= <- <-]|].
    by intros [= <- <-].
  - by intros [= <- <-].
  - by intros [= <- <-].
Qed.

(** X8. Whatever [buildConversationThread] answers, the store of memories
    only grows; and when it returns a thread, the memory of every tweet of
    that thread is in the store. A tweet whose memory is already there is
    taken into the thread without another attempt to create it. *)
Theorem thread_tweets_are_stored :
  (forall (fuel : nat) (tweet : Tweet) (maxReplies : Z) (c c' : Client)
      (r : outcome (list Tweet)),
      buildConversationThread fuel tweet maxReplies c = Some (r, c') ->
      memories c ⊆ memories c'
      /\ forall thread, r = Ok thread ->
           forall t, t ∈ thread -> memory_key (tweet_id t) (agentId c) ∈ memories c')
  /\ (forall (t : Tweet) (f : Frame),
        memory_key (tweet_id t) (agentId (fr_client f)) ∈ memories (fr_client f) ->
        getMemoryById_error (ext (fr_client f))
          (memory_key (tweet_id t) (agentId (fr_client f))) = None ->
        processThreadTweet t f
        = (Ok tt, mkFrame (fr_client f) (t :: fr_thread f)
                    ({[ tweet_id t ]} ∪ fr_visited f))).
Proof.
  split.
  - intros fuel tweet maxReplies c c' r. unfold buildConversationThread.
    destruct (processThread fuel maxReplies tweet 0 (mkFrame c [] ∅)) as [[r0 f]|] eqn:Hrun;
      [|done].
    destruct (processThread_memories _ _ _ _ _ _ _ Hrun) as (_ & Hm & Ht).
    simpl in Hm, Ht.
    destruct r0 as [[]|e]; intros [= <- <-]; (split; [done|]).
    + intros thread [= <-] t Hin. destruct (Ht t Hin) as [Hnil|Hk]; [|done].
      by apply elem_of_nil in Hnil.
    + done.
  - intros t f Hin Hget. unfold processThreadTweet. unfold_monad.
    cbn -[String.append]. rewrite Hget. cbn -[String.append].
    by rewrite bool_decide_eq_true_2.
Qed.

Lemma thread_tweets_are_stored_witness :
  let c' := match buildConversationThread 6 ping 5 cyclic_client with
            | Some (_, c') => c'
            | None => cyclic_client
            end in
  memories cyclic_client ⊆ memories c'
  /\ forall thread, Ok [pong; ping] = Ok thread ->
       forall t, t ∈ thread -> memory_key (tweet_id t) (agentId cyclic_client) ∈ memories c'.
Proof.
  intros c'.
  apply (proj1 thread_tweets_are_stored 6%nat ping 5 cyclic_client c' (Ok [pong; ping])).
  vm_compute. reflexivity.
Defined.
End ThreadMemories.

(** ** The registry of special interactions *)

Section Registry.
Import Interactions Scenarios Tracking.




End Registry.

(** ** template-manager.ts: cooldown and selection *)

Section CooldownFacts.
Import TemplateManager Scenarios Catalogs Cooldown.

Lemma Map_get_set_eq {V} (k : string) (v : V) (m : list (string * V)) :
  Map_get k (Map_set k v m) = Some v.
Proof.
  induction m as [|[k' v'] m IH]; simpl.
  { by rewrite bool_decide_eq_true_2. }
  destruct (decide (k' = k)) as [->|Hne].
  - rewrite (bool_decide_eq_true_2 (k = k)) by done. simpl.
    by rewrite bool_decide_eq_true_2.
  - rewrite (bool_decide_eq_false_2 (k' = k)) by done. simpl.
    by rewrite bool_decide_eq_false_2.
Qed.

Lemma Map_get_set_ne {V} (k k0 : string) (v : V) (m : list (string * V)) :
  k0 <> k -> Map_get k (Map_set k0 v m) = Map_get k m.
Proof.
  intros Hne. induction m as [|[k' v'] m IH]; simpl.
  { by rewrite bool_decide_eq_false_2. }
  destruct (decide (k' = k0)) as [->|Hne'].
  - rewrite (bool_decide_eq_true_2 (k0 = k0)) by done. simpl.
    by rewrite !bool_decide_eq_false_2.
  - rewrite (bool_decide_eq_false_2 (k' = k0)) by done. simpl.
    by rewrite IH.
Qed.

Lemma reached_from_refl m : reached_from m m.
Proof. by repeat split. Qed.

Lemma reached_from_trans m m1 m2 :
  reached_from m m1 -> reached_from m1 m2 -> reached_from m m2.
Proof.
  intros (? & ? & ? & ?) (? & ? & ? & ?). repeat split; [congruence..|lia].
Qed.

(** [filterM] with a relation that every test extends. *)
Lemma filterM_kept_along {St A} (R : St -> St -> Prop) (pred : A -> M St bool)
    (xs kept : list A) (s s' : St) :
  (forall s, R s s) -> (forall a b c, R a b -> R b c -> R a c) ->
  (forall x s, R s (pred x s).2) ->
  filterM pred xs s = (Ok kept, s') ->
  R s s' /\ forall x, x ∈ kept ->
              exists s1 s2, R s s1 /\ pred x s1 = (Ok true, s2) /\ R s2 s'.
Proof.
  intros Hrefl Htrans Hstep. revert kept s s'.
  induction xs as [|y xs IH]; intros kept s s' Hrun.
  { injection Hrun as <- <-. split; [done|]. by intros x ?%elem_of_nil. }
  simpl in Hrun. rewrite bind_run in Hrun.
  pose proof (Hstep y s) as Hy.
  destruct (pred y s) as [[keep|e] s1] eqn:Hpred; [|done]. simpl in Hy.
  rewrite bind_run in Hrun.
  destruct (filterM pred xs s1) as [[kept'|e] s2] eqn:Hrest; [|done].
  injection Hrun as <- <-.
  destruct (IH _ _ _ Hrest) as [Hr Hkept].
  split; [by eapply Htrans|].
  assert (Hold : forall x, x ∈ kept' ->
            exists s3 s4, R s s3 /\ pred x s3 = (Ok true, s4) /\ R s4 s2).
  { intros x Hx. destruct (Hkept x Hx) as (s3 & s4 & H3 & H4 & H5).
    exists s3, s4. split; [by eapply Htrans | done]. }
  destruct keep; [|done].
  intros x [->|Hx]%elem_of_cons; [|by apply Hold].
  exists s, s1. by split.
Qed.

Lemma filterM_along {St A} (R : St -> St -> Prop) (pred : A -> M St bool)
    (xs : list A) (s : St) :
  (forall s, R s s) -> (forall a b c, R a b -> R b c -> R a c) ->
  (forall x s, R s (pred x s).2) ->
  R s (filterM pred xs s).2.
Proof.
  intros Hrefl Htrans Hstep. revert s.
  induction xs as [|y xs IH]; intros s; [apply Hrefl|].
  simpl. rewrite bind_run. pose proof (Hstep y s) as Hy.
  destruct (pred y s) as [[keep|e] s1]; [|done]. simpl in Hy.
  rewrite bind_run. pose proof (IH s1) as Hrest.
  destruct (filterM pred xs s1) as [[kept|e] s2]; simpl in *; by eapply Htrans.
Qed.

Lemma sort_insertM_preserves {St A B} (proj : St -> B) (cmp : A -> A -> M St Q)
    (x : A) (l : list A) :
  (forall a b, preserves proj (cmp a b)) -> preserves proj (sort_insertM cmp x l).
Proof.
  intros Hcmp. induction l as [|y l IH]; simpl; [apply preserves_ret|].
  apply preserves_bind; [apply Hcmp | intros v].
  destruct (Qle_bool v 0); [apply preserves_ret|].
  apply preserves_bind; [apply IH | intros tail; apply preserves_ret].
Qed.

Lemma Array_sortM_preserves {St A B} (proj : St -> B) (cmp : A -> A -> M St Q)
    (l : list A) :
  (forall a b, preserves proj (cmp a b)) -> preserves proj (Array_sortM cmp l).
Proof.
  intros Hcmp. induction l as [|x l IH]; simpl; [apply preserves_ret|].
  apply preserves_bind; [apply IH | intros sorted]. by apply sort_insertM_preserves.
Qed.

(** The shuffle draws random numbers and touches nothing else. *)
Lemma shuffleArray_reached {A} (array : list A) (m : Manager) :
  reached_from m (shuffleArray array m).2.
Proof.
  assert (Hp : preserves (fun m => (templates m, lastTemplateUse m,
                                    clock_src (tm_world m), clock_pos (tm_world m)))
                 (shuffleArray array)).
  { unfold shuffleArray. apply Array_sortM_preserves. intros _ _.
    apply preserves_bind; [by intros s | intros r; apply preserves_ret]. }
  specialize (Hp m). injection Hp as Ht Hl Hs Hc.
  unfold reached_from. rewrite Ht, Hl, Hs, Hc. done.
Qed.

(** [trackTemplateUse] reads the clock once and leaves the catalog alone. *)
Lemma trackTemplateUse_clock (name : string) (m : Manager) :
  let m' := (trackTemplateUse name m).2 in
  templates m' = templates m
  /\ clock_src (tm_world m') = clock_src (tm_world m)
  /\ clock_pos (tm_world m') = S (clock_pos (tm_world m)).
Proof.
  unfold trackTemplateUse. unfold_monad. cbn -[evict Map_size Z.ltb].
  by destruct (100 <? Map_size _).
Qed.

Context `{Runtime}.

Lemma eligible_reached (context : JsValue) (t : TemplateVariation) (m : Manager) :
  reached_from m (eligible context t m).2.
Proof.
  unfold eligible, isTemplateOnCooldown, checkProbability, reached_from. unfold_monad.
  cbn -[Z.mul].
  destruct (Map_get (name t) (lastTemplateUse m)) as [ts|]; cbn -[Z.mul].
  1: destruct (ts =? 0); cbn -[Z.mul].
  2: destruct (_ <? _); cbn -[Z.mul]; [repeat split; lia|].
  all: destruct (conditions t) as [conds|]; cbn -[Z.mul];
    [destruct (every_condition conds context) as [[]|e]; cbn -[Z.mul]|];
    try (repeat split; lia);
    destruct (probability t) as [p|]; cbn -[Z.mul]; try (repeat split; lia);
    destruct (Qeq_bool p 0); cbn -[Z.mul]; repeat split; lia.
Qed.

(** A template that passes the filter was not on cooldown when tested. *)
Lemma eligible_not_cooling (context : JsValue) (t : TemplateVariation) (m m' : Manager) :
  eligible context t m = (Ok true, m') ->
  forall ts, Map_get (name t) (lastTemplateUse m) = Some ts ->
    ts = 0 \/ cooldown_ms <= next_now (tm_world m) - ts.
Proof.
  intros Hrun ts Hts. unfold eligible, isTemplateOnCooldown in Hrun.
  rewrite !bind_run in Hrun. cbn [gets] in Hrun. rewrite Hts in Hrun.
  destruct (Z.eqb_spec ts 0) as [|Hnz]; [by left|]. right.
  rewrite bind_run in Hrun. cbn [Date_now] in Hrun. cbn [mret M_ret] in Hrun.
  unfold cooldown_ms.
  destruct (Z.ltb_spec (next_now (world_of m) - ts) (5 * 60 * 1000)); [done|].
  done.
Qed.

Lemma getTemplate_not_cooling (type : string) (context : JsValue) (m m' : Manager)
    (t : TemplateVariation) :
  getTemplate type context m = (Ok (Some t), m') ->
  forall ts, Map_get (name t) (lastTemplateUse m) = Some ts ->
    ts = 0
    \/ exists i, (clock_pos (tm_world m) <= i < clock_pos (tm_world m'))%nat
         /\ cooldown_ms <= clock_src (tm_world m) i - ts.
Proof.
  unfold getTemplate. rewrite bind_run. cbn [gets].
  destruct (templates m !! type) as [group|]; [|done].
  rewrite bind_run.
  destruct (filterM (eligible context) group m) as [[kept|e] m1] eqn:Hfilter; [|done].
  destruct kept as [|t0 kept]; [done|].
  rewrite bind_run.
  destruct (shuffleArray (t0 :: kept) m1) as [[shuffled|e] m2] eqn:Hshuffle; [|done].
  destruct shuffled as [|selected rest]; [done|].
  rewrite bind_run.
  pose proof (shuffleArray_reached (t0 :: kept) m1) as Hs.
  rewrite Hshuffle in Hs. simpl in Hs.
  destruct (trackTemplateUse_clock (name selected) m2) as (_ & _ & Hstamp).
  destruct (trackTemplateUse (name selected) m2) as [[[]|e] m3]; [|done].
  simpl in Hstamp.
  intros [= -> <-] ts Hts.
  apply Array_sortM_perm in Hshuffle.
  assert (Hin : t ∈ t0 :: kept) by (rewrite <- Hshuffle; apply list_elem_of_here).
  destruct (filterM_kept_along reached_from _ _ _ _ _ reached_from_refl
              reached_from_trans (eligible_reached context) Hfilter) as [_ Hkept].
  destruct (Hkept t Hin) as (s1 & s2 & (_ & Htable & Hsrc & Hpos) & Hel & Hrest).
  pose proof (eligible_reached context t s1) as Hstep. rewrite Hel in Hstep. simpl in Hstep.
  destruct Hstep as (_ & _ & _ & Hpos1).
  destruct Hrest as (_ & _ & _ & Hpos2).
  destruct Hs as (_ & _ & _ & Hpos3).
  rewrite <- Htable in Hts.
  destruct (eligible_not_cooling _ _ _ _ Hel ts Hts) as [|Hwait]; [by left|].
  right. exists (clock_pos (tm_world s1)). split; [lia|].
  unfold next_now in Hwait. by rewrite <- Hsrc.
Qed.

(** X10. [getTemplate] never returns a template inside its cooldown
    window: if the returned template has a last-use time in the table,
    that time is 0 or lies at least five minutes before a reading of the
    clock made during the call, one of the readings between the position
    of the clock before the call and its position after, the reading that
    the test of that template took. With a clock that stands still at
    [now], the last use is at least five minutes before [now]. *)
Theorem getTemplate_respects_cooldown (type : string) (context : JsValue)
    (m m' : Manager) (t : TemplateVariation) (ts : Z) :
  getTemplate type context m = (Ok (Some t), m') ->
  Map_get (name t) (lastTemplateUse m) = Some ts ->
  (ts = 0
   \/ exists i, (clock_pos (tm_world m) <= i < clock_pos (tm_world m'))%nat
        /\ 300000 <= clock_src (tm_world m) i - ts)
  /\ (forall now, (forall i, clock_src (tm_world m) i = now) ->
        ts = 0 \/ 300000 <= now - ts).
Proof.
  intros Hrun Hts.
  pose proof (getTemplate_not_cooling _ _ _ _ _ Hrun ts Hts) as Hcool.
  change cooldown_ms with 300000 in Hcool.
  split; [done|]. intros now Hnow.
  destruct Hcool as [|(i & _ & Hi)]; [by left|]. right. by rewrite <- (Hnow i).
Qed.
End CooldownFacts.

Section CooldownScenarios.
Import TemplateManager Scenarios Catalogs Cooldown.

Lemma getTemplate_respects_cooldown_witness :
  (1000 = 0
   \/ exists i, (clock_pos (tm_world rested_manager) <= i
                 < clock_pos (tm_world (getTemplate "reply" busy_context rested_manager).2))%nat
        /\ 300000 <= clock_src (tm_world rested_manager) i - 1000)
  /\ (forall now, (forall i, clock_src (tm_world rested_manager) i = now) ->
        1000 = 0 \/ 300000 <= now - 1000).
Proof.
  apply (getTemplate_respects_cooldown "reply" busy_context rested_manager
           (getTemplate "reply" busy_context rested_manager).2 question_template 1000).
  - vm_compute. reflexivity.
  - reflexivity.
Defined.
End CooldownScenarios.

Section SelectionEffects.
Import TemplateManager Scenarios Catalogs Cooldown.

Context `{Runtime}.

(** What [getTemplate] does to the manager, whatever it answers. *)
Lemma getTemplate_effect (type : string) (context : JsValue) (m m' : Manager)
    (r : outcome (option TemplateVariation)) :
  getTemplate type context m = (r, m') ->
  templates m' = templates m
  /\ clock_src (tm_world m') = clock_src (tm_world m)
  /\ match r with
     | Ok (Some t) =>
         exists i, (clock_pos (tm_world m) <= i)%nat
           /\ clock_pos (tm_world m') = S i
           /\ lastTemplateUse m'
              = stamped_table (name t) (clock_src (tm_world m) i) (lastTemplateUse m)
     | _ => lastTemplateUse m' = lastTemplateUse m
     end.
Proof.
  unfold getTemplate. rewrite bind_run. cbn [gets].
  destruct (templates m !! type) as [group|]; [|by intros [= <- <-]].
  rewrite bind_run.
  pose proof (filterM_along reached_from (eligible context) group m reached_from_refl
                reached_from_trans (eligible_reached context)) as Hf.
  destruct (filterM (eligible context) group m) as [[kept|e] m1]; simpl in Hf.
  2: { intros [= <- <-]. by destruct Hf as (? & ? & ? & ?). }
  destruct kept as [|t0 kept].
  { intros [= <- <-]. by destruct Hf as (? & ? & ? & ?). }
  rewrite bind_run.
  pose proof (shuffleArray_reached (t0 :: kept) m1) as Hs.
  destruct (shuffleArray (t0 :: kept) m1) as [[shuffled|e] m2]; simpl in Hs.
  2: { intros [= <- <-].
       by destruct (reached_from_trans _ _ _ Hf Hs) as (? & ? & ? & ?). }
  destruct (reached_from_trans _ _ _ Hf Hs) as (Ht & Hl & Hsrc & Hpos).
  destruct shuffled as [|selected rest].
  { by intros [= <- <-]. }
  rewrite bind_run.
  destruct (trackTemplateUse_run (name selected) m2) as [Hok Htable].
  pose proof (trackTemplateUse_clock (name selected) m2) as Hrest.
  destruct (trackTemplateUse (name selected) m2) as [[[]|e] m3]; [|done].
  simpl in Htable, Hrest. destruct Hrest as (Ht3 & Hsrc3 & Hpos3).
  intros [= <- <-]. split; [congruence|]. split; [congruence|].
  exists (clock_pos (tm_world m2)). split; [done|]. split; [done|].
  rewrite Htable. unfold stamped_table, next_now. by rewrite Hl, Hsrc.
Qed.


(** X12. No template is returned twice in a row while the clock stays
    within five minutes: if all readings of the clock are nonzero and less
    than five minutes apart, and the table holds fewer than 100 names, a
    selection that follows another one returns a template of a different
    name, whatever the type and the context asked for. *)
Theorem no_immediate_repeat (type type' : string) (context context' : JsValue)
    (m m1 m2 : Manager) (t t' : TemplateVariation) :
  (forall i, clock_src (tm_world m) i <> 0) ->
  (forall i j, clock_src (tm_world m) i - clock_src (tm_world m) j < 300000) ->
  Map_size (lastTemplateUse m) < 100 ->
  getTemplate type context m = (Ok (Some t), m1) ->
  getTemplate type' context' m1 = (Ok (Some t'), m2) ->
  name t' <> name t.
Proof.
  intros Hnz Hclose Hsize Hfirst Hsecond Hsame.
  destruct (getTemplate_effect _ _ _ _ _ Hfirst) as (_ & Hsrc & i & _ & _ & Htable).
  unfold stamped_table in Htable.
  pose proof (Map_set_size (name t) (clock_src (tm_world m) i) (lastTemplateUse m)) as Hs.
  destruct (Z.ltb_spec 100 (Map_size (Map_set (name t) (clock_src (tm_world m) i)
                                         (lastTemplateUse m)))); [lia|].
  assert (Hts : Map_get (name t') (lastTemplateUse m1) = Some (clock_src (tm_world m) i)).
  { rewrite Htable, Hsame. apply Map_get_set_eq. }
  destruct (getTemplate_not_cooling _ _ _ _ _ Hsecond _ Hts) as [Hzero|(j & _ & Hwait)].
  - by apply (Hnz i).
  - rewrite Hsrc in Hwait. specialize (Hclose j i). unfold cooldown_ms in Hwait. lia.
Qed.

(** X13. The stamp starts the cooldown: right after [trackTemplateUse]
    for a name at time [t0], with a table below its cap,
    [isTemplateOnCooldown] for that name at time [t1] answers true exactly
    when [t0] is not 0 and less than five minutes separate [t1] from [t0].
    A stamp at time 0 is read as "never used". *)
Theorem stamp_starts_cooldown (template_name : string) (m : Manager) (w : World) :
  Map_size (lastTemplateUse m) < 100 ->
  let t0 := next_now (tm_world m) in
  (isTemplateOnCooldown template_name
     (set_tm_world w (trackTemplateUse template_name m).2)).1
  = Ok (negb (t0 =? 0) && (next_now w - t0 <? 300000)).
Proof.
  intros Hsize t0.
  destruct (trackTemplateUse_run template_name m) as [_ Htable].
  fold t0 in Htable.
  pose proof (Map_set_size template_name t0 (lastTemplateUse m)) as Hs.
  destruct (Z.ltb_spec 100 (Map_size (Map_set template_name t0 (lastTemplateUse m))));
    [lia|].
  unfold isTemplateOnCooldown. rewrite bind_run. cbn [gets].
  change (lastTemplateUse (set_tm_world w ?x)) with (lastTemplateUse x).
  rewrite Htable, Map_get_set_eq.
  destruct (t0 =? 0); [done|]. done.
Qed.
End SelectionEffects.

Section SelectionEffectsScenarios.
Import TemplateManager Scenarios Catalogs Cooldown.


Lemma no_immediate_repeat_witness :
  let m1 := (getTemplate "reply" busy_context idle_manager).2 in
  let m2 := (getTemplate "reply" busy_context m1).2 in
  name plain_template <> name question_template.
Proof.
  intros m1 m2.
  apply (no_immediate_repeat "reply" "reply" busy_context busy_context
           idle_manager m1 m2 question_template plain_template).
  - intros i. simpl. lia.
  - intros i j. simpl. lia.
  - vm_compute. reflexivity.
  - vm_compute. reflexivity.
  - vm_compute. reflexivity.
Defined.

Lemma stamp_starts_cooldown_witness :
  (isTemplateOnCooldown "question"
     (set_tm_world (steady_world 0 1200000)
        (trackTemplateUse "question" rested_manager).2)).1
  = Ok (negb (1000000 =? 0) && (1200000 - 1000000 <? 300000)).
Proof.
  apply (stamp_starts_cooldown "question" rested_manager (steady_world 0 1200000)).
  vm_compute. reflexivity.
Defined.
End SelectionEffectsScenarios.

(** ** template-manager.ts: dotted paths *)

Section Paths.
Import TemplateManager Scenarios Catalogs.

Lemma split_dot_nonempty (path : string) : split_dot path <> [].
Proof.
  destruct path as [|a rest]; simpl; [done|].
  destruct (Ascii.eqb a "."); [done|]. by destruct (split_dot rest).
Qed.

Lemma split_dot_app (p q : string) :
  split_dot (p +:+ "." +:+ q) = split_dot p ++ split_dot q.
Proof.
  induction p as [|a p IH].
  { done. }
  change (String a p +:+ "." +:+ q) with (String a (p +:+ "." +:+ q)).
  simpl. rewrite IH. destruct (Ascii.eqb a "."); [done|].
  pose proof (split_dot_nonempty p) as Hne.
  by destruct (split_dot p).
Qed.

Lemma optional_get_undefined (parts : list string) :
  foldl optional_get JsUndefined parts = JsUndefined.
Proof. induction parts as [|part parts IH]; [done | exact IH]. Qed.

(** X14. Dotted paths compose: looking up [p.q] is looking up [q] in what
    [p] gives. A path that starts from [undefined] or [null] gives
    [undefined], so a path that runs through a missing or null field gives
    [undefined] for every continuation instead of failing. *)
Theorem getFieldValue_paths :
  (forall (obj : JsValue) (p q : string),
      getFieldValue obj (p +:+ "." +:+ q) = getFieldValue (getFieldValue obj p) q)
  /\ (forall p : string,
        getFieldValue JsUndefined p = JsUndefined /\ getFieldValue JsNull p = JsUndefined)
  /\ (forall (obj : JsValue) (p q : string),
        getFieldValue obj p = JsUndefined \/ getFieldValue obj p = JsNull ->
        getFieldValue obj (p +:+ "." +:+ q) = JsUndefined).
Proof.
  assert (Hcomp : forall obj p q,
            getFieldValue obj (p +:+ "." +:+ q) = getFieldValue (getFieldValue obj p) q).
  { intros obj p q. unfold getFieldValue. by rewrite split_dot_app, foldl_app. }
  assert (Hbottom : forall p, getFieldValue JsUndefined p = JsUndefined
                              /\ getFieldValue JsNull p = JsUndefined).
  { intros p. unfold getFieldValue. split; [apply optional_get_undefined|].
    pose proof (split_dot_nonempty p) as Hne.
    destruct (split_dot p) as [|part parts]; [done|]. apply optional_get_undefined. }
  split; [done|]. split; [done|].
  intros obj p q Hmissing. rewrite Hcomp.
  destruct Hmissing as [-> | ->]; apply Hbottom.
Qed.

Lemma getFieldValue_paths_witness :
  getFieldValue busy_context ("author" +:+ "." +:+ "name") = JsUndefined.
Proof.
  apply (proj2 (proj2 getFieldValue_paths) busy_context "author" "name").
  left. reflexivity.
Defined.
End Paths.

(** ** template-manager.ts: [formatText] *)

Section FormatText.
Import ContentFormatter.

Lemma single_spaced_weaken (s : string) :
  single_spaced true s = true -> single_spaced false s = true.
Proof.
  destruct s as [|a s]; [done|]. simpl.
  destruct (is_white_space a); [|done]. by rewrite andb_false_r.
Qed.

Lemma replace_white_runs_spaced (in_run after_space : bool) (s : string) :
  (after_space = true -> in_run = true) ->
  single_spaced after_space (replace_white_runs_from in_run s) = true.
Proof.
  revert in_run after_space. induction s as [|a s IH]; intros in_run after_space Hrun; [done|].
  simpl. destruct (is_white_space a) eqn:Ha.
  - destruct in_run.
    + by apply IH.
    + destruct after_space; [by specialize (Hrun eq_refl)|].
      simpl. by apply IH.
  - simpl. rewrite Ha. by apply IH.
Qed.

Lemma line_break_white (a : ascii) :
  is_line_break a = true -> is_white_space a = true /\ Ascii.eqb a " " = false.
Proof.
  unfold is_line_break, is_white_space. intros Hb.
  apply orb_true_iff in Hb as [Hn%N.eqb_eq|Hn%N.eqb_eq];
    rewrite <- (ascii_N_embedding a), Hn; done.
Qed.

(** Nothing is left for the second replacement to find. *)
Lemma replace_break_runs_spaced (in_run after_space : bool) (s : string) :
  single_spaced after_space s = true -> replace_break_runs_from in_run s = s.
Proof.
  revert in_run after_space. induction s as [|a s IH]; intros in_run after_space; [done|].
  simpl. destruct (is_line_break a) eqn:Hb.
  - destruct (line_break_white a Hb) as [-> ->]. done.
  - destruct (is_white_space a).
    + intros [[_ _]%andb_true_iff Hs]%andb_true_iff. f_equal. by eapply IH.
    + intros Hs. f_equal. by eapply IH.
Qed.

Lemma trimStart_spaced (after_space : bool) (s : string) :
  single_spaced after_space s = true -> single_spaced true (trimStart s) = true.
Proof.
  revert after_space. induction s as [|a s IH]; intros after_space; [done|].
  simpl. destruct (is_white_space a) eqn:Ha.
  - intros [_ Hs]%andb_true_iff. by eapply IH.
  - intros Hs. simpl. by rewrite Ha.
Qed.

Lemma trimEnd_spaced (after_space : bool) (s : string) :
  single_spaced after_space s = true -> single_spaced after_space (trimEnd s) = true.
Proof.
  revert after_space. induction s as [|a s IH]; intros after_space; [done|].
  simpl. destruct (is_white_space a) eqn:Ha.
  - intros [Hhead Hs]%andb_true_iff. apply IH in Hs.
    destruct (trimEnd s) as [|b kept]; [done|].
    cbn [single_spaced]. rewrite Ha. by rewrite Hhead.
  - intros Hs. apply IH in Hs.
    destruct (trimEnd s) as [|b kept]; cbn [single_spaced]; by rewrite Ha.
Qed.

Lemma trimEnd_idempotent (s : string) : trimEnd (trimEnd s) = trimEnd s.
Proof.
  induction s as [|a s IH]; [done|]. simpl.
  destruct (trimEnd s) as [|b kept] eqn:Hs.
  - destruct (is_white_space a) eqn:Ha; [done|]. simpl. by rewrite Ha.
  - cbn [trimEnd]. cbn [trimEnd] in IH. by rewrite IH.
Qed.

Lemma trimStart_tidy (s : string) : single_spaced true s = true -> trimStart s = s.
Proof.
  destruct s as [|a s]; [done|]. simpl.
  destruct (is_white_space a); [|done]. by rewrite andb_false_r.
Qed.

Lemma replace_white_runs_tidy (after_space : bool) (s : string) :
  single_spaced after_space s = true -> replace_white_runs_from after_space s = s.
Proof.
  revert after_space. induction s as [|a s IH]; intros after_space; [done|].
  simpl. destruct (is_white_space a).
  - intros [[Ha Hp]%andb_true_iff Hs]%andb_true_iff.
    apply Ascii.eqb_eq in Ha as ->. apply negb_true_iff in Hp as ->.
    f_equal. by apply IH.
  - intros Hs. destruct after_space; f_equal.
    + apply (IH false), Hs.
    + by apply IH.
Qed.

Lemma replace_white_runs_length (in_run : bool) (s : string) :
  (String.length (replace_white_runs_from in_run s) <= String.length s)%nat.
Proof.
  revert in_run. induction s as [|a s IH]; intros in_run; [done|].
  pose proof (IH true). pose proof (IH false).
  simpl. destruct (is_white_space a); [destruct in_run|]; simpl; lia.
Qed.

Lemma formatText_tidy (text : string) : tidy (formatText text).
Proof.
  unfold formatText, trim, replace_break_runs, replace_white_runs.
  pose proof (replace_white_runs_spaced false false text ltac:(done)) as Hs.
  rewrite (replace_break_runs_spaced false false _ Hs).
  split.
  - by apply trimEnd_spaced, (trimStart_spaced false).
  - apply trimEnd_idempotent.
Qed.

Lemma formatText_fixed (s : string) : tidy s -> formatText s = s.
Proof.
  intros [Hs Hend]. pose proof (single_spaced_weaken s Hs) as Hw.
  unfold formatText, trim, replace_break_runs, replace_white_runs.
  rewrite (replace_white_runs_tidy false s Hw).
  rewrite (replace_break_runs_spaced false false s Hw).
  by rewrite (trimStart_tidy s Hs).
Qed.

Lemma formatText_trimmed (text : string) : trim (formatText text) = formatText text.
Proof.
  destruct (formatText_tidy text) as [Hs Hend].
  unfold trim. by rewrite (trimStart_tidy _ Hs).
Qed.

(** X15. [formatText] puts a text in a normal form: white space only
    occurs as single spaces between other characters, none at either end.
    The second replacement never finds a line break, because the first one
    has turned them all into spaces: no line break survives. A text in
    normal form is returned as it is, so formatting twice is formatting
    once; the result is never longer than the text. *)
Theorem formatText_normal_form (text : string) :
  tidy (formatText text)
  /\ trim (formatText text) = formatText text
  /\ replace_break_runs (replace_white_runs text) = replace_white_runs text
  /\ formatText (formatText text) = formatText text
  /\ js_length (formatText text) <= js_length text
  /\ (tidy text -> formatText text = text).
Proof.
  pose proof (formatText_tidy text) as Htidy.
  split; [done|]. split; [|split; [|split; [|split]]].
  - apply formatText_trimmed.
  - unfold replace_break_runs, replace_white_runs.
    apply (replace_break_runs_spaced false false).
    by apply replace_white_runs_spaced.
  - by apply formatText_fixed.
  - unfold formatText, replace_break_runs, replace_white_runs.
    rewrite (replace_break_runs_spaced false false)
      by by apply replace_white_runs_spaced.
    pose proof (trim_length (replace_white_runs_from false text)).
    pose proof (replace_white_runs_length false text). unfold js_length in *. lia.
  - apply formatText_fixed.
Qed.

Lemma formatText_normal_form_witness :
  formatText "gm frens" = "gm frens".
Proof.
  apply (proj2 (proj2 (proj2 (proj2 (proj2 (formatText_normal_form "gm frens")))))).
  split; reflexivity.
Defined.

(** Tabs and line breaks become single spaces. *)
Example formatText_line_breaks :
  formatText (String "009" "the  moon" +:+ String "013" (String "010" "is near  "))
  = "the moon is near".
Proof. vm_compute. reflexivity. Qed.
End FormatText.

(** ** template-manager.ts: hashtags, emojis and [formatTweet] *)

Section Selections.
Import ContentFormatter.

Lemma swap_perm {A} (i : nat) (j : Z) (a : list A) : swap i j a ≡ₚ a.
Proof.
  unfold swap. destruct (j <? 0); [done|].
  set (k := Z.to_nat j). clearbody k.
  destruct (a !! i) as [x|] eqn:Hi; [|done].
  destruct (a !! k) as [y|] eqn:Hk; [|done].
  apply Permutation_inj. split; [by rewrite !length_insert|].
  exists (fun n => if decide (n = k) then i else if decide (n = i) then k else n).
  split.
  - intros n1 n2. repeat case_decide; congruence.
  - intros n. rewrite !list_lookup_insert, length_insert.
    apply lookup_lt_Some in Hi as Hil. apply lookup_lt_Some in Hk as Hkl.
    repeat case_decide; try done; try lia; try congruence; naive_solver.
Qed.

Lemma random_below_run (n : Z) (f : Formatter) :
  random_below n f
  = (Ok (Qfloor (next_random (fmt_world f) * inject_Z n)),
     with_world (advance_random (fmt_world f)) f).
Proof. reflexivity. Qed.

Lemma shuffle_down_run {A} (i : nat) (l : list A) (f : Formatter) :
  exists r w, shuffle_down i l f = (Ok r, with_world w f)
    /\ r ≡ₚ l
    /\ rand_pos w = (rand_pos (fmt_world f) + i)%nat
    /\ rand_src w = rand_src (fmt_world f)
    /\ clock_src w = clock_src (fmt_world f) /\ clock_pos w = clock_pos (fmt_world f)
    /\ console w = console (fmt_world f).
Proof.
  revert l f. induction i as [|i IH]; intros l f.
  { exists l, (fmt_world f). split; [by destruct f|]. split; [done|].
    split; [lia | done]. }
  cbn [shuffle_down]. rewrite bind_run, random_below_run.
  destruct (IH (swap (S i) (Qfloor (next_random (fmt_world f) * inject_Z (Z.of_nat (S i) + 1))) l)
              (with_world (advance_random (fmt_world f)) f))
    as (r & w & Hrun & Hperm & Hpos & Hrest).
  exists r, w. split; [done|].
  split; [by rewrite Hperm, swap_perm|].
  split; [simpl in Hpos; lia | done].
Qed.

Lemma Array_slice0_sublist {A} (a : list A) (e : Z) : Array_slice0 a e `sublist_of` a.
Proof. unfold Array_slice0. apply sublist_take. Qed.

Lemma Array_slice0_length {A} (a : list A) (e : Z) :
  0 <= e -> Z.of_nat (length (Array_slice0 a e)) <= e.
Proof.
  intros He. unfold Array_slice0. rewrite length_take.
  destruct (Z.ltb_spec e 0); lia.
Qed.

Lemma random_below_bounds (r : Q) (n : Z) :
  (0 <= r)%Q -> (r < 1)%Q -> 0 < n -> 0 <= Qfloor (r * inject_Z n) < n.
Proof.
  intros Hr0 Hr1 Hn.
  assert (Hn' : (inject_Z 0 < inject_Z n)%Q) by (rewrite <- Zlt_Qlt; done).
  split.
  - change 0 with (Qfloor 0). apply Qfloor_resp_le.
    apply Qmult_le_0_compat; [done | by apply Qlt_le_weak].
  - rewrite Zlt_Qlt.
    eapply Qle_lt_trans; [apply Qfloor_le|].
    rewrite <- (Qmult_1_l (inject_Z n)) at 2.
    by apply Qmult_lt_compat_r.
Qed.

Section Select.
Context (enabled : bool) (probability : Q) (candidates : list string)
        (distribute : bool) (maxPerTweet : Z)
        (recent : Formatter -> gset string)
        (set_recent : gset string -> Formatter -> Formatter).
Hypothesis recent_set : forall u f, recent (set_recent u f) = u.
Hypothesis world_set : forall u f, fmt_world (set_recent u f) = fmt_world f.
Hypothesis recent_world : forall w f, recent (with_world w f) = recent f.

Lemma track_use_run (item : string) (f : Formatter) :
  exists f', track_use recent set_recent item f = (Ok tt, f')
    /\ (size (recent f') <= 20)%nat
    /\ fmt_world f' = fmt_world f
    /\ (exists u, f' = set_recent u f \/ f' = set_recent u (set_recent ({[ item ]} ∪ recent f) f)).
Proof.
  unfold track_use. unfold_monad. cbn -[Z.ltb]. rewrite recent_set.
  destruct (Z.ltb_spec 20 (Z.of_nat (size ({[ item ]} ∪ recent f)))) as [Hbig|Hsmall].
  - eexists. split; [reflexivity|]. rewrite recent_set, !world_set.
    split; [by rewrite size_empty; lia|]. split; [done|]. exists ∅. by right.
  - eexists. split; [reflexivity|]. rewrite recent_set, world_set.
    split; [lia|]. split; [done|]. eexists. by left.
Qed.

Lemma track_all_run (items : list string) (f : Formatter) :
  exists f', for_of items (track_use recent set_recent) f = (Ok tt, f')
    /\ ((size (recent f) <= 20)%nat -> (size (recent f') <= 20)%nat)
    /\ fmt_world f' = fmt_world f.
Proof.
  revert f. induction items as [|item items IH]; intros f.
  { by exists f. }
  rewrite for_of_cons.
  destruct (track_use_run item f) as (f1 & Hrun & Hsize & Hw & _). rewrite Hrun.
  destruct (IH f1) as (f' & Hrest & Hkeep & Hw'). exists f'.
  split; [done|]. split; [by intros _; apply Hkeep | congruence].
Qed.

(** What a selection is, whatever was drawn: taken from the candidates
    that were not used recently, no more than the cap, and the set of
    recent uses stays within 20 names. *)
Lemma select_fresh_run (f : Formatter) :
  unit_random (fmt_world f) ->
  exists selected f',
    select_fresh enabled probability candidates distribute maxPerTweet recent set_recent f
    = (Ok selected, f')
    /\ (forall item, item ∈ selected -> item ∈ candidates /\ item ∉ recent f)
    /\ (NoDup candidates -> NoDup selected)
    /\ (0 <= maxPerTweet -> Z.of_nat (length selected) <= maxPerTweet)
    /\ ((size (recent f) <= 20)%nat -> (size (recent f') <= 20)%nat)
    /\ (enabled = false -> selected = [] /\ f' = f)
    /\ ((forall item, item ∈ candidates -> item ∈ recent f) ->
          selected = []
          /\ (enabled = true -> (next_random (fmt_world f) <= probability)%Q ->
                recent f' = ∅)).
Proof.
  intros Hunit. unfold select_fresh. rewrite bind_run.
  destruct enabled; cbn [negb].
  2: { cbn [mret M_ret]. exists [], f. split; [done|].
       split; [by intros item ?%elem_of_nil|]. split; [by intros _; constructor|].
       split; [simpl; lia|]. split; [done|]. split; [done|]. by intros _. }
  rewrite bind_run. cbn [Math_random mret M_ret].
  set (f0 := with_world (advance_random (world_of f)) f).
  unfold Qltb. destruct (Qle_bool (next_random (world_of f)) probability) eqn:Hdraw;
    cbn [negb].
  2: { exists [], f0. split; [done|].
       split; [by intros item ?%elem_of_nil|]. split; [by intros _; constructor|].
       split; [simpl; lia|]. split; [by unfold f0; rewrite recent_world|].
       split; [done|]. intros _. split; [done|].
       intros _ Hle%Qle_bool_iff. cbn [world_of Formatter_world] in Hdraw. congruence. }
  assert (Hrec0 : recent f0 = recent f) by apply recent_world.
  rewrite bind_run. cbn [gets]. rewrite Hrec0.
  destruct (filter (fun item => item ∉ recent f) candidates) as [|item0 rest] eqn:Hav.
  { rewrite bind_run. cbn [modify mret M_ret].
    exists [], (set_recent ∅ f0). split; [done|].
    split; [by intros item ?%elem_of_nil|]. split; [by intros _; constructor|].
    split; [simpl; lia|]. split; [by rewrite recent_set, size_empty; lia|].
    split; [done|]. intros _. split; [done|]. intros _ _. apply recent_set. }
  cbv iota. rewrite bind_run.
  set (available := item0 :: rest) in *.
  assert (Hmax : exists maxItems w1,
            (if distribute then random_below (maxPerTweet + 1) else mret maxPerTweet) f0
            = (Ok maxItems, with_world w1 f)
            /\ (0 <= maxPerTweet -> 0 <= maxItems <= maxPerTweet)).
  { destruct distribute.
    - rewrite random_below_run. do 2 eexists. split; [reflexivity|].
      intros Hcap. destruct (Hunit (rand_pos (fmt_world f0))) as [H0 H1].
      pose proof (random_below_bounds _ (maxPerTweet + 1) H0 H1 ltac:(lia)) as Hb.
      unfold next_random.
      change (rand_src (fmt_world f0)) with (rand_src (fmt_world f)). lia.
    - exists maxPerTweet, (fmt_world f0). split; [done | lia]. }
  destruct Hmax as (maxItems & w1 & -> & Hbound).
  rewrite bind_run.
  destruct (shuffle_down_run (length available - 1) available (with_world w1 f))
    as (shuffled & w2 & Hshuffle & Hperm & _).
  unfold shuffleArray. rewrite Hshuffle. rewrite bind_run.
  destruct (track_all_run (Array_slice0 shuffled maxItems) (with_world w2 (with_world w1 f)))
    as (f3 & -> & Hsize & _).
  rewrite !recent_world in Hsize.
  cbn [mret M_ret]. exists (Array_slice0 shuffled maxItems), f3. split; [done|].
  pose proof (Array_slice0_sublist shuffled maxItems) as Hsub.
  split; [|split; [|split; [|split; [|split]]]].
  - intros item Hin. apply (elem_of_sublist _ _ _ Hin) in Hsub as Hin'.
    rewrite Hperm in Hin'. rename Hin' into Hin2. clear Hin. rename Hin2 into Hin. rewrite <- Hav in Hin.
    by apply list_elem_of_filter in Hin as [? ?].
  - intros Hnd. eapply sublist_NoDup; [|exact Hsub]. rewrite Hperm.
    rewrite <- Hav. by apply NoDup_filter.
  - intros Hcap. specialize (Hbound Hcap).
    pose proof (Array_slice0_length shuffled maxItems ltac:(lia)). lia.
  - done.
  - done.
  - intros Hall. exfalso.
    assert (Hnone : filter (fun item => item ∉ recent f) candidates = []).
    { apply filter_none. intros item Hin Hout. by apply Hout, Hall. }
    rewrite Hnone in Hav. done.
Qed.

Lemma shuffle_down_returns {A} (i : nat) (l : list A) : returns (shuffle_down i l).
Proof.
  intros f. destruct (shuffle_down_run i l f) as (r & w & -> & _). by exists r.
Qed.

Lemma select_fresh_returns :
  returns (select_fresh enabled probability candidates distribute maxPerTweet
             recent set_recent).
Proof.
  unfold select_fresh, track_use, shuffleArray, random_below.
  repeat first
    [ apply shuffle_down_returns
    | apply returns_ret | apply returns_gets | apply returns_modify
    | apply returns_Math_random
    | apply returns_bind; [|intros ?]
    | apply returns_for_of; intros ?
    | match goal with
      | |- returns (if ?b then _ else _) => destruct b
      | |- returns (match ?x with _ => _ end) => destruct x
      end ].
Qed.
End Select.

(** X16. The shuffle of the formatter (Fisher and Yates) never fails and
    returns a permutation of the array; it draws one random number for
    each index from the last one down to 1 and touches nothing else. *)
Theorem formatter_shuffle_permutes {A} (array : list A) (f : Formatter) :
  unit_random (fmt_world f) ->
  exists shuffled w,
    shuffleArray array f = (Ok shuffled, with_world w f)
    /\ shuffled ≡ₚ array
    /\ rand_pos w = (rand_pos (fmt_world f) + (length array - 1))%nat
    /\ rand_src w = rand_src (fmt_world f)
    /\ clock_src w = clock_src (fmt_world f) /\ clock_pos w = clock_pos (fmt_world f)
    /\ console w = console (fmt_world f).
Proof. intros _. apply shuffle_down_run. Qed.

Lemma formatter_shuffle_permutes_witness :
  exists shuffled w,
    shuffleArray ["gm"; "wagmi"; "moon"] (plain_formatter (Scenarios.steady_world (1 # 4) 0))
    = (Ok shuffled, with_world w (plain_formatter (Scenarios.steady_world (1 # 4) 0)))
    /\ shuffled ≡ₚ ["gm"; "wagmi"; "moon"]
    /\ rand_pos w = 2%nat
    /\ rand_src w = (fun _ => 1 # 4)
    /\ clock_src w = (fun _ => 0) /\ clock_pos w = 0%nat
    /\ console w = [].
Proof.
  apply (formatter_shuffle_permutes ["gm"; "wagmi"; "moon"]
           (plain_formatter (Scenarios.steady_world (1 # 4) 0))).
  intros i. simpl. split; [by apply Qle_bool_iff | reflexivity].
Defined.

(** X17. [getHashtags] never fails. Every hashtag it returns is a
    preferred one that was not among the recently used; none comes twice
    when the preferred list has none twice; there are at most
    [maxHashtagsPerTweet] of them. The set of recently used hashtags stays
    within 20 names. With hashtags switched off nothing is drawn and
    nothing changes; when every preferred hashtag has been used recently,
    none is returned and, if the draw lets the call through, the set is
    cleared. *)
Theorem getHashtags_spec (f : Formatter) :
  unit_random (fmt_world f) ->
  let config := hashtags f in
  exists tags f',
    getHashtags f = (Ok tags, f')
    /\ (forall tag, tag ∈ tags ->
          tag ∈ preferredHashtags config /\ tag ∉ recentlyUsedHashtags f)
    /\ (NoDup (preferredHashtags config) -> NoDup tags)
    /\ (0 <= maxHashtagsPerTweet config ->
          Z.of_nat (length tags) <= maxHashtagsPerTweet config)
    /\ ((size (recentlyUsedHashtags f) <= 20)%nat ->
          (size (recentlyUsedHashtags f') <= 20)%nat)
    /\ (hashtags_enabled config = false -> tags = [] /\ f' = f)
    /\ ((forall tag, tag ∈ preferredHashtags config -> tag ∈ recentlyUsedHashtags f) ->
          tags = []
          /\ (hashtags_enabled config = true ->
                (next_random (fmt_world f) <= hashtagProbability config)%Q ->
                recentlyUsedHashtags f' = ∅)).
Proof.
  intros Hunit config. unfold getHashtags. rewrite bind_run. cbn [gets]. fold config.
  by apply select_fresh_run.
Qed.

Lemma getHashtags_spec_witness :
  let f := demo_formatter (Scenarios.steady_world (1 # 4) 0) in
  exists tags f',
    getHashtags f = (Ok tags, f')
    /\ (forall tag, tag ∈ tags ->
          tag ∈ preferredHashtags (hashtags f) /\ tag ∉ recentlyUsedHashtags f)
    /\ (NoDup (preferredHashtags (hashtags f)) -> NoDup tags)
    /\ (0 <= maxHashtagsPerTweet (hashtags f) ->
          Z.of_nat (length tags) <= maxHashtagsPerTweet (hashtags f))
    /\ ((size (recentlyUsedHashtags f) <= 20)%nat ->
          (size (recentlyUsedHashtags f') <= 20)%nat)
    /\ (hashtags_enabled (hashtags f) = false -> tags = [] /\ f' = f)
    /\ ((forall tag, tag ∈ preferredHashtags (hashtags f) -> tag ∈ recentlyUsedHashtags f) ->
          tags = []
          /\ (hashtags_enabled (hashtags f) = true ->
                (next_random (fmt_world f) <= hashtagProbability (hashtags f))%Q ->
                recentlyUsedHashtags f' = ∅)).
Proof.
  intros f. apply (getHashtags_spec f).
  intros i. simpl. split; [by apply Qle_bool_iff | reflexivity].
Defined.

(** With two of five preferred hashtags used recently and a cap of two,
    two of the other three are returned and remembered. *)
Example getHashtags_demo :
  let run := getHashtags (demo_formatter (Scenarios.steady_world (1 # 4) 0)) in
  run.1 = Ok ["hodl"; "lfg"]
  /\ recentlyUsedHashtags run.2 = {[ "gm"; "moon"; "hodl"; "lfg" ]}.
Proof. vm_compute. split; reflexivity. Qed.

(** X18. [getEmojis] never fails. Every emoji it returns is an allowed
    one that was not among the recently used; none comes twice when the
    allowed list has none twice; there are at most [maxEmojisPerTweet] of
    them, and the set of recently used emojis stays within 20. With emojis
    switched off nothing is drawn and nothing changes. *)
Theorem getEmojis_spec (f : Formatter) :
  unit_random (fmt_world f) ->
  let config := emojis f in
  exists picked f',
    getEmojis f = (Ok picked, f')
    /\ (forall emoji, emoji ∈ picked ->
          emoji ∈ allowedEmojis config /\ emoji ∉ recentlyUsedEmojis f)
    /\ (NoDup (allowedEmojis config) -> NoDup picked)
    /\ (0 <= maxEmojisPerTweet config ->
          Z.of_nat (length picked) <= maxEmojisPerTweet config)
    /\ ((size (recentlyUsedEmojis f) <= 20)%nat ->
          (size (recentlyUsedEmojis f') <= 20)%nat)
    /\ (emojis_enabled config = false -> picked = [] /\ f' = f).
Proof.
  intros Hunit config. unfold getEmojis. rewrite bind_run. cbn [gets]. fold config.
  destruct (select_fresh_run (emojis_enabled config) (emojiProbability config)
              (allowedEmojis config) (distributeEmojis config) (maxEmojisPerTweet config)
              recentlyUsedEmojis set_recentlyUsedEmojis
              ltac:(done) ltac:(done) ltac:(done) f Hunit)
    as (picked & f' & Hrun & Hfrom & Hnd & Hlen & Hsize & Hoff & _).
  by exists picked, f'.
Qed.

Lemma getEmojis_spec_witness :
  let f := demo_formatter (Scenarios.steady_world (1 # 4) 0) in
  exists picked f',
    getEmojis f = (Ok picked, f')
    /\ (forall emoji, emoji ∈ picked ->
          emoji ∈ allowedEmojis (emojis f) /\ emoji ∉ recentlyUsedEmojis f)
    /\ (NoDup (allowedEmojis (emojis f)) -> NoDup picked)
    /\ (0 <= maxEmojisPerTweet (emojis f) ->
          Z.of_nat (length picked) <= maxEmojisPerTweet (emojis f))
    /\ ((size (recentlyUsedEmojis f) <= 20)%nat ->
          (size (recentlyUsedEmojis f') <= 20)%nat)
    /\ (emojis_enabled (emojis f) = false -> picked = [] /\ f' = f).
Proof.
  intros f. apply (getEmojis_spec f).
  intros i. simpl. split; [by apply Qle_bool_iff | reflexivity].
Defined.

Lemma trimStart_clean (s : string) :
  match trimStart s with
  | EmptyString => True
  | String a _ => is_white_space a = false
  end.
Proof.
  induction s as [|a s IH]; [done|]. simpl.
  destruct (is_white_space a) eqn:Ha; [done|]. done.
Qed.

Lemma trim_idempotent (s : string) : trim (trim s) = trim s.
Proof.
  unfold trim. pose proof (trimStart_clean s) as Hclean.
  destruct (trimStart s) as [|a t]; [done|].
  assert (Hhead : exists kept, trimEnd (String a t) = String a kept).
  { simpl. destruct (trimEnd t); [rewrite Hclean|]; by eexists. }
  destruct Hhead as [kept Hkept].
  rewrite <- (trimEnd_idempotent (String a t)) at 2.
  rewrite Hkept. cbn [trimStart]. by rewrite Hclean.
Qed.

(** X19. [formatTweet] never fails, and what it returns has no white
    space at either end. With hashtags and emojis both switched off it is
    [formatText]: nothing is drawn, nothing is remembered. *)
Theorem formatTweet_spec :
  (forall (tweet : string) (f : Formatter),
      exists text f', formatTweet tweet f = (Ok text, f') /\ trim text = text)
  /\ (forall (tweet : string) (f : Formatter),
        hashtags_enabled (hashtags f) = false ->
        emojis_enabled (emojis f) = false ->
        formatTweet tweet f = (Ok (formatText tweet), f)).
Proof.
  split.
  - intros tweet f. unfold formatTweet. rewrite bind_run.
    assert (Hh : returns getHashtags).
    { unfold getHashtags. apply returns_bind; [apply returns_gets | intros config].
      apply select_fresh_returns. }
    assert (He : returns getEmojis).
    { unfold getEmojis. apply returns_bind; [apply returns_gets | intros config].
      apply select_fresh_returns. }
    destruct (Hh f) as [tags Htags].
    destruct (getHashtags f) as [r f1]. simpl in Htags. subst r.
    rewrite bind_run. destruct (He f1) as [picked Hpicked].
    destruct (getEmojis f1) as [r f2]. simpl in Hpicked. subst r.
    cbn [mret M_ret]. do 2 eexists. split; [reflexivity|]. apply trim_idempotent.
  - intros tweet f Hh He.
    assert (Hhash : getHashtags f = (Ok [], f)).
    { unfold getHashtags, select_fresh. rewrite bind_run. cbn [gets]. by rewrite Hh. }
    assert (Hemo : getEmojis f = (Ok [], f)).
    { unfold getEmojis, select_fresh. rewrite bind_run. cbn [gets]. by rewrite He. }
    unfold formatTweet. rewrite bind_run, Hhash, bind_run, Hemo.
    cbn [mret M_ret fmap list_fmap join].
    pose proof (formatText_trimmed tweet) as Htrim.
    rewrite !filter_cons, filter_nil.
    destruct (decide (formatText tweet <> EmptyString)) as [Hne|Heq].
    + destruct (decide (EmptyString <> EmptyString)); [done|]. cbn [join].
      by rewrite Htrim.
    + destruct (decide (EmptyString <> EmptyString)); [done|]. cbn [join].
      destruct (decide (formatText tweet = EmptyString)) as [Hempty|Hne]; [|done].
      by rewrite Hempty.
Qed.

Lemma formatTweet_spec_witness :
  formatTweet "gm   frens " (plain_formatter (Scenarios.steady_world 0 0))
  = (Ok (formatText "gm   frens "), plain_formatter (Scenarios.steady_world 0 0)).
Proof.
  apply (proj2 formatTweet_spec "gm   frens " (plain_formatter (Scenarios.steady_world 0 0)));
    reflexivity.
Defined.

(** Two fresh hashtags go after the tidied text. *)
Example formatTweet_demo :
  (formatTweet "  the moon   is near " (demo_formatter (Scenarios.steady_world (1 # 4) 0))).1
  = Ok "the moon is near #hodl #lfg".
Proof. vm_compute. reflexivity. Qed.
End Selections.

(** ** template-enhanced-client.ts: the type of template *)

Section TemplateTypes.
Import Interactions EnhancedClient.

Lemma detectDebate_long (thread : list Tweet) :
  detectDebate thread = true -> 3 < Z.of_nat (length thread).
Proof. unfold detectDebate. intros [Hlen%Z.leb_le _]%andb_true_iff. lia. Qed.

Lemma analyzeResponseType_cases (post : option string) (thread : option (list Tweet)) :
  analyzeResponseType post thread
  ∈ [None; Some "conversation"; Some "question"; Some "defense"; Some "roast";
     Some "recruitment"; Some "prophecy"].
Proof.
  unfold analyzeResponseType.
  destruct (Z.ltb_spec 3 (Z.of_nat (length (default [] thread)))) as [Hlong|Hshort].
  { set_solver. }
  destruct (includes _ "?"); [set_solver|].
  destruct (detectDebate (default [] thread)) eqn:Hdebate.
  { apply detectDebate_long in Hdebate. lia. }
  destruct (detectCriticism _); [set_solver|].
  destruct (includes _ "unbeliever"); [set_solver|].
  destruct (includes _ "believe"); [set_solver|].
  destruct (matches_prophecy _); set_solver.
Qed.

(** X20. [analyzeResponseType] answers one of six types or nothing, and
    never "debate": a thread that [detectDebate] accepts has at least four
    tweets, and every thread of more than three tweets has already been
    answered "conversation", whatever the post says. A post that mentions
    an "unbeliever" is never answered "recruitment", although it contains
    "believe". *)
Theorem analyzeResponseType_spec :
  (forall (post : option string) (thread : option (list Tweet)),
      analyzeResponseType post thread
      ∈ [None; Some "conversation"; Some "question"; Some "defense"; Some "roast";
         Some "recruitment"; Some "prophecy"])
  /\ (forall (post : option string) (thread : option (list Tweet)),
        analyzeResponseType post thread <> Some "debate")
  /\ (forall thread : list Tweet,
        detectDebate thread = true -> 3 < Z.of_nat (length thread))
  /\ (forall (post : option string) (thread : list Tweet),
        3 < Z.of_nat (length thread) ->
        analyzeResponseType post (Some thread) = Some "conversation")
  /\ (forall (post : string) (thread : option (list Tweet)),
        includes (toLowerCase post) "unbeliever" = true ->
        analyzeResponseType (Some post) thread <> Some "recruitment").
Proof.
  pose proof analyzeResponseType_cases as Hcases.
  split; [done|]. split; [|split; [apply detectDebate_long|split]].
  - intros post thread Hdebate. specialize (Hcases post thread).
    rewrite Hdebate in Hcases. set_solver.
  - intros post thread Hlong. unfold analyzeResponseType. simpl.
    destruct (Z.ltb_spec 3 (Z.of_nat (length thread))); [done | lia].
  - intros post thread Hun. unfold analyzeResponseType. rewrite Hun.
    destruct (_ <? _); [done|]. destruct (includes _ "?"); [done|].
    destruct (detectDebate _); [done|]. by destruct (detectCriticism _).
Qed.

Lemma analyzeResponseType_spec_witness :
  analyzeResponseType (Some "I am an Unbeliever") (Some short_thread)
  <> Some "recruitment".
Proof.
  apply (proj2 (proj2 (proj2 (proj2 analyzeResponseType_spec)))
           "I am an Unbeliever" (Some short_thread)).
  vm_compute. reflexivity.
Defined.

(** X21. Every hour of the day has a time-based type: the answer is one
    of "prophecy", "motivation", "engagement" and "recruitment", never
    "general". So [determineTemplateType] is settled by the analysis of a
    reply or else by the hour, and never asks [selectTemplateByContent]. *)
Theorem time_settles_the_type :
  (forall hour : Z,
      getTimeBasedTemplateType hour
      ∈ ["prophecy"; "motivation"; "engagement"; "recruitment"])
  /\ (forall (isReply : bool) (post : option string) (thread : option (list Tweet))
        (hour : Z) (byContent : string),
        determineTemplateType isReply post thread hour byContent
        = match (if isReply then analyzeResponseType post thread else None) with
          | Some responseType => responseType
          | None => getTimeBasedTemplateType hour
          end).
Proof.
  assert (Htime : forall hour, getTimeBasedTemplateType hour
                    ∈ ["prophecy"; "motivation"; "engagement"; "recruitment"]).
  { intros hour. unfold getTimeBasedTemplateType.
    destruct (Z.leb_spec 20 hour); [set_solver|].
    destruct (Z.leb_spec hour 4); [set_solver|]. cbn [orb].
    destruct (Z.leb_spec 5 hour); [|lia].
    destruct (Z.leb_spec hour 9); [set_solver|]. cbn [andb].
    destruct (Z.leb_spec 10 hour); [|lia].
    destruct (Z.leb_spec hour 16); [set_solver|]. cbn [andb].
    destruct (Z.leb_spec 17 hour); [|lia].
    destruct (Z.leb_spec hour 19); [set_solver | lia]. }
  split; [done|].
  intros isReply post thread hour byContent. unfold determineTemplateType.
  assert (Htruthy : truthy (Some (getTimeBasedTemplateType hour))
                    = Some (getTimeBasedTemplateType hour)).
  { specialize (Htime hour). unfold truthy. case_bool_decide as Hempty; [|done].
    rewrite Hempty in Htime. set_solver. }
  rewrite Htruthy. destruct isReply; [|done].
  pose proof (analyzeResponseType_cases post thread) as Hcases.
  destruct (analyzeResponseType post thread) as [responseType|]; [|done].
  unfold truthy. case_bool_decide as Hempty; [|done].
  rewrite Hempty in Hcases. set_solver.
Qed.
End TemplateTypes.

(** ** template-enhanced-client.ts: the cache of recent content *)

Section RecentContent.
Import Interactions EnhancedClient.
Context {R : Type} `{HasWorld R}.
Context (templateTypeFor : GenContext -> M R string)
        (getEnhancedTemplate : string -> GenContext -> M R string)
        (shouldRespond : GenContext -> M R string)
        (generateFromTemplate : string -> GenContext -> M R string)
        (formatTweet : string -> M R string).

Local Abbreviation generate :=
  (generateTweetContent templateTypeFor getEnhancedTemplate shouldRespond
     generateFromTemplate formatTweet).

(** The way to fresh content, after the cache has been missed. *)
Local Abbreviation fresh context :=
  (templateType ← in_rest (templateTypeFor context);
   template ← in_rest (getEnhancedTemplate templateType context);
   declined ← (if ctx_isReply context
               then (answer ← in_rest (shouldRespond context);
                     mret (negb (bool_decide (answer = "RESPOND"))))
               else mret false);
   if declined : bool then mret EmptyString
   else
     generatedContent ← in_rest (generateFromTemplate template context);
     formattedContent ← in_rest (formatTweet generatedContent);
     now ← Date_now;
     modify (fun g => mkGenerator (gen_rest g)
                        (<[dedupeKey context := (now, formattedContent)]>
                           (lastGeneratedContent g)));;
     mret formattedContent).




End RecentContent.

Section RecentContentScenario.
Import Interactions EnhancedClient.

End RecentContentScenario.

(** ** post.ts: the posting client *)

Section Posting.
Import Post PostClient.

(** What the steps of a post leave alone. *)
Lemma postTweet_preserves (tweetResponse : PostResponse) :
  preserves (fun c => (ext c, TWITTER_DRY_RUN c, isPosting c, generated c, timers c,
                       minMinutes (schedule c), maxMinutes (schedule c)))
    (postTweet tweetResponse).
Proof.
  unfold postTweet, sendTweetAndCreateMemory, createMemoryForTweet, updateCaches.
  preserve.
Qed.

Lemma generateTweetContent_run (c : Client) :
  generateTweetContent c =
    let c1 := set_generated (S (generated c)) c in
    match client_generateTweetContent (ext c) (generated c) with
    | Ok text => (Ok (mkResponse (truncateToCompleteSentence text) false), c1)
    | Throw e => (Throw e,
                  set_world (append_log LError "Error generating tweet content:" (world c)) c1)
    end.
Proof.
  unfold generateTweetContent. unfold_monad. cbn -[truncateToCompleteSentence].
  by destruct (client_generateTweetContent (ext c) (generated c)).
Qed.

(** What [postTweet] does with the text and with the time of the last
    post. *)
Lemma postTweet_effect (tweetResponse : PostResponse) (c : Client) :
  let r := postTweet tweetResponse c in
  (sent r.2 = sent c /\ schedule r.2 = schedule c
   /\ (content tweetResponse = EmptyString \/ TWITTER_DRY_RUN c = Some "true" ->
         r.1 = Ok tt /\ memories r.2 = memories c))
  \/ (content tweetResponse <> EmptyString /\ TWITTER_DRY_RUN c <> Some "true"
      /\ sendTweet_error (ext c) (content tweetResponse) = None
      /\ sent r.2 = sent c ++ [content tweetResponse]
      /\ (schedule r.2 = schedule c /\ (exists e, r.1 = Throw e)
          \/ r.1 = Ok tt
             /\ schedule r.2 = mkSchedule (minMinutes (schedule c)) (maxMinutes (schedule c))
                                 (next_now (world c)))).
Proof.
  cbv zeta. unfold postTweet.
  case_bool_decide as Hempty.
  { left. split; [done|]. split; [done|]. by intros _. }
  rewrite bind_run. cbn [gets].
  case_bool_decide as Hdry.
  { left. split; [done|]. split; [done|]. by intros _. }
  unfold sendTweetAndCreateMemory, createMemoryForTweet, updateCaches, try_catch.
  unfold_monad. cbn -[String.append].
  destruct (sendTweet_error (ext c) (content tweetResponse)) as [e|] eqn:Hsend;
    cbn -[String.append].
  { left. split; [done|]. split; [done|]. intros [?|?]; done. }
  right. split; [done|]. split; [done|]. split; [done|].
  destruct (read_result (ext c) (content tweetResponse)) as [tweet|e];
    cbn -[String.append]; [|split; [done|]; left; eauto].
  destruct (ensureRoomExists_error _ _); cbn -[String.append]; [split; [done|]; left; eauto|].
  destruct (ensureParticipantInRoom_error _ _); cbn -[String.append];
    [split; [done|]; left; eauto|].
  destruct (createMemory_error _ _); cbn -[String.append]; [split; [done|]; left; eauto|].
  destruct (getCachedTimeline_error _); cbn -[String.append]; [split; [done|]; left; eauto|].
  destruct (cacheTimeline_error _ _); cbn -[String.append]; [split; [done|]; left; eauto|].
  destruct (cacheTweet_error _ _); cbn -[String.append]; [split; [done|]; left; eauto|].
  destruct (cacheLastPost_error _ _); cbn -[String.append]; [split; [done|]; left; eauto|].
  split; [done|]. by right.
Qed.

(** A text that is sent: what becomes of the memories and of the time of
    the last post, according to the answers of the collaborators. *)
Lemma postTweet_steps (tweetResponse : PostResponse) (c : Client) :
  let r := postTweet tweetResponse c in
  let posted := content tweetResponse in
  posted <> EmptyString -> TWITTER_DRY_RUN c <> Some "true" ->
  (exists tweet,
      post_goes_through c posted tweet
      /\ r.1 = Ok tt
      /\ sent r.2 = sent c ++ [posted]
      /\ memories r.2 = {[ Interactions.memory_key (rest_id tweet) (agentId c) ]} ∪ memories c
      /\ schedule r.2 = mkSchedule (minMinutes (schedule c)) (maxMinutes (schedule c))
                          (next_now (world c)))
  \/ ((forall tweet, ~ post_goes_through c posted tweet)
      /\ (exists e, r.1 = Throw e)
      /\ schedule r.2 = schedule c
      /\ (sendTweet_error (ext c) posted = None -> sent r.2 = sent c ++ [posted])).
Proof.
  cbv zeta. intros Hempty Hdry. unfold postTweet.
  rewrite bool_decide_eq_false_2 by done.
  rewrite bind_run. cbn [gets]. rewrite bool_decide_eq_false_2 by done.
  unfold sendTweetAndCreateMemory, createMemoryForTweet, updateCaches, try_catch,
    post_goes_through.
  unfold_monad. cbn -[String.append].
  destruct (sendTweet_error (ext c) (content tweetResponse)) as [e|] eqn:Hsend;
    cbn -[String.append].
  { right. split; [by intros t (? & _)|]. split; [eauto|]. done. }
  destruct (read_result (ext c) (content tweetResponse)) as [tweet|e] eqn:Hread;
    cbn -[String.append].
  { destruct (ensureRoomExists_error _ _) eqn:H1; cbn -[String.append].
    { right. split; [|split; [eauto|done]].
      intros t (_ & [= <-] & ? & _). congruence. }
    destruct (ensureParticipantInRoom_error _ _) eqn:H2; cbn -[String.append].
    { right. split; [|split; [eauto|done]].
      intros t (_ & [= <-] & _ & ? & _). congruence. }
    destruct (createMemory_error _ _) eqn:H3; cbn -[String.append].
    { right. split; [|split; [eauto|done]].
      intros t (_ & [= <-] & _ & _ & ? & _). congruence. }
    destruct (getCachedTimeline_error _) eqn:H4; cbn -[String.append].
    { right. split; [|split; [eauto|done]].
      intros t (_ & _ & _ & _ & _ & ? & _). congruence. }
    destruct (cacheTimeline_error _ _) eqn:H5; cbn -[String.append].
    { right. split; [|split; [eauto|done]].
      intros t (_ & [= <-] & _ & _ & _ & _ & ? & _). congruence. }
    destruct (cacheTweet_error _ _) eqn:H6; cbn -[String.append].
    { right. split; [|split; [eauto|done]].
      intros t (_ & [= <-] & _ & _ & _ & _ & _ & ? & _). congruence. }
    destruct (cacheLastPost_error _ _) eqn:H7; cbn -[String.append].
    { right. split; [|split; [eauto|done]].
      intros t (_ & [= <-] & _ & _ & _ & _ & _ & _ & ?). congruence. }
    left. exists tweet. done. }
  right. split; [by intros t (_ & ? & _)|]. split; [eauto|]. done.
Qed.

Lemma try_finally_returns {A} (body : M Client A) (cleanup : Client -> Client) :
  returns body -> returns (try_finally body cleanup).
Proof.
  intros Hb c. unfold try_finally. destruct (Hb c) as [a Ha].
  destruct (body c) as [r c']. simpl in *. by exists a.
Qed.

Lemma generateNewTweet_returns : returns generateNewTweet.
Proof.
  unfold generateNewTweet.
  apply returns_bind; [apply returns_gets | intros busy].
  destruct busy; [apply returns_elizaLogger|].
  apply returns_bind; [apply returns_modify | intros _].
  apply returns_bind; [apply returns_elizaLogger | intros _].
  apply try_finally_returns. apply returns_try_catch. intros e. apply returns_elizaLogger.
Qed.

(** The attempt of an idle client, step by step. *)
Lemma generateNewTweet_idle (c : Client) :
  isPosting c = false ->
  let c0 := set_world (append_log LLog "Generating new tweet" (world c))
              (set_isPosting true c) in
  exists c', generateNewTweet c = (Ok tt, c')
    /\ isPosting c' = false
    /\ generated c' = S (generated c)
    /\ ext c' = ext c /\ TWITTER_DRY_RUN c' = TWITTER_DRY_RUN c /\ timers c' = timers c
    /\ minMinutes (schedule c') = minMinutes (schedule c)
    /\ maxMinutes (schedule c') = maxMinutes (schedule c)
    /\ match client_generateTweetContent (ext c) (generated c) with
       | Throw _ => sent c' = sent c /\ schedule c' = schedule c /\ memories c' = memories c
       | Ok text =>
           let tweetResponse := mkResponse (truncateToCompleteSentence text) false in
           let r := postTweet tweetResponse (set_generated (S (generated c)) c0) in
           sent c' = sent r.2 /\ schedule c' = schedule r.2 /\ memories c' = memories r.2
       end.
Proof.
  intros Hidle c0. unfold generateNewTweet. rewrite bind_run. cbn [gets]. rewrite Hidle.
  rewrite bind_run. cbn [modify]. rewrite bind_run. cbn [elizaLogger modify].
  change (with_world (append_log LLog "Generating new tweet" (world_of (set_isPosting true c)))
            (set_isPosting true c)) with c0.
  unfold try_finally, try_catch. rewrite bind_run, generateTweetContent_run. cbv zeta.
  change (ext c0) with (ext c). change (generated c0) with (generated c).
  destruct (client_generateTweetContent (ext c) (generated c)) as [text|e].
  - set (tweetResponse := mkResponse (truncateToCompleteSentence text) false).
    set (c1 := set_generated (S (generated c)) c0).
    pose proof (postTweet_preserves tweetResponse c1) as Hp.
    destruct (postTweet tweetResponse c1) as [[[]|e] c2]; simpl in Hp;
      injection Hp as He Hd Hb Hg Ht Hmin Hmax;
      eexists; (split; [reflexivity|]); cbn; by rewrite ?He, ?Hd, ?Hg, ?Ht, ?Hmin, ?Hmax.
  - eexists. split; [reflexivity|]. done.
Qed.

(** X23. [generateNewTweet] never throws. While a generation is in
    progress it does nothing but log one line: the flag stays set and the
    model is not called. Otherwise it calls the model once and leaves the
    flag cleared, whether generation and posting succeed or fail. *)
Theorem generateNewTweet_guards_itself :
  returns generateNewTweet
  /\ (forall c : Client, isPosting c = true ->
        generateNewTweet c
        = (Ok tt,
           set_world (append_log LLog "Tweet generation already in progress, skipping"
                        (world c)) c))
  /\ (forall c : Client, isPosting c = false ->
        let c' := (generateNewTweet c).2 in
        isPosting c' = false /\ generated c' = S (generated c)
        /\ timers c' = timers c
        /\ minMinutes (schedule c') = minMinutes (schedule c)
        /\ maxMinutes (schedule c') = maxMinutes (schedule c)).
Proof.
  split; [apply generateNewTweet_returns|]. split.
  - intros c Hbusy. unfold generateNewTweet. rewrite bind_run. cbn [gets].
    by rewrite Hbusy.
  - intros c Hidle. destruct (generateNewTweet_idle c Hidle)
      as (c' & Hrun & Hflag & Hgen & _ & _ & Ht & Hmin & Hmax & _).
    by rewrite Hrun.
Qed.

Lemma generateNewTweet_guards_itself_witness :
  let c := set_isPosting true
             (fresh_client calm_externals None (Scenarios.steady_world 0 0)) in
  generateNewTweet c
  = (Ok tt,
     set_world (append_log LLog "Tweet generation already in progress, skipping"
                  (world c)) c).
Proof.
  intros c. apply (proj1 (proj2 generateNewTweet_guards_itself) c). reflexivity.
Defined.

(** X24. An attempt posts at most one tweet, and what it posts is the
    generated text as [truncateToCompleteSentence] leaves it, never the
    empty text. Nothing is posted when generation fails, when the text is
    empty, or when [TWITTER_DRY_RUN] is "true"; a dry run also leaves the
    schedule and the memories as they were. *)
Theorem only_the_truncated_text_is_posted (c : Client) :
  isPosting c = false ->
  let c' := (generateNewTweet c).2 in
  (sent c' = sent c
   \/ exists text,
        client_generateTweetContent (ext c) (generated c) = Ok text
        /\ truncateToCompleteSentence text <> EmptyString
        /\ TWITTER_DRY_RUN c <> Some "true"
        /\ sent c' = sent c ++ [truncateToCompleteSentence text])
  /\ (TWITTER_DRY_RUN c = Some "true" ->
        sent c' = sent c /\ schedule c' = schedule c /\ memories c' = memories c).
Proof.
  intros Hidle. cbv zeta.
  destruct (generateNewTweet_idle c Hidle) as (c' & Hrun & _ & _ & _ & _ & _ & _ & _ & Hpost).
  rewrite Hrun. cbn [snd].
  destruct (client_generateTweetContent (ext c) (generated c)) as [text|e].
  2: { destruct Hpost as (-> & -> & ->). split; [by left | done]. }
  cbv zeta in Hpost. destruct Hpost as (-> & -> & ->).
  match goal with |- context [postTweet ?r ?c1] =>
    pose proof (postTweet_effect r c1) as Heff; cbv zeta in Heff;
    set (run := postTweet r c1) in *
  end.
  cbn [content TWITTER_DRY_RUN set_generated set_world set_isPosting sent schedule
       ext] in Heff.
  destruct Heff as [(Hs & Hsch & Hquiet)|(Hne & Hdry & _ & Hs & _)].
  - split; [by left|]. intros Hdry. destruct (Hquiet (or_intror Hdry)) as [_ Hm].
    by rewrite Hs, Hsch, Hm.
  - split; [|done]. right. exists text. by rewrite Hs.
Qed.

Lemma only_the_truncated_text_is_posted_witness :
  let c := fresh_client calm_externals (Some "true") (Scenarios.steady_world 0 0) in
  let c' := (generateNewTweet c).2 in
  (sent c' = sent c
   \/ exists text,
        client_generateTweetContent (ext c) (generated c) = Ok text
        /\ truncateToCompleteSentence text <> EmptyString
        /\ TWITTER_DRY_RUN c <> Some "true"
        /\ sent c' = sent c ++ [truncateToCompleteSentence text])
  /\ (TWITTER_DRY_RUN c = Some "true" ->
        sent c' = sent c /\ schedule c' = schedule c /\ memories c' = memories c).
Proof.
  intros c.
  apply (only_the_truncated_text_is_posted c). reflexivity.
Defined.

(** X25. The time of the last post moves only when a tweet has been
    posted and stored and every cache has been written: every collaborator
    of [postTweet] has answered, the memory of the tweet is in the store,
    and the new time is the reading of the clock that [updateCaches] takes.
    Whenever all of them answer, the time does move. If the text was
    posted but a later step failed, the time of the last post stays where
    it was. *)
Theorem lastPostTime_follows_posts (c : Client) :
  isPosting c = false ->
  let c' := (generateNewTweet c).2 in
  let moved := mkSchedule (minMinutes (schedule c)) (maxMinutes (schedule c))
                 (next_now (world c)) in
  (schedule c' = schedule c
   \/ exists text tweet,
        client_generateTweetContent (ext c) (generated c) = Ok text
        /\ truncateToCompleteSentence text <> EmptyString
        /\ TWITTER_DRY_RUN c <> Some "true"
        /\ post_goes_through c (truncateToCompleteSentence text) tweet
        /\ sent c' = sent c ++ [truncateToCompleteSentence text]
        /\ memories c'
           = {[ Interactions.memory_key (rest_id tweet) (agentId c) ]} ∪ memories c
        /\ schedule c' = moved)
  /\ (forall text tweet,
        client_generateTweetContent (ext c) (generated c) = Ok text ->
        truncateToCompleteSentence text <> EmptyString ->
        TWITTER_DRY_RUN c <> Some "true" ->
        post_goes_through c (truncateToCompleteSentence text) tweet ->
        schedule c' = moved)
  /\ (forall text,
        client_generateTweetContent (ext c) (generated c) = Ok text ->
        truncateToCompleteSentence text <> EmptyString ->
        TWITTER_DRY_RUN c <> Some "true" ->
        sendTweet_error (ext c) (truncateToCompleteSentence text) = None ->
        (forall tweet, ~ post_goes_through c (truncateToCompleteSentence text) tweet) ->
        sent c' = sent c ++ [truncateToCompleteSentence text]
        /\ schedule c' = schedule c).
Proof.
  intros Hidle. cbv zeta.
  destruct (generateNewTweet_idle c Hidle) as (c' & Hrun & _ & _ & _ & _ & _ & _ & _ & Hpost).
  rewrite Hrun. cbn [snd].
  destruct (client_generateTweetContent (ext c) (generated c)) as [text|e].
  2: { destruct Hpost as (_ & -> & _). split; [by left|]. split; intros; done. }
  cbv zeta in Hpost. destruct Hpost as (-> & -> & ->).
  match goal with |- context [postTweet ?r ?c1] =>
    pose proof (postTweet_effect r c1) as Heff;
    pose proof (postTweet_steps r c1) as Hsteps; cbv zeta in Heff, Hsteps;
    set (run := postTweet r c1) in *
  end.
  cbn [content TWITTER_DRY_RUN set_generated set_world set_isPosting sent schedule
       ext world memories agentId] in Heff, Hsteps.
  change (post_goes_through _ ?p ?t) with (post_goes_through c p t) in Hsteps.
  change (next_now (append_log _ _ (world c))) with (next_now (world c)) in Hsteps.
  destruct (decide (truncateToCompleteSentence text = EmptyString)) as [Hempty|Hfull].
  { destruct Heff as [(_ & Hsch & _)|(? & _)]; [|done].
    split; [by left|]. split; [by intros ? ? [= <-]|by intros ? [= <-]]. }
  destruct (decide (TWITTER_DRY_RUN c = Some "true")) as [Hdry|Hwet].
  { destruct Heff as [(_ & Hsch & _)|(_ & ? & _)]; [|done].
    split; [by left|]. split; [by intros ? ? [= <-]|by intros ? [= <-]]. }
  destruct (Hsteps Hfull Hwet)
    as [(tweet & Hgo & _ & Hsent & Hmem & Hsch)|(Hfail & _ & Hsch & Hsent)].
  - split; [right; by exists text, tweet|].
    split; [by intros ? ? [= <-]|].
    intros ? [= <-] _ _ _ Hnone. by destruct (Hnone tweet).
  - split; [by left|]. split.
    + intros ? tweet [= <-] _ _ Hgo. by destruct (Hfail tweet).
    + intros ? [= <-] _ _ Hsend _. split; [by apply Hsent | done].
Qed.

Lemma lastPostTime_follows_posts_witness :
  let c := fresh_client forgetful_externals None (Scenarios.steady_world 0 5000) in
  let c' := (generateNewTweet c).2 in
  sent c' = sent c ++ [truncateToCompleteSentence "gm"] /\ schedule c' = schedule c.
Proof.
  intros c.
  apply (proj2 (proj2 (lastPostTime_follows_posts c eq_refl)) "gm").
  - reflexivity.
  - discriminate.
  - discriminate.
  - reflexivity.
  - intros tweet (_ & _ & _ & _ & _ & _ & _ & _ & Hcache). discriminate Hcache.
Defined.

(** When the cache of the last post cannot be written, the tweet is out
    but the time of the last post is not moved: the next turn of the loop
    posts again. *)
Example posted_but_not_recorded :
  let c := fresh_client forgetful_externals None (Scenarios.steady_world (1 # 2) 100000000) in
  let first := (generateNewTweetLoop c).2 in
  let second := (generateNewTweetLoop first).2 in
  sent first = ["gm"] /\ lastPostTime (schedule first) = 0
  /\ sent second = ["gm"; "gm"].
Proof. vm_compute. repeat split; reflexivity. Qed.

Lemma generateNewTweetLoop_run (c : Client) :
  let s := schedule c in
  let elapsed := next_now (world c) - lastPostTime s in
  let randomMinutes :=
    Qfloor (next_random (world c) * inject_Z (maxMinutes s - minMinutes s + 1))
    + minMinutes s in
  let delay := randomMinutes * 60 * 1000 in
  exists c',
    generateNewTweetLoop c = (Ok tt, c')
    /\ timers c' = timers c ++ [delay]
    /\ isPosting c' = isPosting c
    /\ generated c'
       = (if (delay <=? elapsed) && negb (isPosting c) then S (generated c)
          else generated c)
    /\ (unit_random (world c) -> minMinutes s <= maxMinutes s ->
          minMinutes s <= randomMinutes <= maxMinutes s
          /\ (isPosting c = false -> maxMinutes s * 60000 <= elapsed ->
                generated c' = S (generated c))
          /\ (elapsed < minMinutes s * 60000 ->
                generated c' = generated c /\ sent c' = sent c)).
Proof.
  cbv zeta. unfold generateNewTweetLoop, try_catch, random_below.
  rewrite bind_run. cbn [Date_now]. rewrite bind_run. cbn [gets].
  rewrite !bind_run. cbn [Math_random mret M_ret]. rewrite bind_run. cbn [gets].
  set (c1 := with_world (advance_random (world_of (with_world (advance_clock (world_of c)) c)))
               (with_world (advance_clock (world_of c)) c)).
  change (schedule (with_world (advance_clock (world_of c)) c)) with (schedule c).
  change (next_random (world_of (with_world (advance_clock (world_of c)) c)))
    with (next_random (world c)).
  change (next_now (world_of c)) with (next_now (world c)).
  change (isPosting c1) with (isPosting c).
  set (randomMinutes := Qfloor (next_random (world c)
                                * inject_Z (maxMinutes (schedule c) - minMinutes (schedule c) + 1))
                        + minMinutes (schedule c)).
  set (delay := randomMinutes * 60 * 1000).
  set (elapsed := next_now (world c) - lastPostTime (schedule c)).
  assert (Hbounds : unit_random (world c) ->
            minMinutes (schedule c) <= maxMinutes (schedule c) ->
            minMinutes (schedule c) <= randomMinutes <= maxMinutes (schedule c)).
  { intros Hunit Hle. destruct (Hunit (rand_pos (world c))) as [H0 H1].
    pose proof (random_below_bounds _
                  (maxMinutes (schedule c) - minMinutes (schedule c) + 1) H0 H1
                  ltac:(lia)) as Hb.
    unfold randomMinutes, next_random. lia. }
  assert (Hattempt : exists c2,
            (if (delay <=? elapsed) && negb (isPosting c) then generateNewTweet else mret tt) c1
            = (Ok tt, c2)
            /\ timers c2 = timers c /\ isPosting c2 = isPosting c
            /\ generated c2
               = (if (delay <=? elapsed) && negb (isPosting c) then S (generated c)
                  else generated c)
            /\ ((delay <=? elapsed) && negb (isPosting c) = false -> sent c2 = sent c)).
  { destruct ((delay <=? elapsed) && negb (isPosting c)) eqn:Hgo.
    - apply andb_true_iff in Hgo as [_ Hidle%negb_true_iff].
      destruct (generateNewTweet_idle c1 Hidle) as (c2 & Hrun & Hflag & Hgen & _ & _ & Ht & _).
      exists c2. rewrite Hrun, Hidle. done.
    - by exists c1. }
  destruct Hattempt as (c2 & Hrun2 & Ht & Hflag & Hgen & Hsent).
  rewrite bind_run, Hrun2, bind_run. cbn [modify]. cbn [elizaLogger modify].
  eexists. split; [reflexivity|]. cbn [timers isPosting generated sent with_world
    Client_world set_world set_timers].
  split; [by rewrite Ht|]. split; [done|]. split; [done|].
  intros Hunit Hle. specialize (Hbounds Hunit Hle). split; [done|]. split.
  - intros Hidle Hdue. rewrite Hgen, Hidle.
    destruct (Z.leb_spec delay elapsed); [done|]. unfold delay in *. lia.
  - intros Hearly. destruct (Z.leb_spec delay elapsed) as [Hdue|Hwait].
    + unfold delay in *. lia.
    + split; [by rewrite Hgen | by apply Hsent].
Qed.

(** X26. A turn of the posting loop never fails and sets exactly one
    timer, for the delay it has drawn: a whole number of minutes which,
    for a draw in the unit interval, lies between [minMinutes] and
    [maxMinutes]. The retry after five minutes is never used. The turn
    attempts a post exactly when the time since the last post has reached
    the delay just drawn and no generation is in progress: always once
    [maxMinutes] have passed, never before [minMinutes] have. *)
Theorem posting_loop_turn (c : Client) :
  let s := schedule c in
  let elapsed := next_now (world c) - lastPostTime s in
  let randomMinutes :=
    Qfloor (next_random (world c) * inject_Z (maxMinutes s - minMinutes s + 1))
    + minMinutes s in
  let delay := randomMinutes * 60 * 1000 in
  exists c',
    generateNewTweetLoop c = (Ok tt, c')
    /\ timers c' = timers c ++ [delay]
    /\ isPosting c' = isPosting c
    /\ generated c'
       = (if (delay <=? elapsed) && negb (isPosting c) then S (generated c)
          else generated c)
    /\ (unit_random (world c) -> minMinutes s <= maxMinutes s ->
          minMinutes s <= randomMinutes <= maxMinutes s
          /\ (isPosting c = false -> maxMinutes s * 60000 <= elapsed ->
                generated c' = S (generated c))
          /\ (elapsed < minMinutes s * 60000 ->
                generated c' = generated c /\ sent c' = sent c)).
Proof. exact (generateNewTweetLoop_run c). Qed.


(** A client that has never posted, one hundred million milliseconds in,
    with a draw of one half: the delay is 135 minutes, a post is made. *)
Example posting_loop_demo :
  let c := fresh_client calm_externals None (Scenarios.steady_world (1 # 2) 100000000) in
  let c' := (generateNewTweetLoop c).2 in
  timers c' = [135 * 60 * 1000] /\ sent c' = ["gm"]
  /\ lastPostTime (schedule c') = 100000000.
Proof. vm_compute. repeat split; reflexivity. Qed.

(** A turn of the loop is its part up to the first [await] followed by
    the rest. *)
Lemma generateNewTweetLoop_split (c : Client) :
  generateNewTweetLoop c
  = (turn ← generateNewTweetLoop_begin; generateNewTweetLoop_resume turn) c.
Proof.
  unfold generateNewTweetLoop, generateNewTweetLoop_begin, generateNewTweetLoop_resume,
    generateNewTweet, generateNewTweet_begin, generateNewTweet_resume,
    generateTweetContent, random_below, try_finally.
  unfold_monad. cbn -[postTweet Qfloor Z.mul Z.leb truncateToCompleteSentence pretty String.append].
  destruct (isPosting c) eqn:Hbusy.
  - rewrite andb_false_r. reflexivity.
  - rewrite andb_true_r.
    destruct (_ <=? _); [|reflexivity].
    cbn -[postTweet Qfloor Z.mul Z.leb truncateToCompleteSentence pretty String.append].
    rewrite Hbusy.
    cbn -[postTweet Qfloor Z.mul Z.leb truncateToCompleteSentence pretty String.append].
    destruct (client_generateTweetContent (ext c) (generated c)) as [text|e];
      cbn -[postTweet Qfloor Z.mul Z.leb truncateToCompleteSentence pretty String.append].
    + match goal with |- context [postTweet ?r ?c1] =>
        destruct (postTweet r c1) as [[[]|e] c2] end; reflexivity.
    + reflexivity.
Qed.

(** The part of a turn that runs before its first [await]. *)
Lemma generateNewTweetLoop_begin_run (c : Client) :
  let s := schedule c in
  let elapsed := next_now (world c) - lastPostTime s in
  let randomMinutes :=
    Qfloor (next_random (world c) * inject_Z (maxMinutes s - minMinutes s + 1))
    + minMinutes s in
  let delay := randomMinutes * 60 * 1000 in
  exists turn c',
    generateNewTweetLoop_begin c = (Ok turn, c')
    /\ pending turn = (delay <=? elapsed) && negb (isPosting c)
    /\ schedule c' = schedule c
    /\ match turn with
       | TurnDone =>
           timers c' = timers c ++ [delay] /\ isPosting c' = isPosting c
           /\ generated c' = generated c
       | TurnPending d _ call =>
           d = delay /\ call = generated c
           /\ timers c' = timers c /\ isPosting c = false /\ isPosting c' = true
           /\ generated c' = S (generated c)
       end.
Proof.
  cbv zeta. unfold generateNewTweetLoop_begin, generateNewTweet_begin, random_below.
  unfold_monad. cbn -[Qfloor Z.mul Z.leb pretty String.append].
  destruct (_ <=? _); cbn -[Qfloor Z.mul Z.leb pretty String.append].
  - destruct (isPosting c) eqn:Hbusy; cbn -[Qfloor Z.mul Z.leb pretty String.append];
      do 2 eexists; (split; [reflexivity|]); done.
  - do 2 eexists. split; [reflexivity|]. done.
Qed.

(** X30. [start] reads the time of the last post from the cache (0 when
    there is none), makes an attempt at once when it is asked to or when
    the setting says so, and starts the first turn of the loop without
    waiting for it. When that turn has no post to make, it is complete when
    [start] has nothing left to do: the first timer is set. When it has a
    post to make, it is left waiting for the model: the flag is set, the
    model has been called, and no timer is set yet; the timer is set, and
    the flag cleared, only when what is left of the turn has run. When the
    cache cannot be read, [start] logs the error and throws it again:
    nothing is generated and no timer is set, so the client never posts. *)
Theorem post_client_start :
  (forall (postImmediately : bool) (c : Client) (e : JsError),
      getLastPost (ext c) = Throw e ->
      start postImmediately c
      = (Throw e, set_world (append_log LError "Error starting post client:" (world c)) c))
  /\ (forall (postImmediately : bool) (c : Client) (lastPost : option Z),
        getLastPost (ext c) = Ok lastPost ->
        exists turn c',
          start postImmediately c = (Ok turn, c')
          /\ (generated c <= generated c')%nat
          /\ (isPosting c = false -> postImmediately || POST_IMMEDIATELY c = true ->
                (S (generated c) <= generated c')%nat)
          /\ match turn with
             | TurnDone =>
                 exists delay, timers c' = timers c ++ [delay]
                   /\ isPosting c' = isPosting c
             | TurnPending _ _ call =>
                 timers c' = timers c /\ isPosting c = false /\ isPosting c' = true
                 /\ generated c' = S call
             end
          /\ (exists delay c'',
                generateNewTweetLoop_resume turn c' = (Ok tt, c'')
                /\ timers c'' = timers c ++ [delay] /\ isPosting c'' = isPosting c)
          /\ (postImmediately || POST_IMMEDIATELY c = false ->
                let s := schedule c in
                let elapsed := next_now (world c) - default 0 lastPost in
                let delay :=
                  (Qfloor (next_random (world c)
                           * inject_Z (maxMinutes s - minMinutes s + 1))
                   + minMinutes s) * 60 * 1000 in
                pending turn = (delay <=? elapsed) && negb (isPosting c)
                /\ lastPostTime (schedule c') = default 0 lastPost)).
Proof.
  split.
  - intros postImmediately c e Hcache. unfold start, try_catch, initializePostSchedule.
    rewrite !bind_run. cbn [gets]. rewrite Hcache. done.
  - intros postImmediately c lastPost Hcache.
    unfold start, try_catch, initializePostSchedule.
    rewrite !bind_run. cbn [gets]. rewrite Hcache.
    rewrite bind_run. cbn [await modify].
    set (c0 := set_schedule _ c).
    unfold startPostingLoop. rewrite bind_run. cbn [gets].
    change (POST_IMMEDIATELY c0) with (POST_IMMEDIATELY c).
    assert (Hfirst : exists c1,
              (if postImmediately || POST_IMMEDIATELY c then generateNewTweet else mret tt) c0
              = (Ok tt, c1)
              /\ timers c1 = timers c /\ isPosting c1 = isPosting c
              /\ (generated c <= generated c1)%nat
              /\ (isPosting c = false -> postImmediately || POST_IMMEDIATELY c = true ->
                    (S (generated c) <= generated c1)%nat)
              /\ (postImmediately || POST_IMMEDIATELY c = false -> c1 = c0)).
    { destruct (postImmediately || POST_IMMEDIATELY c).
      - destruct (isPosting c) eqn:Hbusy.
        + exists (set_world (append_log LLog "Tweet generation already in progress, skipping"
                              (world c0)) c0).
          split; [|done]. unfold generateNewTweet. rewrite bind_run. cbn [gets].
          change (isPosting c0) with (isPosting c). by rewrite Hbusy.
        + destruct (generateNewTweet_idle c0 Hbusy)
            as (c1 & Hrun & Hflag & Hgen & _ & _ & Ht & _).
          exists c1. split; [done|]. split; [done|]. split; [done|].
          change (generated c0) with (generated c) in Hgen.
          split; [lia|]. split; [intros _ _; lia | done].
      - exists c0. split; [done|]. split; [done|]. split; [done|]. split; [done|].
        split; [by intros _ ? | done]. }
    destruct Hfirst as (c1 & Hrun1 & Ht1 & Hflag1 & Hgen1 & Hnow1 & Hquiet).
    rewrite bind_run, Hrun1.
    destruct (generateNewTweetLoop_begin_run c1)
      as (turn & c2 & Hrun2 & Hpending & Hsch & Hturn).
    destruct (generateNewTweetLoop_run c1) as (c3 & Hrun3 & Ht3 & Hflag3 & _).
    rewrite generateNewTweetLoop_split, bind_run, Hrun2 in Hrun3.
    rewrite Hrun2. exists turn, c2. split; [reflexivity|].
    assert (Hmono : (generated c1 <= generated c2)%nat).
    { destruct turn; [destruct Hturn as (_ & _ & ->); lia|].
      destruct Hturn as (_ & _ & _ & _ & _ & ->). lia. }
    split; [lia|]. split; [intros Hidle Hask; specialize (Hnow1 Hidle Hask); lia|].
    split; [|split].
    + destruct turn.
      * destruct Hturn as (Ht2 & Hflag2 & _). eexists. split; [by rewrite Ht2, Ht1|].
        congruence.
      * destruct Hturn as (_ & -> & Ht2 & Hidle & Hflag2 & Hgen2).
        split; [congruence|]. split; [congruence|]. done.
    + do 2 eexists. split; [exact Hrun3|]. split; [by rewrite Ht3, Ht1 | congruence].
    + intros Hask. rewrite (Hquiet Hask) in Hpending, Hsch. cbv zeta.
      split; [exact Hpending|]. by rewrite Hsch.
Qed.

Lemma post_client_start_witness :
  let c := fresh_client calm_externals None (Scenarios.steady_world (1 # 2) 100000000) in
  exists turn c',
    start false c = (Ok turn, c')
    /\ pending turn = true /\ timers c' = [] /\ isPosting c' = true
    /\ exists delay c'',
         generateNewTweetLoop_resume turn c' = (Ok tt, c'')
         /\ timers c'' = [delay] /\ isPosting c'' = false.
Proof.
  intros c.
  destruct (proj2 post_client_start false c None eq_refl)
    as (turn & c' & Hrun & _ & _ & Hturn & Hrest & Hwhen).
  exists turn, c'. split; [exact Hrun|].
  destruct (Hwhen eq_refl) as [Hpending _].
  assert (Hp : pending turn = true) by (rewrite Hpending; vm_compute; reflexivity).
  split; [exact Hp|].
  destruct turn as [|delay minutes call]; [discriminate Hp|].
  destruct Hturn as (Ht & _ & Hflag & _).
  split; [exact Ht|]. split; [exact Hflag|]. exact Hrest.
Defined.
End Posting.

(** ** post.ts: what truncation does guarantee *)

Section TruncationBounds.
Import Post.

Lemma lastIndexOf_scan_bounds (c : ascii) (pos : Z) (s : string) (i best : Z) :
  best < i -> best <= lastIndexOf_scan c pos s i best <= Z.max best pos.
Proof.
  revert i best. induction s as [|a s IH]; intros i best Hlt; simpl; [lia|].
  destruct (Z.leb_spec i pos); [|lia].
  destruct (char_is c a).
  - specialize (IH (i + 1) i ltac:(lia)). lia.
  - specialize (IH (i + 1) best ltac:(lia)). lia.
Qed.

Lemma lastIndexOf_bounds (s : string) (c : ascii) (pos : Z) :
  0 <= pos -> -1 <= lastIndexOf s c pos <= pos.
Proof.
  intros Hpos. unfold lastIndexOf.
  pose proof (lastIndexOf_scan_bounds c pos s 0 (-1) ltac:(lia)). lia.
Qed.

Lemma slice0_length (s : string) (e : Z) :
  js_length (slice0 s e)
  <= (if e <? 0 then Z.max (js_length s + e) 0 else Z.min e (js_length s)).
Proof.
  unfold slice0, js_length.
  destruct (Z.ltb_spec e 0).
  - pose proof (substring0_length
                  (Z.to_nat (Z.max (Z.of_nat (String.length s) + e) 0)) s). lia.
  - pose proof (substring0_length (Z.to_nat (Z.min e (Z.of_nat (String.length s)))) s).
    lia.
Qed.

Lemma js_length_append (s t : string) : js_length (s +:+ t) = js_length s + js_length t.
Proof. unfold js_length. rewrite append_length. lia. Qed.

(** X27. [truncateToCompleteSentence] returns a text of at most 280
    characters as it is. For a longer text the result is never empty and
    never more than two characters longer than the text; it has at most
    281 characters when it ends at a period, and at most 283 when the text
    has a space among its first 281 characters. *)
Theorem truncate_bounds (text : string) :
  (js_length text <= MAX_TWEET_LENGTH -> truncateToCompleteSentence text = text)
  /\ js_length (truncateToCompleteSentence text) <= js_length text + 2
  /\ (MAX_TWEET_LENGTH < js_length text ->
        0 < js_length (truncateToCompleteSentence text)
        /\ (0 < js_length (trim (slice0 text (lastIndexOf text "." MAX_TWEET_LENGTH + 1))) ->
              truncateToCompleteSentence text
              = trim (slice0 text (lastIndexOf text "." MAX_TWEET_LENGTH + 1))
              /\ js_length (truncateToCompleteSentence text) <= MAX_TWEET_LENGTH + 1)
        /\ (0 <= lastIndexOf text " " MAX_TWEET_LENGTH ->
              js_length (truncateToCompleteSentence text) <= MAX_TWEET_LENGTH + 3)).
Proof.
  split; [apply truncate_short|].
  unfold truncateToCompleteSentence, MAX_TWEET_LENGTH.
  destruct (Z.leb_spec (js_length text) 280) as [Hshort|Hlong].
  { split; [lia|]. intros. lia. }
  pose proof (lastIndexOf_bounds text "." 280 ltac:(lia)) as Hp.
  pose proof (lastIndexOf_bounds text " " 280 ltac:(lia)) as Hsp.
  set (p := lastIndexOf text "." 280) in *.
  set (sp := lastIndexOf text " " 280) in *.
  pose proof (trim_length (slice0 text (p + 1))) as Htp.
  pose proof (slice0_length text (p + 1)) as Hsl.
  pose proof (trim_length (slice0 text sp)) as Hts.
  pose proof (slice0_length text sp) as Hss.
  pose proof (hard_cut_fits text) as Hhard. unfold MAX_TWEET_LENGTH in Hhard.
  destruct (Z.ltb_spec (p + 1) 0) as [|_]; [lia|].
  assert (Hdots : forall s, js_length (s +:+ "...") = js_length s + 3).
  { intros s. by rewrite js_length_append. }
  destruct (Z.ltb_spec 0 (js_length (trim (slice0 text (p + 1))))) as [Hperiod|Hblank].
  { split; [lia|]. intros _. split; [lia|]. split; [intros _; split; [done | lia]|].
    intros _. lia. }
  destruct (Z.ltb_spec 0 (js_length (trim (slice0 text sp)))) as [Hspace|Hnone].
  { rewrite Hdots. destruct (Z.ltb_spec sp 0).
    - split; [lia|]. intros _. split; [lia|]. split; [lia|]. lia.
    - split; [lia|]. intros _. split; [lia|]. split; [lia|]. intros _. lia. }
  rewrite Hdots in *. split; [lia|]. intros _. split; [|split]; [|lia|lia].
  pose proof (Zle_0_nat (String.length (trim (slice0 text (280 - 3))))).
  unfold js_length. lia.
Qed.

Lemma truncate_bounds_witness :
  truncateToCompleteSentence "gm" = "gm".
Proof.
  apply (proj1 (truncate_bounds "gm")). vm_compute. discriminate.
Defined.
End TruncationBounds.

(** ** Settings read by the constructors *)

Section SettingsFacts.
Import Interactions Settings.

Lemma int_setting_nonzero (v : option string) (fallback : Z) :
  fallback <> 0 -> int_setting v fallback <> 0.
Proof.
  intros Hf. unfold int_setting. destruct (parseInt v) as [n|]; [|done].
  by destruct (Z.eqb_spec n 0).
Qed.

(** X28. A limit read as [parseInt(setting) || fallback] is never 0: a
    setting that is missing, that does not start with a number, or whose
    number is 0 gives the fallback, and any other number is taken as it
    is. So none of the limits of the interaction client and none of the
    bounds of the posting schedule can be set to 0, and the reply
    probability cannot be set to 0 either. *)
Theorem settings_never_zero :
  (forall (v : option string) (fallback : Z),
      fallback <> 0 -> int_setting v fallback <> 0)
  /\ (forall (v : option string) (fallback : Z),
        parseInt v = None \/ parseInt v = Some 0 -> int_setting v fallback = fallback)
  /\ (forall (v : option string) (fallback n : Z),
        parseInt v = Some n -> n <> 0 -> int_setting v fallback = n)
  /\ (forall (getSetting : string -> option string) (parseFloat : option string -> option Q),
        let l := interaction_limits getSetting parseFloat in
        maxRepliesPerThread l <> 0 /\ maxRepliesPerUser l <> 0
        /\ minTimeBetweenReplies l <> 0 /\ checkIntervalMinutes l <> 0
        /\ ~ (replyProbability l == 0)%Q)
  /\ (forall getSetting : string -> option string,
        PostClient.minMinutes (post_schedule getSetting) <> 0
        /\ PostClient.maxMinutes (post_schedule getSetting) <> 0
        /\ PostClient.lastPostTime (post_schedule getSetting) = 0).
Proof.
  split; [apply int_setting_nonzero|]. split; [|split; [|split]].
  - intros v fallback [Hnan|Hzero]; unfold int_setting; [by rewrite Hnan | by rewrite Hzero].
  - intros v fallback n Hn Hnz. unfold int_setting. rewrite Hn.
    by destruct (Z.eqb_spec n 0).
  - intros getSetting parseFloat. cbv zeta. unfold interaction_limits. simpl.
    repeat (split; [by apply int_setting_nonzero|]).
    unfold float_setting. destruct (parseFloat _) as [q|]; [|done].
    destruct (Qeq_bool q 0) eqn:Hq; [done|].
    intros Hzero%Qeq_bool_iff. congruence.
  - intros getSetting. unfold post_schedule. simpl.
    split; [by apply int_setting_nonzero|]. split; [by apply int_setting_nonzero | done].
Qed.

Lemma settings_never_zero_witness :
  int_setting (zealous_settings "MAX_REPLIES_PER_USER") 5 = 5.
Proof.
  apply (proj1 (proj2 settings_never_zero) (zealous_settings "MAX_REPLIES_PER_USER") 5).
  right. reflexivity.
Defined.

(** "0" cannot switch the replies to a user off, " 7 replies" reads as 7,
    "0x10" as 16, and "soon" as nothing. *)
Example zealous_limits :
  interaction_limits zealous_settings (fun _ => None) = mkLimits 7 5 300000 3 (1 # 2)
  /\ post_schedule zealous_settings = PostClient.mkSchedule 16 180 0.
Proof. vm_compute. split; reflexivity. Qed.
End SettingsFacts.

(** ** index.ts: loading the special interactions *)

Section Loading.
Import TwitterManager Loader.



(** On the demonstration file system the third candidate is the file;
    one of its four entries passes the validation. *)
Example loadSpecialInteractions_demo :
  let m' := (loadSpecialInteractions demo_files fresh_twitter_manager).2 in
  dom (specialInteractions (post m')) = {[ "vitalik" ]}
  /\ last (console (mgr_world m')) = Some (LInfo, "Successfully loaded 1 special interactions").
Proof. vm_compute. split; reflexivity. Qed.
End Loading.

(** ** The general statements at work on the scenarios *)

Section Instances.
Import Interactions Scenarios Tracking.

Lemma cleanupTrackingMaps_spec_witness :
  exists t', cleanupTrackingMaps busy_tracker = (Ok tt, t')
    /\ recentReplies (tr_client t') !! "alice" = None
    /\ recentReplies (tr_client t') !! "bob" = Some 1.
Proof.
  destruct (cleanupTrackingMaps_spec busy_tracker) as (t' & Hrun & _ & Hstale & Hkept & _).
  exists t'. split; [exact Hrun|]. split.
  - apply (Hstale "alice" day); [reflexivity | vm_compute; reflexivity].
  - rewrite (Hkept "bob"); [reflexivity|].
    intros ts Hts. vm_compute in Hts. injection Hts as <-. vm_compute. discriminate.
Defined.

Lemma shouldProcessTweet_admission_witness :
  exists admitted c1,
    shouldProcessTweet (two_mentions 0) unlucky_client = (Ok admitted, c1)
    /\ rand_pos (world c1) = S (rand_pos (world unlucky_client)).
Proof.
  destruct (shouldProcessTweet_admission (two_mentions 0) unlucky_client)
    as (admitted & c1 & Hrun & _ & _ & _ & Hdraw & _).
  exists admitted, c1. split; [exact Hrun|]. apply Hdraw.
  vm_compute. repeat split; discriminate.
Defined.

Lemma reply_starts_the_interval_witness :
  let c := fresh_client (calm_externals (fun _ => mention "1" "alice") [])
             (steady_world 0 1000) in
  (canReplyInThread "c2" (updateInteractionTracking "alice" "c1" c).2).1
  = (canReplyInThread "c2" c).1.
Proof.
  intros c.
  destruct (reply_starts_the_interval c "alice" "c1" (steady_world 0 1000))
    as (_ & _ & Hother).
  apply Hother. discriminate.
Defined.

Lemma posting_loop_turn_witness :
  let c := PostClient.fresh_client PostClient.calm_externals None
             (steady_world (1 # 2) 100000000) in
  90 <= Qfloor (next_random (PostClient.world c) * inject_Z (180 - 90 + 1)) + 90 <= 180.
Proof.
  intros c.
  destruct (posting_loop_turn c) as (c' & _ & _ & _ & _ & Hbounds).
  destruct Hbounds as (Hminutes & _ & _).
  - intros i. vm_compute. split; [discriminate | reflexivity].
  - vm_compute. discriminate.
  - exact Hminutes.
Defined.
End Instances.
